(** * Gmail analyzer: sync engine, hybrid classification and rate limiter

    A shallow embedding of the TypeScript sources
    - [utils/rateLimiter.ts]         (module [RateLimiter]),
    - [app/api/sync/route.ts]        (modules [LocalClassifier], [Sync]),
    - [lib/database.ts]              (modules [Database], [ReportTables]),
    - [app/api/analyze/route.ts]     (modules [Analyzer], [Report],
                                      [Prefilter], [Hybrid]),
    - [app/api/delete-emails/route.ts] (module [DeleteRoute]) and the
      route that moves a message between the lists of a report (module
      [MoveRoute]),
    together with the properties stated about them.  The payload
    helpers of both routes are in [MessageParts], the helpers that read
    a From header in [SenderFields].

    Conventions.  JavaScript numbers that hold integers (timestamps in
    milliseconds, byte sizes, token counts) are [Z].  A [string] is the
    sequence of its code units.  Asynchronous code is run sequentially: an
    [await] is a plain call, the outside world (clock, timers, the mail
    API, the language model, database faults) is an explicit argument. *)

From Stdlib Require Import ZArith Lia QArith Ascii Sorted.
From stdpp Require Import base tactics option list strings pretty gmap.

Local Open Scope Z_scope.

(* ===================================================================== *)
(** * The rate limiter ([utils/rateLimiter.ts]) *)
(* ===================================================================== *)

Module RateLimiter.

Record RateLimiterConfig := {
  maxRequests : Z;   (* Max requests per window *)
  windowMs : Z;      (* Time window in milliseconds *)
  minDelayMs : Z     (* Minimum delay between requests *)
}.

(** [Math.min(...xs)] and [Math.max(...xs)]; [None] is the infinity that
    JavaScript returns for an empty argument list. *)
Definition Math_min (xs : list Z) : option Z :=
  match xs with
  | [] => None
  | x :: xs' => Some (foldr Z.min x xs')
  end.

Definition Math_max (xs : list Z) : option Z :=
  match xs with
  | [] => None
  | x :: xs' => Some (foldr Z.max x xs')
  end.

(** [setTimeout(resolve, ms)] on Node: a delay below 1 or above
    [TIMEOUT_MAX] (and an infinite one) is replaced by 1. *)
Definition TIMEOUT_MAX : Z := 2147483647.

Definition timerDelay (ms : option Z) : Z :=
  match ms with
  | Some d => if bool_decide (1 ≤ d ≤ TIMEOUT_MAX) then d else 1
  | None => 1
  end.

(** What the scheduler contributes to one call: how long after the
    previous event the call starts, and by how much each timer and the
    final [Date.now()] run late.  Lateness is never negative. *)
Record Timing := {
  arrival : N;
  lateWindow : N;
  lateDelay : N;
  lateRecord : N
}.

(** [this.sleep(ms)], started at [clock]: the time at which it resumes. *)
Definition sleep (ms : option Z) (late : N) (clock : Z) : Z :=
  clock + timerDelay ms + Z.of_N late.

(** [this.config.windowMs - (now - oldestRequest) + 100] *)
Definition windowWaitTime (cfg : RateLimiterConfig) (now : Z)
    (requests : list Z) : option Z :=
  (λ oldestRequest, windowMs cfg - (now - oldestRequest) + 100)
    <$> Math_min requests.

(** [waitTime > 0]; the infinite wait time is positive. *)
Definition positive (waitTime : option Z) : bool :=
  match waitTime with
  | Some w => bool_decide (0 < w)
  | None => true
  end.

(** [waitIfNeeded()], entered when the clock shows [clock + arrival] with
    [requests] the stored time stamps.  Returns the recorded time stamp
    (which is also the clock when the call completes) and the new
    [this.requests]. *)
Definition waitIfNeeded (cfg : RateLimiterConfig) (tm : Timing)
    (clock : Z) (requests : list Z) : Z * list Z :=
  let now := clock + Z.of_N (arrival tm) in
  (* Remove old requests outside the window *)
  let requests := filter (λ time, now - time < windowMs cfg) requests in
  (* Check if we're at the limit *)
  let clock1 :=
    if bool_decide (maxRequests cfg ≤ Z.of_nat (length requests)) then
      let waitTime := windowWaitTime cfg now requests in
      if positive waitTime then sleep waitTime (lateWindow tm) now else now
    else now in
  (* Ensure minimum delay between requests *)
  let clock2 :=
    match Math_max requests with          (* requests.length > 0 *)
    | Some lastRequest =>
        let timeSinceLastRequest := now - lastRequest in
        if bool_decide (timeSinceLastRequest < minDelayMs cfg) then
          let delayNeeded := minDelayMs cfg - timeSinceLastRequest in
          sleep (Some delayNeeded) (lateDelay tm) clock1
        else clock1
    | None => clock1
    end in
  (* Record this request *)
  let stamp := clock2 + Z.of_N (lateRecord tm) in
  (stamp, requests ++ [stamp]).

(** A sequence of calls, one after the other, on one limiter: the time
    stamps they record. *)
Fixpoint calls (cfg : RateLimiterConfig) (tms : list Timing)
    (clock : Z) (requests : list Z) : list Z :=
  match tms with
  | [] => []
  | tm :: tms' =>
      let '(stamp, requests') := waitIfNeeded cfg tm clock requests in
      stamp :: calls cfg tms' stamp requests'
  end.

(** [new RateLimiter(cfg)] created at time [t0], then the calls [tms]. *)
Definition trace (cfg : RateLimiterConfig) (t0 : Z) (tms : list Timing)
  : list Z := calls cfg tms t0 [].

(** [getStatus().requestsInWindow] *)
Definition requestsInWindow (cfg : RateLimiterConfig) (now : Z)
    (requests : list Z) : nat :=
  length (filter (λ time, now - time < windowMs cfg) requests).

(** No interval [a, a + windowMs) holds more than [maxRequests] stamps. *)
Definition window_bounded (cfg : RateLimiterConfig) (tr : list Z) : Prop :=
  ∀ a, Z.of_nat (length (filter (λ t, a ≤ t < a + windowMs cfg) tr))
       ≤ maxRequests cfg.

(** Consecutive stamps are at least [minDelayMs] apart. *)
Definition spaced (cfg : RateLimiterConfig) (tr : list Z) : Prop :=
  ∀ i x y, tr !! i = Some x → tr !! S i = Some y → minDelayMs cfg ≤ y - x.

Definition gmailRateLimiterConfig : RateLimiterConfig :=
  {| maxRequests := 7500; windowMs := 60 * 1000; minDelayMs := 8 |}.

(** The limiter after the calls [tms], made one after the other: the
    clock when the last call completed, and [this.requests]. *)
Fixpoint after (cfg : RateLimiterConfig) (tms : list Timing)
    (clock : Z) (requests : list Z) : Z * list Z :=
  match tms with
  | [] => (clock, requests)
  | tm :: tms' =>
      let '(stamp, requests') := waitIfNeeded cfg tm clock requests in
      after cfg tms' stamp requests'
  end.

End RateLimiter.

(* ===================================================================== *)
(** * JavaScript strings *)
(* ===================================================================== *)

Module Js.

(** [s.startsWith(p)] *)
Fixpoint startsWith (s p : string) {struct p} : bool :=
  match p, s with
  | EmptyString, _ => true
  | String c p', String d s' => bool_decide (c = d) && startsWith s' p'
  | String _ _, EmptyString => false
  end.

(** [s.includes(needle)] *)
Fixpoint includes (s needle : string) : bool :=
  startsWith s needle ||
  match s with
  | EmptyString => false
  | String _ s' => includes s' needle
  end.

(** [toLowerCase] on the letters A-Z; the examples use it.  The
    definitions below take the lower-casing function as an argument. *)
Definition asciiToLower (c : ascii) : ascii :=
  let n := Ascii.nat_of_ascii c in
  if bool_decide (65 ≤ n ≤ 90)%nat then Ascii.ascii_of_nat (n + 32) else c.

Fixpoint asciiLowerCase (s : string) : string :=
  match s with
  | EmptyString => EmptyString
  | String c s' => String (asciiToLower c) (asciiLowerCase s')
  end.

(** What [catch (error)] receives: an [Error] with its message, or any
    other thrown value ([error instanceof Error] is false). *)
Inductive thrown :=
  | ErrorObj (message : string)
  | NotAnError.

(** [error instanceof Error ? error.message : fallback] *)
Definition messageOr (fallback : string) (error : thrown) : string :=
  match error with
  | ErrorObj message => message
  | NotAnError => fallback
  end.

(** [for (let i = 0; i < l.length; i += n) ... l.slice(i, i + n)]: the
    slices, in order.  [n] is positive at every use. *)
Fixpoint slicesFrom {A} (fuel n : nat) (l : list A) : list (list A) :=
  match fuel, l with
  | S fuel', _ :: _ => take n l :: slicesFrom fuel' n (drop n l)
  | _, _ => []
  end.

Definition slices {A} (n : nat) (l : list A) : list (list A) :=
  slicesFrom (length l) n l.

End Js.

(* ===================================================================== *)
(** * The local classifier ([EmailSyncer.classifyEmail], sync route) *)
(* ===================================================================== *)

Module LocalClassifier.
Import Js.

Section Classifier.
Variable toLowerCase : string → string.

(** Clear newsletter indicators (explicit marketing) *)
Definition newsletterIndicator (subject from senderEmail : string) : bool :=
  includes subject "newsletter" ||
  includes subject "unsubscribe" ||
  includes from "newsletter" ||
  includes senderEmail "newsletter" ||
  includes senderEmail "marketing" ||
  includes subject "weekly digest" ||
  includes subject "monthly update".

(** Clear promotional indicators *)
Definition promotionalIndicator (subject : string) : bool :=
  includes subject "sale" ||
  includes subject "discount" ||
  includes subject "offer" ||
  includes subject "deal" ||
  includes subject "% off" ||
  includes subject "free shipping" ||
  includes subject "limited time" ||
  includes subject "expires today" ||
  includes subject "last chance".

(** Social media notifications *)
Definition socialIndicator (from senderEmail : string) : bool :=
  includes from "facebook" ||
  includes from "twitter" ||
  includes from "linkedin" ||
  includes from "instagram" ||
  includes from "tiktok" ||
  includes from "snapchat" ||
  includes from "youtube" ||
  includes from "pinterest" ||
  includes from "reddit" ||
  includes senderEmail "facebook.com" ||
  includes senderEmail "twitter.com" ||
  includes senderEmail "linkedin.com" ||
  includes senderEmail "instagram.com" ||
  includes senderEmail "tiktok.com" ||
  includes senderEmail "youtube.com".

(** [classifyEmail({subject, from, senderEmail})] *)
Definition classifyEmail (subject from senderEmail : string) : string :=
  let subject := toLowerCase subject in
  let from := toLowerCase from in
  let senderEmail := toLowerCase senderEmail in
  if newsletterIndicator subject from senderEmail then "newsletter"
  else if promotionalIndicator subject then "promotional"
  else if socialIndicator from senderEmail then "social"
  else "unknown".

(** A "noreply"-style sender, in the words of the specification.  The
    source has no test of this kind; the definition is only used to state
    the property about such senders. *)
Definition noreplyStyle (senderEmail : string) : Prop :=
  includes (toLowerCase senderEmail) "noreply" = true ∨
  includes (toLowerCase senderEmail) "no-reply" = true.

End Classifier.
End LocalClassifier.

(* ===================================================================== *)
(** * The persistence layer ([lib/database.ts]) *)
(* ===================================================================== *)

Module Database.
Import Js.

Record SyncOptions := {
  timeRange : string;
  excludeSpam : bool;
  excludeTrash : bool;
  maxEmailSize : Z
}.

Record Attachment := {
  filename : string;
  mimeType : string;
  attachmentSize : Z
}.

(** The argument type of [createOrUpdateEmails]; an optional field that is
    [undefined] is [None].  Dates are milliseconds since the epoch. *)
Record EmailData := {
  gmailId : string;
  threadId : option string;
  subject : string;
  senderEmail : string;
  senderName : string;
  toAddress : option string;
  date : Z;
  size : Z;
  labels : list string;
  snippet : option string;
  hasAttachments : bool;
  attachmentInfo : option (list Attachment);
  category : option string
}.

(** A row of table [emails].  The table has a unique index on [gmailId]:
    it is a finite map from [gmailId] to the other columns.  A nullable
    column that is [NULL] is [None]; [labels] and [attachmentInfo] hold
    the value whose JSON text the column stores.  The columns [id],
    [createdAt] and [updatedAt] are left out. *)
Record EmailRow := {
  row_userEmail : string;
  row_threadId : option string;
  row_subject : string;
  row_senderEmail : string;
  row_senderName : string;
  row_toAddress : option string;
  row_date : Z;
  row_size : Z;
  row_labels : list string;
  row_snippet : option string;
  row_hasAttachments : bool;
  row_attachmentInfo : option (list Attachment);
  row_category : option string;
  row_lastSynced : Z
}.

Record SyncSession := {
  s_userEmail : string;
  s_startedAt : Z;
  s_completedAt : option Z;
  s_status : string;
  s_syncOptions : SyncOptions;
  s_dateRangeStart : option Z;
  s_dateRangeEnd : option Z;
  s_emailsProcessed : Z;
  s_totalEmails : option Z;
  s_currentBatch : Z;
  s_totalBatches : Z;
  s_errorMessage : option string
}.

(** A row of table [sync_status], keyed by [userEmail]. *)
Record SyncStatus := {
  st_lastSync : option Z;
  st_totalEmails : Z;
  st_syncInProgress : bool;
  st_syncOptions : option SyncOptions;
  st_errorMessage : option string
}.

Record Db := {
  emails : gmap string EmailRow;
  syncSessions : gmap string SyncSession;
  syncStatus : gmap string SyncStatus
}.

Definition setEmails (e : gmap string EmailRow) (db : Db) : Db :=
  {| emails := e; syncSessions := syncSessions db; syncStatus := syncStatus db |}.

(** A field of a Prisma [update]: [undefined] leaves the column as it is. *)
Definition orKeep {A} (new : option A) (old : option A) : option A :=
  match new with
  | Some x => Some x
  | None => old
  end.

(** The [create] branch of the upsert in [createOrUpdateEmails]. *)
Definition createRow (userEmail : string) (now : Z) (email : EmailData)
  : EmailRow :=
  {| row_userEmail := userEmail;
     row_threadId := threadId email;
     row_subject := subject email;
     row_senderEmail := senderEmail email;
     row_senderName := senderName email;
     row_toAddress := toAddress email;
     row_date := date email;
     row_size := size email;
     row_labels := labels email;
     row_snippet := snippet email;
     row_hasAttachments := hasAttachments email;
     row_attachmentInfo := attachmentInfo email;
     row_category := category email;
     row_lastSynced := now |}.

(** The [update] branch: [...email], then [labels], [attachmentInfo]
    ([null] when absent) and [lastSynced: new Date()]. *)
Definition updateRow (now : Z) (email : EmailData) (row : EmailRow)
  : EmailRow :=
  {| row_userEmail := row_userEmail row;
     row_threadId := orKeep (threadId email) (row_threadId row);
     row_subject := subject email;
     row_senderEmail := senderEmail email;
     row_senderName := senderName email;
     row_toAddress := orKeep (toAddress email) (row_toAddress row);
     row_date := date email;
     row_size := size email;
     row_labels := labels email;
     row_snippet := orKeep (snippet email) (row_snippet row);
     row_hasAttachments := hasAttachments email;
     row_attachmentInfo := attachmentInfo email;
     row_category := orKeep (category email) (row_category row);
     row_lastSynced := now |}.

(** [tx.email.upsert({ where: { gmailId: email.gmailId }, update, create })] *)
Definition upsertEmail (userEmail : string) (now : Z)
    (table : gmap string EmailRow) (email : EmailData)
  : gmap string EmailRow :=
  <[gmailId email :=
      match table !! gmailId email with
      | Some row => updateRow now email row
      | None => createRow userEmail now email
      end]> table.

(** [createOrUpdateEmails(userEmail, emails)]: one transaction. *)
Definition createOrUpdateEmails (userEmail : string) (now : Z)
    (batch : list EmailData) (table : gmap string EmailRow)
  : gmap string EmailRow :=
  foldl (upsertEmail userEmail now) table batch.

(** [prisma.email.deleteMany({ where })]: the count and the table left. *)
Definition deleteMany (where_ : string → EmailRow → bool)
    (table : gmap string EmailRow) : nat * gmap string EmailRow :=
  (base.size (filter (λ kr, where_ kr.1 kr.2 = true) table),
   filter (λ kr, where_ kr.1 kr.2 = false) table).

Record SyncRange := {
  startDate : option Z;   (* null: full sync *)
  endDate : Z
}.

(** [gmailId: { notIn: validGmailIds }] *)
Definition notIn (validGmailIds : list string) (id : string) : bool :=
  bool_decide (id ∉ validGmailIds).

(** The [where] clause of [cleanupEmailsInRange]. *)
Definition cleanupWhere (userEmail : string) (validGmailIds : list string)
    (syncRange : SyncRange) (id : string) (row : EmailRow) : bool :=
  match startDate syncRange with
  | None =>
      (* Full sync - safe to delete all orphaned emails *)
      bool_decide (row_userEmail row = userEmail) && notIn validGmailIds id
  | Some start =>
      (* Partial sync - only delete orphaned emails within the synced date range *)
      bool_decide (row_userEmail row = userEmail) &&
      (bool_decide (start ≤ row_date row) &&
       bool_decide (row_date row ≤ endDate syncRange)) &&
      notIn validGmailIds id
  end.

Definition cleanupEmailsInRange (userEmail : string)
    (validGmailIds : list string) (syncRange : SyncRange)
    (table : gmap string EmailRow) : nat * gmap string EmailRow :=
  deleteMany (cleanupWhere userEmail validGmailIds syncRange) table.

(** [createSyncSession(userEmail, options, dateRange)], the new row
    getting the id [id]. *)
Definition createSyncSession (id : string) (now : Z) (userEmail : string)
    (options : SyncOptions) (dateRange : SyncRange) (db : Db) : Db :=
  {| emails := emails db;
     syncSessions :=
       <[id := {| s_userEmail := userEmail;
                  s_startedAt := now;
                  s_completedAt := None;
                  s_status := "in_progress";
                  s_syncOptions := options;
                  s_dateRangeStart := startDate dateRange;
                  s_dateRangeEnd := Some (endDate dateRange);
                  s_emailsProcessed := 0;
                  s_totalEmails := None;
                  s_currentBatch := 0;
                  s_totalBatches := 0;
                  s_errorMessage := None |}]> (syncSessions db);
     syncStatus := syncStatus db |}.

(** The [updates] argument of [updateSyncSession]. *)
Record SessionUpdates := {
  u_status : option string;
  u_emailsProcessed : option Z;
  u_totalEmails : option Z;
  u_currentBatch : option Z;
  u_totalBatches : option Z;
  u_errorMessage : option string;
  u_completedAt : option Z
}.

Definition noUpdates : SessionUpdates :=
  {| u_status := None; u_emailsProcessed := None; u_totalEmails := None;
     u_currentBatch := None; u_totalBatches := None; u_errorMessage := None;
     u_completedAt := None |}.

Definition applySessionUpdates (u : SessionUpdates) (s : SyncSession)
  : SyncSession :=
  {| s_userEmail := s_userEmail s;
     s_startedAt := s_startedAt s;
     s_completedAt := orKeep (u_completedAt u) (s_completedAt s);
     s_status := default (s_status s) (u_status u);
     s_syncOptions := s_syncOptions s;
     s_dateRangeStart := s_dateRangeStart s;
     s_dateRangeEnd := s_dateRangeEnd s;
     s_emailsProcessed := default (s_emailsProcessed s) (u_emailsProcessed u);
     s_totalEmails := orKeep (u_totalEmails u) (s_totalEmails s);
     s_currentBatch := default (s_currentBatch s) (u_currentBatch u);
     s_totalBatches := default (s_totalBatches s) (u_totalBatches u);
     s_errorMessage := orKeep (u_errorMessage u) (s_errorMessage s) |}.

(** [updateSyncSession(sessionId, updates)] *)
Definition updateSyncSession (sessionId : string) (u : SessionUpdates)
    (db : Db) : Db :=
  {| emails := emails db;
     syncSessions := alter (applySessionUpdates u) sessionId (syncSessions db);
     syncStatus := syncStatus db |}.

(** The [data] argument of [updateSyncStatus]; [errorMessage: null] is
    [Some None]. *)
Record StatusData := {
  d_lastSync : option Z;
  d_totalEmails : option Z;
  d_syncInProgress : option bool;
  d_syncOptions : option SyncOptions;
  d_errorMessage : option (option string)
}.

Definition noData : StatusData :=
  {| d_lastSync := None; d_totalEmails := None; d_syncInProgress := None;
     d_syncOptions := None; d_errorMessage := None |}.

Definition statusDefaults : SyncStatus :=
  {| st_lastSync := None; st_totalEmails := 0; st_syncInProgress := false;
     st_syncOptions := None; st_errorMessage := None |}.

Definition applyStatusData (d : StatusData) (st : SyncStatus) : SyncStatus :=
  {| st_lastSync := orKeep (d_lastSync d) (st_lastSync st);
     st_totalEmails := default (st_totalEmails st) (d_totalEmails d);
     st_syncInProgress := default (st_syncInProgress st) (d_syncInProgress d);
     st_syncOptions := orKeep (d_syncOptions d) (st_syncOptions st);
     st_errorMessage := default (st_errorMessage st) (d_errorMessage d) |}.

(** [updateSyncStatus(userEmail, data)]: an upsert on the user's row. *)
Definition updateSyncStatus (userEmail : string) (d : StatusData) (db : Db)
  : Db :=
  {| emails := emails db;
     syncSessions := syncSessions db;
     syncStatus :=
       <[userEmail :=
           applyStatusData d (default statusDefaults (syncStatus db !! userEmail))]>
         (syncStatus db) |}.

(** [deleteOrphanedEmails(userEmail, validGmailIds)] *)
Definition deleteOrphanedEmails (userEmail : string)
    (validGmailIds : list string) (table : gmap string EmailRow)
  : nat * gmap string EmailRow :=
  deleteMany (λ id row, bool_decide (row_userEmail row = userEmail) &&
                        notIn validGmailIds id) table.

(** [deleteEmailsByGmailIds(userEmail, gmailIds)] *)
Definition deleteEmailsByGmailIds (userEmail : string)
    (gmailIds : list string) (table : gmap string EmailRow)
  : nat * gmap string EmailRow :=
  deleteMany (λ id row, bool_decide (row_userEmail row = userEmail) &&
                        bool_decide (id ∈ gmailIds)) table.

End Database.

(* ===================================================================== *)
(** * The sync engine ([EmailSyncer], sync route) *)
(* ===================================================================== *)

Module Sync.
Import Js Database.

(** The [await] of a batch's [try] body that throws. *)
Inductive Stage :=
  | AtPersist          (* createOrUpdateEmails: the transaction is rolled back *)
  | AtSessionUpdate    (* updateSyncSession, progress *)
  | AtStatusUpdate.    (* updateSyncStatus, progress *)

Global Instance Stage_eq_dec : EqDecision Stage.
Proof. solve_decision. Defined.

(** The world of one run of [syncEmails].  The writes of the [catch]
    handlers and those outside a batch are taken to succeed. *)
Record Env := {
  now : Z;                              (* new Date(), CURRENT_TIMESTAMP *)
  syncRange : SyncRange;                (* getSyncDateRange(options) *)
  newSessionId : string;                (* the id of the created session *)
  listing : string → thrown + list string;
                                        (* getAllMessageIds(query) *)
  fetch : string → option EmailData;    (* one message of processBatch,
                                           None when it was given up *)
  fault : nat → option (Stage * thrown) (* batch number to its failure *)
}.

Record SyncResult := {
  success : bool;
  totalEmails : Z;
  newEmails : Z;
  deletedEmails : Z;
  sessionId : option string     (* None: the object has no such field *)
}.

(** [buildSearchQuery(options)] *)
Definition buildSearchQuery (options : SyncOptions) : string :=
  String.concat " "
    ((if bool_decide (timeRange options ≠ "all")
      then ["newer_than:" +:+ timeRange options] else []) ++
     (if excludeSpam options then ["-in:spam"] else []) ++
     (if excludeTrash options then ["-in:trash"] else []) ++
     (if bool_decide (0 < maxEmailSize options)
      then ["smaller:" +:+ pretty (maxEmailSize options * 1024 * 1024)]
      else [])).

(** [processBatch(messageIds, options)]: chunks of 10 fetched together,
    the messages that could not be fetched filtered out of each chunk. *)
Definition processBatch (env : Env) (messageIds : list string)
  : list EmailData :=
  concat (map (omap (fetch env)) (slices 10 messageIds)).

Record Progress := {
  db : Db;
  totalProcessed : Z;
  allProcessedGmailIds : list string
}.

Definition faultAt (env : Env) (batchNumber : nat) (stage : Stage)
  : option thrown :=
  match fault env batchNumber with
  | Some (s, e) => if decide (s = stage) then Some e else None
  | None => None
  end.

(** The [try] body of one batch; [Some e] when it throws [e], with the
    state at that point. *)
Definition batchBody (env : Env) (userEmail : string) (options : SyncOptions)
    (sessionId : string) (batchNumber : nat) (batch : list string)
    (p : Progress) : option thrown * Progress :=
  let batchEmails := processBatch env batch in
  (* Save batch immediately to database (incremental) *)
  match faultAt env batchNumber AtPersist with
  | Some e => (Some e, p)
  | None =>
  let table := createOrUpdateEmails userEmail (now env) batchEmails (emails (db p)) in
  let totalProcessed := totalProcessed p + Z.of_nat (length batchEmails) in
  let allProcessedGmailIds :=
    allProcessedGmailIds p ++ map gmailId batchEmails in
  let p1 := {| db := setEmails table (db p);
               totalProcessed := totalProcessed;
               allProcessedGmailIds := allProcessedGmailIds |} in
  (* Update session progress *)
  match faultAt env batchNumber AtSessionUpdate with
  | Some e => (Some e, p1)
  | None =>
  let db2 := updateSyncSession sessionId
    {| u_status := None; u_emailsProcessed := Some totalProcessed;
       u_totalEmails := None; u_currentBatch := Some (Z.of_nat batchNumber);
       u_totalBatches := None; u_errorMessage := None;
       u_completedAt := None |} (db p1) in
  let p2 := {| db := db2; totalProcessed := totalProcessed;
               allProcessedGmailIds := allProcessedGmailIds |} in
  (* Update legacy sync status for UI *)
  match faultAt env batchNumber AtStatusUpdate with
  | Some e => (Some e, p2)
  | None =>
  let db3 := updateSyncStatus userEmail
    {| d_lastSync := None; d_totalEmails := Some totalProcessed;
       d_syncInProgress := Some true; d_syncOptions := Some options;
       d_errorMessage := None |} db2 in
  (None, {| db := db3; totalProcessed := totalProcessed;
            allProcessedGmailIds := allProcessedGmailIds |})
  end end end.

(** The [for] loop over the batches, from batch [batchNumber] on.  A
    batch that throws is marked on the session and the error thrown on. *)
Fixpoint batchLoop (env : Env) (userEmail : string) (options : SyncOptions)
    (sessionId : string) (batchNumber : nat) (batches : list (list string))
    (p : Progress) : option thrown * Progress :=
  match batches with
  | [] => (None, p)
  | batch :: rest =>
      match batchBody env userEmail options sessionId batchNumber batch p with
      | (Some batchError, p') =>
          (* Mark session as failed but continue with partial data *)
          let db' := updateSyncSession sessionId
            {| u_status := Some "failed";
               u_emailsProcessed := Some (totalProcessed p');
               u_totalEmails := None; u_currentBatch := None;
               u_totalBatches := None;
               u_errorMessage :=
                 Some (messageOr "Batch processing failed" batchError);
               u_completedAt := None |} (db p') in
          (Some batchError,
           {| db := db'; totalProcessed := totalProcessed p';
              allProcessedGmailIds := allProcessedGmailIds p' |})
      | (None, p') =>
          batchLoop env userEmail options sessionId (S batchNumber) rest p'
      end
  end.

(** The outer [try] body of [syncEmails]. *)
Definition syncBody (env : Env) (userEmail : string) (options : SyncOptions)
    (sessionId : string) (db0 : Db) : (thrown + SyncResult) * Db :=
  (* Get all message IDs first *)
  match listing env (buildSearchQuery options) with
  | inl e => (inl e, db0)
  | inr messageIds =>
      if bool_decide (length messageIds = 0%nat) then
        let db1 := updateSyncSession sessionId
          {| u_status := Some "completed"; u_emailsProcessed := None;
             u_totalEmails := Some 0; u_currentBatch := None;
             u_totalBatches := None; u_errorMessage := None;
             u_completedAt := Some (now env) |} db0 in
        let db2 := updateSyncStatus userEmail
          {| d_lastSync := Some (now env); d_totalEmails := Some 0;
             d_syncInProgress := Some false; d_syncOptions := None;
             d_errorMessage := None |} db1 in
        (inr {| success := true; totalEmails := 0; newEmails := 0;
                deletedEmails := 0; sessionId := None |}, db2)
      else
        (* Setup batch processing with incremental saving *)
        let batchSize := 100%nat in
        let totalBatches := (Z.of_nat (length messageIds) + 99) / 100 in
        let db1 := updateSyncSession sessionId
          {| u_status := None; u_emailsProcessed := None;
             u_totalEmails := Some (Z.of_nat (length messageIds));
             u_currentBatch := None; u_totalBatches := Some totalBatches;
             u_errorMessage := None; u_completedAt := None |} db0 in
        match batchLoop env userEmail options sessionId 1
                (slices batchSize messageIds)
                {| db := db1; totalProcessed := 0;
                   allProcessedGmailIds := [] |} with
        | (Some e, p) => (inl e, db p)
        | (None, p) =>
            (* All batches completed successfully - now do cleanup *)
            let deletedResult :=
              cleanupEmailsInRange userEmail (allProcessedGmailIds p)
                (syncRange env) (emails (db p)) in
            let db2 := setEmails deletedResult.2 (db p) in
            (* Mark session as completed *)
            let db3 := updateSyncSession sessionId
              {| u_status := Some "completed"; u_emailsProcessed := None;
                 u_totalEmails := None; u_currentBatch := None;
                 u_totalBatches := None; u_errorMessage := None;
                 u_completedAt := Some (now env) |} db2 in
            (* Update legacy sync status *)
            let db4 := updateSyncStatus userEmail
              {| d_lastSync := Some (now env);
                 d_totalEmails := Some (totalProcessed p);
                 d_syncInProgress := Some false; d_syncOptions := None;
                 d_errorMessage := Some None |} db3 in
            (inr {| success := true;
                    totalEmails := totalProcessed p;
                    newEmails := totalProcessed p;
                    deletedEmails := Z.of_nat deletedResult.1;
                    sessionId := Some sessionId |}, db4)
        end
  end.

(** [syncEmails(options)] for the user [userEmail], on the store [db0]:
    what it returns or throws, and the store it leaves. *)
Definition syncEmails (env : Env) (userEmail : string) (options : SyncOptions)
    (db0 : Db) : (thrown + SyncResult) * Db :=
  (* Create new sync session *)
  let sessionId := newSessionId env in
  let db1 := createSyncSession sessionId (now env) userEmail options
               (syncRange env) db0 in
  (* Mark legacy sync status as in progress (for UI compatibility) *)
  let db2 := updateSyncStatus userEmail
    {| d_lastSync := None; d_totalEmails := None;
       d_syncInProgress := Some true; d_syncOptions := Some options;
       d_errorMessage := Some None |} db1 in
  match syncBody env userEmail options sessionId db2 with
  | (inr result, db3) => (inr result, db3)
  | (inl error, db3) =>
      (* Mark session as failed *)
      let db4 := updateSyncSession sessionId
        {| u_status := Some "failed"; u_emailsProcessed := None;
           u_totalEmails := None; u_currentBatch := None;
           u_totalBatches := None;
           u_errorMessage := Some (messageOr "Unknown sync error" error);
           u_completedAt := None |} db3 in
      (* Reset legacy sync status *)
      let db5 := updateSyncStatus userEmail
        {| d_lastSync := None; d_totalEmails := None;
           d_syncInProgress := Some false; d_syncOptions := None;
           d_errorMessage := Some (Some (messageOr "Unknown sync error" error)) |}
        db4 in
      (inl error, db5)
  end.

End Sync.

(* ===================================================================== *)
(** * The analyzer ([GmailAnalyzer], analyze route) *)
(* ===================================================================== *)

Module Analyzer.
Import Js.

(** ** Values *)

(** A value as [JSON.parse] returns it.  An object is the list of its
    properties, one entry for each name. *)
#[local] Unset Elimination Schemes.
Inductive json :=
  | JNull
  | JBool (b : bool)
  | JNum (q : Q)
  | JStr (s : string)
  | JArr (items : list json)
  | JObj (fields : list (string * json)).
#[local] Set Elimination Schemes.

Fixpoint assoc (key : string) (fields : list (string * json)) : option json :=
  match fields with
  | [] => None
  | (k, v) :: rest => if decide (k = key) then Some v else assoc key rest
  end.

Fixpoint without (key : string) (fields : list (string * json))
  : list (string * json) :=
  match fields with
  | [] => []
  | (k, v) :: rest =>
      if decide (k = key) then without key rest else (k, v) :: without key rest
  end.

(** [v.key] for a property name that is not an index: [None] is
    [undefined].  ([v] is not [null] at any use.) *)
Definition getField (key : string) (v : json) : option json :=
  match v with
  | JObj fields => assoc key fields
  | _ => None
  end.

(** [if (v)] *)
Definition truthy (v : json) : bool :=
  match v with
  | JNull => false
  | JBool b => b
  | JNum q => negb (Qeq_bool q 0)
  | JStr s => negb (bool_decide (s = ""))
  | JArr _ | JObj _ => true
  end.

(** [v === "text"] for a property that may be absent. *)
Definition isString (text : string) (v : option json) : bool :=
  match v with
  | Some (JStr s) => bool_decide (s = text)
  | _ => false
  end.

Record EmailData := {
  id : string;
  threadId : string;
  subject : string;
  from : string;
  to : string;
  date : string;
  size : Z;
  labels : list string;
  snippet : string;
  hasAttachments : bool;
  attachmentSizes : list (string * Z)
}.

(** The [tokenUsage] of a result; a number that is [undefined] is [None]. *)
Record TokenUsage := {
  inputTokens : option Z;
  outputTokens : option Z;
  totalTokens : option Z;
  followUpRequest : bool
}.

(** A result after [{...result, tokenUsage}]: the object with the
    properties copied from the parsed value, and the token usage put
    beside them ([tokenUsage] is read from there only). *)
Record Analysis := {
  body : json;
  tokenUsage : option TokenUsage
}.

Fixpoint codeUnits (s : string) : list ascii :=
  match s with
  | EmptyString => []
  | String c rest => c :: codeUnits rest
  end.

(** The own enumerable properties of a value, which [{...v}] copies: the
    properties of an object, the elements of an array and the code units
    of a string under their indices, none for the other values. *)
Definition ownProperties (v : json) : list (string * json) :=
  match v with
  | JObj fields => fields
  | JArr items => imap (λ i item, (pretty i, item)) items
  | JStr s => imap (λ i c, (pretty i, JStr (String c ""))) (codeUnits s)
  | JNull | JBool _ | JNum _ => []
  end.

(** ** The language model *)

Inductive PromptKind :=
  | Headers      (* createBatchAnalysisPrompt *)
  | Snippets.    (* createSnippetAnalysisPrompt *)

Record LlmCall := {
  kind : PromptKind;
  batch : list EmailData;
  callMode : string;
  max_tokens : Z
}.

(** What [await this.claudeClient.send(command)] and the reading of its
    body give: the text with the token counts of [usage] (0 when absent),
    or an exception. *)
Inductive LlmOutcome :=
  | Responded (text : string) (input_tokens output_tokens : Z)
  | Failed.

(** The model: its answer to the n-th call, and the calls made so far. *)
Record Llm := {
  answer : nat → LlmCall → LlmOutcome;
  calls : list LlmCall
}.

Definition send (c : LlmCall) (w : Llm) : LlmOutcome * Llm :=
  (answer w (length (calls w)) c,
   {| answer := answer w; calls := calls w ++ [c] |}).

(** ** Parsing the answer *)

Definition newline : string := String (ascii_of_nat 10) "".

(** The length of what [/```json\n?|\n?```/] matches at the start of [s]. *)
Definition matchFence (s : string) : option nat :=
  if startsWith s "```json" then
    Some (if startsWith s ("```json" +:+ newline) then 8%nat else 7%nat)
  else if startsWith s (newline +:+ "```") then Some 4%nat
  else if startsWith s "```" then Some 3%nat
  else None.

(** [s.replace(/```json\n?|\n?```/g, '')], with [skip] characters of a
    match still to drop. *)
Fixpoint replaceFences (skip : nat) (s : string) : string :=
  match s with
  | EmptyString => EmptyString
  | String c rest =>
      match skip with
      | S k => replaceFences k rest
      | O =>
          match matchFence s with
          | Some (S k) => replaceFences k rest
          | _ => String c (replaceFences 0 rest)
          end
      end
  end.

(** White space and line terminators among the code units below 256. *)
Definition isWhiteSpace (c : ascii) : bool :=
  let n := nat_of_ascii c in
  bool_decide (9 ≤ n ≤ 13)%nat || bool_decide (n = 32)%nat ||
  bool_decide (n = 160)%nat.

Fixpoint trimStart (s : string) : string :=
  match s with
  | EmptyString => EmptyString
  | String c rest => if isWhiteSpace c then trimStart rest else s
  end.

(** [s.trim()] *)
Definition trim (s : string) : string :=
  String.rev (trimStart (String.rev (trimStart s))).

(** [getDefaultAnalysis()]: conservative default when AI analysis fails *)
Definition getDefaultAnalysis : json :=
  JObj [("category", JStr "unknown");
        ("priority", JStr "low");
        ("cleanupRecommendation", JStr "keep");
        ("reasoning",
         JStr "Analysis failed - keeping for safety until manual review");
        ("spaceImpact", JStr "low");
        ("confidence", JStr "low")].

(** [r.id === n]; [None] when reading [r.id] throws ([r] is [null]). *)
Definition hasId (n : nat) (r : json) : option bool :=
  match r with
  | JNull => None
  | JObj fields =>
      Some (match assoc "id" fields with
            | Some (JNum q) => Qeq_bool q (inject_Z (Z.of_nat n))
            | _ => false
            end)
  | _ => Some false
  end.

(** [parsed.find(r => r.id === n)]; the outer [None] is an exception. *)
Fixpoint findById (n : nat) (parsed : list json) : option (option json) :=
  match parsed with
  | [] => Some None
  | r :: rest =>
      match hasId n r with
      | None => None
      | Some true => Some (Some r)
      | Some false => findById n rest
      end
  end.

(** [const { id, ...cleanResult } = result] *)
Definition cleanResult (result : json) : json :=
  JObj (without "id" (ownProperties result)).

(** One turn of the loop of [parseBatchAnalysisResult]: what is pushed
    for position [i], or [None] when the turn throws. *)
Definition resultAt (parsed : list json) (i : nat) : option json :=
  found ← findById (S i) parsed;
  let result :=
    match found with
    | Some r => Some r
    | None => parsed !! i
    end in
  Some (match result with
        | Some r => if truthy r then cleanResult r else getDefaultAnalysis
        | None => getDefaultAnalysis
        end).

Section Parse.
(** [JSON.parse]; [None] when it throws. *)
Variable JSON_parse : string → option json.

(** The [try] block of [parseBatchAnalysisResult]. *)
Definition parseBatchTry (response : string) (expectedCount : nat)
  : option (list json) :=
  let cleanResponse := trim (replaceFences 0 response) in
  parsed ← JSON_parse cleanResponse;
  match parsed with
  | JArr items =>
      (* Map results back to expected format, handling missing or extra results *)
      mapM (resultAt items) (seq 0 expectedCount)
  | _ =>
      (* Single result returned, replicate for all emails *)
      Some (replicate expectedCount parsed)
  end.

(** [parseBatchAnalysisResult(response, expectedCount)];
    [expectedCount] is the length of an array at every call. *)
Definition parseBatchAnalysisResult (response : string)
    (expectedCount : nat) : list json :=
  match parseBatchTry response expectedCount with
  | Some results => results
  | None =>
      (* Return default analysis for all emails *)
      replicate expectedCount getDefaultAnalysis
  end.

(** ** Calling the model *)

(** [Math.round(a / n)] for a positive [n]: the nearest integer, a half
    rounded up. *)
Definition Math_round_div (a n : Z) : Z := (2 * a + n) / (2 * n).

(** The body shared by [analyzeBatchEmailsWithClaude] and
    [analyzeEmailsWithSnippets], which differ in the prompt and in
    [max_tokens]. *)
Definition analyzeWith (k : PromptKind) (cap perEmail : Z)
    (emails : list EmailData) (mode : string) (w : Llm)
  : list Analysis * Llm :=
  let n := length emails in
  let '(outcome, w') :=
    send {| kind := k; batch := emails; callMode := mode;
            max_tokens := Z.min cap (Z.of_nat n * perEmail) |} w in
  (match outcome with
   | Responded claudeResponse input_tokens output_tokens =>
       let parsedResults := parseBatchAnalysisResult claudeResponse n in
       (* Distribute token usage across all results *)
       let tokenUsagePerEmail :=
         {| inputTokens := Some (Math_round_div input_tokens (Z.of_nat n));
            outputTokens := Some (Math_round_div output_tokens (Z.of_nat n));
            totalTokens :=
              Some (Math_round_div (input_tokens + output_tokens) (Z.of_nat n));
            followUpRequest := false |} in
       map (λ result, {| body := JObj (ownProperties result);
                         tokenUsage := Some tokenUsagePerEmail |})
         parsedResults
   | Failed =>
       (* Return default analysis for all emails *)
       map (λ _, {| body := getDefaultAnalysis; tokenUsage := None |}) emails
   end, w').

Definition analyzeBatchEmailsWithClaude :=
  analyzeWith Headers 4000 100.

Definition analyzeEmailsWithSnippets :=
  analyzeWith Snippets 6000 150.

(** [result.confidence === 'low'] *)
Definition lowConfidence (result : Analysis) : bool :=
  isString "low" (getField "confidence" (body result)).

(** The entries [{ email: emails[index], index, initialResult }] pushed by
    the [forEach] over [initialResults]; [emails[index]] is defined as
    both lists have the same length. *)
Definition lowConfidenceEmails (emails : list EmailData)
    (initialResults : list Analysis) : list (nat * EmailData) :=
  omap (λ '(index, result),
          if lowConfidence result
          then (λ email, (index, email)) <$> emails !! index
          else None)
       (imap pair initialResults).

(** [{ ...enhancedResult, tokenUsage: { ...enhancedResult.tokenUsage,
       followUpRequest: true } }] *)
Definition markFollowUp (enhancedResult : Analysis) : Analysis :=
  {| body := body enhancedResult;
     tokenUsage :=
       Some match tokenUsage enhancedResult with
            | Some u =>
                {| inputTokens := inputTokens u;
                   outputTokens := outputTokens u;
                   totalTokens := totalTokens u;
                   followUpRequest := true |}
            | None =>
                {| inputTokens := None; outputTokens := None;
                   totalTokens := None; followUpRequest := true |}
            end |}.

(** The [forEach] over [enhancedResults] that replaces low-confidence
    results; an index past the end of [lowConfidenceEmails] would throw
    and does not occur, the two lists having the same length. *)
Definition splice (low : list (nat * EmailData))
    (enhancedResults finalResults : list Analysis) : list Analysis :=
  foldl (λ final '(i, enhancedResult),
           match low !! i with
           | Some (originalIndex, _) =>
               <[originalIndex := markFollowUp enhancedResult]> final
           | None => final
           end)
        finalResults (imap pair enhancedResults).

(** [analyzeEmailsProgressively(emails, mode)] *)
Definition analyzeEmailsProgressively (emails : list EmailData)
    (mode : string) (w : Llm) : list Analysis * Llm :=
  (* Phase 1: Initial analysis with headers only *)
  let '(initialResults, w1) := analyzeBatchEmailsWithClaude emails mode w in
  (* Identify low-confidence emails that need more context *)
  let low := lowConfidenceEmails emails initialResults in
  let finalResults := initialResults in
  if bool_decide (length low = 0%nat) then (finalResults, w1)
  else
    (* Phase 2: Re-analyze low-confidence emails with snippets *)
    let followUpBatch := map snd low in
    let '(enhancedResults, w2) :=
      analyzeEmailsWithSnippets followUpBatch mode w1 in
    (* Replace low-confidence results with enhanced analysis *)
    (splice low enhancedResults finalResults, w2).

(** ** Token accounting *)

(** The running totals of [runHybridCleanupAnalysis]; a sum that has
    become [NaN] is [None]. *)
Record TotalTokenUsage := {
  sumInputTokens : option Z;
  sumOutputTokens : option Z;
  sumTotalTokens : option Z;
  requestCount : Z
}.

(** [total += perEmail * count], where an [undefined] share gives [NaN]. *)
Definition addShare (total perEmail : option Z) (count : nat) : option Z :=
  match total, perEmail with
  | Some t, Some x => Some (t + x * Z.of_nat count)
  | _, _ => None
  end.

(** "Aggregate token usage from batch" *)
Definition aggregateBatchUsage (batchResults : list Analysis)
    (totalTokenUsage : TotalTokenUsage) : TotalTokenUsage :=
  match batchResults with
  | first :: _ =>
      match tokenUsage first with
      | Some batchTokenUsage =>
          (* Multiply by batch size since we distributed tokens across emails *)
          {| sumInputTokens :=
               addShare (sumInputTokens totalTokenUsage)
                 (inputTokens batchTokenUsage) (length batchResults);
             sumOutputTokens :=
               addShare (sumOutputTokens totalTokenUsage)
                 (outputTokens batchTokenUsage) (length batchResults);
             sumTotalTokens :=
               addShare (sumTotalTokens totalTokenUsage)
                 (totalTokens batchTokenUsage) (length batchResults);
             requestCount := requestCount totalTokenUsage + 1 |}
      | None => totalTokenUsage
      end
  | [] => totalTokenUsage
  end.

(** One batch of the AI batch loop, up to the aggregation of its usage. *)
Definition analyzeBatch (mode : string) (emailDataBatch : list EmailData)
    (totalTokenUsage : TotalTokenUsage) (w : Llm)
  : list Analysis * TotalTokenUsage * Llm :=
  let '(batchResults, w') :=
    if bool_decide (mode = "auto")
    then analyzeEmailsProgressively emailDataBatch mode w
    else analyzeBatchEmailsWithClaude emailDataBatch mode w in
  (batchResults, aggregateBatchUsage batchResults totalTokenUsage, w').

End Parse.

End Analyzer.

(* ===================================================================== *)
(** * The report ([GmailAnalyzer.generateReport], analyze route) *)
(* ===================================================================== *)

Module Report.
Import Js Analyzer.

Record AnalysisConfig := {
  filterType : string;
  query : string;
  description : string;
  limit : Z;
  mode : string;
  analysisType : option string
}.

(** An element of [analyses]: [{ emailId, ...analysis, originalEmail }]. *)
Record AnalysisEntry := {
  emailId : string;
  analysis : Analysis;
  originalEmail : EmailData
}.

(** [entry.cleanupRecommendation], [entry.category], ... *)
Definition prop (key : string) (entry : AnalysisEntry) : option json :=
  getField key (body (analysis entry)).

Record Candidate := {
  cand_id : string;
  cand_subject : string;
  cand_from : string;
  cand_date : string;
  cand_size : Z;
  cand_category : option json;
  cand_reasoning : option json;
  cand_confidence : option json
}.

Record Sender := {
  senderEmail : string;
  senderName : string;
  count : Z;
  totalSize : Z;
  category : option json
}.

Record Summary := {
  totalEmails : nat;
  sum_deletionCandidates : nat;
  sum_keepCandidates : nat;
  sum_newsletterSenders : nat;
  sum_totalSize : Z;
  sum_potentialSavings : Z
}.

Record CleanupReport := {
  summary : Summary;
  deletionCandidates : list Candidate;
  keepCandidates : list Candidate;
  newsletterSenders : list Sender;
  config : AnalysisConfig;
  tokenUsage : option TotalTokenUsage
}.

(** [l.sort(cmp)]: a stable sort; [x] comes before [y] when
    [cmp x y <= 0]. *)
Fixpoint insertSorted {A} (cmp : A → A → Z) (x : A) (l : list A) : list A :=
  match l with
  | [] => [x]
  | y :: l' =>
      if bool_decide (cmp x y ≤ 0) then x :: y :: l'
      else y :: insertSorted cmp x l'
  end.

Definition sort {A} (cmp : A → A → Z) (l : list A) : list A :=
  foldr (insertSorted cmp) [] l.

Section GenerateReport.
(** Two helpers of the class that take the address and the name out of a
    From header by regular expressions, and [new Date(s).getTime()]
    ([None] for [NaN]). *)
Variable extractSenderEmail : string → string.
Variable extractSenderName : string → string.
Variable getTime : string → option Z.

Definition candidateOf (entry : AnalysisEntry) : Candidate :=
  let email := originalEmail entry in
  {| cand_id := id email;
     cand_subject := subject email;
     cand_from := from email;
     cand_date := date email;
     cand_size := size email;
     cand_category := prop "category" entry;
     cand_reasoning := prop "reasoning" entry;
     cand_confidence := prop "confidence" entry |}.

(** The locals of [generateReport] that its [forEach] updates. *)
Record Acc := {
  acc_deletionCandidates : list Candidate;
  acc_keepCandidates : list Candidate;
  acc_newsletterSenders : list Sender;   (* the Map, in insertion order *)
  acc_totalSize : Z;
  acc_potentialSavings : Z
}.

(** [newsletterSenders.has(senderEmail) ? update : set] *)
Fixpoint trackSender (key name : string) (size : Z) (category : option json)
    (senders : list Sender) : list Sender :=
  match senders with
  | [] =>
      [{| senderEmail := key; senderName := name; count := 1;
          totalSize := size; category := category |}]
  | existing :: rest =>
      if decide (senderEmail existing = key) then
        {| senderEmail := senderEmail existing;
           senderName := senderName existing;
           count := count existing + 1;
           totalSize := totalSize existing + size;
           category := Report.category existing |} :: rest
      else existing :: trackSender key name size category rest
  end.

(** The body of [analyses.forEach(analysis => ...)]. *)
Definition visit (acc : Acc) (entry : AnalysisEntry) : Acc :=
  let email := originalEmail entry in
  let recommendation := prop "cleanupRecommendation" entry in
  let isDeletion :=
    isString "delete" recommendation || isString "archive" recommendation in
  {| acc_deletionCandidates :=
       (* Include both delete and archive recommendations as deletion candidates *)
       if isDeletion
       then acc_deletionCandidates acc ++ [candidateOf entry]
       else acc_deletionCandidates acc;
     acc_keepCandidates :=
       if isDeletion then acc_keepCandidates acc
       else if isString "keep" recommendation
       then acc_keepCandidates acc ++ [candidateOf entry]
       else acc_keepCandidates acc;
     acc_newsletterSenders :=
       (* Track newsletter senders *)
       if isString "newsletter" (prop "category" entry) ||
          isString "promotional" (prop "category" entry)
       then trackSender (extractSenderEmail (from email))
              (extractSenderName (from email)) (size email)
              (prop "category" entry) (acc_newsletterSenders acc)
       else acc_newsletterSenders acc;
     acc_totalSize := acc_totalSize acc + size email;
     acc_potentialSavings :=
       if isDeletion then acc_potentialSavings acc + size email
       else acc_potentialSavings acc |}.

(** [new Date(b.date).getTime() - new Date(a.date).getTime()]; a [NaN]
    counts as 0 in a comparison function. *)
Definition newestFirst (a b : Candidate) : Z :=
  match getTime (cand_date b), getTime (cand_date a) with
  | Some tb, Some ta => tb - ta
  | _, _ => 0
  end.

(** [generateReport(analyses, config, tokenUsage)]; [createdAt] is left
    out. *)
Definition generateReport (analyses : list AnalysisEntry)
    (config : AnalysisConfig) (tokenUsage : option TotalTokenUsage)
  : CleanupReport :=
  let acc :=
    foldl visit
      {| acc_deletionCandidates := []; acc_keepCandidates := [];
         acc_newsletterSenders := []; acc_totalSize := 0;
         acc_potentialSavings := 0 |} analyses in
  (* Sort by date (newest first) instead of size *)
  let deletionCandidates := sort newestFirst (acc_deletionCandidates acc) in
  let keepCandidates := sort newestFirst (acc_keepCandidates acc) in
  {| summary :=
       {| totalEmails := length analyses;
          sum_deletionCandidates := length deletionCandidates;
          sum_keepCandidates := length keepCandidates;
          sum_newsletterSenders := length (acc_newsletterSenders acc);
          sum_totalSize := acc_totalSize acc;
          sum_potentialSavings := acc_potentialSavings acc |};
     deletionCandidates := deletionCandidates;
     keepCandidates := keepCandidates;
     newsletterSenders :=
       sort (λ a b, count b - count a) (acc_newsletterSenders acc);
     config := config;
     tokenUsage := tokenUsage |}.

End GenerateReport.

End Report.

(* ===================================================================== *)
(** * Message payloads ([hasAttachments], [getAttachmentInfo],
      [getAttachmentSizes]; both routes) *)
(* ===================================================================== *)

Module MessageParts.

(** A part of a message payload as the mail API returns it.  A property
    that is absent is [None]; [body] is [part.body] with its [size], an
    integer (below 10^21, so that [parseInt] reads it back). *)
#[local] Unset Elimination Schemes.
Inductive MessagePart :=
  Part (filename : option string) (mimeType : option string)
       (body : option (option Z)) (parts : option (list MessagePart)).
#[local] Set Elimination Schemes.

Definition filename (part : MessagePart) : option string :=
  let 'Part filename _ _ _ := part in filename.
Definition mimeType (part : MessagePart) : option string :=
  let 'Part _ mimeType _ _ := part in mimeType.
Definition body (part : MessagePart) : option (option Z) :=
  let 'Part _ _ body _ := part in body.
Definition parts (part : MessagePart) : option (list MessagePart) :=
  let 'Part _ _ _ parts := part in parts.

(** [part.filename && part.filename.length > 0] *)
Definition named (part : MessagePart) : option string :=
  match filename part with
  | Some name => if bool_decide (name = "") then None else Some name
  | None => None
  end.

(** [GmailAnalyzer.hasAttachments(payload)].  The recursive call is on
    [{ parts: part.parts }], of which only [parts] is read; it is made on
    [part] itself here, and answers [false] when [part.parts] is absent. *)
Fixpoint hasAttachments (payload : MessagePart) : bool :=
  match payload with
  | Part _ _ _ (Some parts) =>
      existsb (λ part, bool_decide (is_Some (named part)) || hasAttachments part)
        parts
  | Part _ _ _ None => false
  end.

(** An entry pushed by [getAttachmentInfo]. *)
Record AttachmentInfo := {
  info_filename : string;
  info_mimeType : option string;
  info_size : Z
}.

(** [parseInt(part.body?.size) || 0] *)
Definition sizeOrZero (body : option (option Z)) : Z :=
  match body with
  | Some (Some size) => size
  | _ => 0
  end.

(** What [extractAttachments] pushes while it visits [part]: the part
    itself when it is named, then the parts below it. *)
Fixpoint attachmentsOf (part : MessagePart) : list AttachmentInfo :=
  match part with
  | Part _ mimeType body parts =>
      match named part with
      | Some name =>
          [{| info_filename := name; info_mimeType := mimeType;
              info_size := sizeOrZero body |}]
      | None => []
      end ++
      match parts with
      | Some parts => flat_map attachmentsOf parts
      | None => []
      end
  end.

(** [extractAttachments(parts)] of [getAttachmentInfo] *)
Definition extractAttachments (parts : option (list MessagePart))
  : list AttachmentInfo :=
  match parts with
  | Some parts => flat_map attachmentsOf parts
  | None => []          (* if (!parts) return *)
  end.

(** [EmailSyncer.getAttachmentInfo(payload)]; [payload] may be absent. *)
Definition getAttachmentInfo (payload : option MessagePart)
  : list AttachmentInfo :=
  extractAttachments (payload ≫= parts).

(** [EmailSyncer.hasAttachments(payload)], which reads [payload?.parts]. *)
Definition syncHasAttachments (payload : option MessagePart) : bool :=
  match payload with
  | Some payload => hasAttachments payload
  | None => false
  end.

(** What [extractSizes] pushes while it visits [part]; [None] when it
    throws: reading [part.body.size] of a named part without a body. *)
Fixpoint sizesOf (part : MessagePart) : option (list (string * Z)) :=
  match part with
  | Part _ _ body parts =>
      own ← match named part with
            | Some name =>
                match body with
                | Some (Some size) =>
                    Some (if bool_decide (size = 0) then [] else [(name, size)])
                | Some None => Some []
                | None => None
                end
            | None => Some []
            end;
      below ← match parts with
              | Some parts => (λ lists, concat lists) <$> mapM sizesOf parts
              | None => Some []
              end;
      Some (own ++ below)
  end.

(** [GmailAnalyzer.getAttachmentSizes(payload)] *)
Definition getAttachmentSizes (payload : MessagePart)
  : option (list (string * Z)) :=
  match parts payload with
  | Some parts => (λ lists, concat lists) <$> mapM sizesOf parts
  | None => Some []
  end.

End MessageParts.

(* ===================================================================== *)
(** * Reading a From header ([extractSenderEmail], [extractSenderName];
      both routes) *)
(* ===================================================================== *)

Module SenderFields.
Import Js Analyzer.

(** The text before the first [c] in [s], and the text after it. *)
Fixpoint splitAt (c : ascii) (s : string) : option (string * string) :=
  match s with
  | EmptyString => None
  | String d rest =>
      if bool_decide (d = c) then Some (EmptyString, rest)
      else (λ '(before, after), (String d before, after)) <$> splitAt c rest
  end.

(** [s.match(/<([^>]+)>/)]: group 1 of the leftmost match.  At a "<" the
    group takes the text up to the next ">", which must exist and not
    follow at once. *)
Fixpoint matchBracketed (s : string) : option string :=
  match s with
  | EmptyString => None
  | String c rest =>
      if bool_decide (c = "<"%char) then
        match splitAt ">" rest with
        | Some (String a inner, _) => Some (String a inner)
        | _ => matchBracketed rest
        end
      else matchBracketed rest
  end.

(** The class [[^\s<>]], on the code units below 256. *)
Definition addressChar (c : ascii) : bool :=
  negb (isWhiteSpace c) && negb (bool_decide (c = "<"%char)) &&
  negb (bool_decide (c = ">"%char)).

(** The longest prefix of [s] made of [[^\s<>]]. *)
Fixpoint addressRun (s : string) : string :=
  match s with
  | EmptyString => EmptyString
  | String c rest => if addressChar c then String c (addressRun rest) else EmptyString
  end.

(** [r] holds an "@" that is not its last character. *)
Fixpoint atBeforeEnd (r : string) : bool :=
  match r with
  | String c (String _ _ as rest) => bool_decide (c = "@"%char) || atBeforeEnd rest
  | _ => false
  end.

(** [s.match(/([^\s<>]+@[^\s<>]+)/)]: group 1 of the leftmost match.  A
    match at a position is the whole run of [[^\s<>]] from there, which
    must hold an "@" after its first and before its last character. *)
Fixpoint matchAddress (s : string) : option string :=
  match s with
  | EmptyString => None
  | String c rest =>
      if addressChar c && atBeforeEnd (addressRun rest)
      then Some (String c (addressRun rest))
      else matchAddress rest
  end.

(** [a || b] on the results of two matches *)
Definition orMatch (a b : option string) : option string :=
  match a with
  | Some m => Some m
  | None => b
  end.

(** [s.match(/^([^c]+)c/)]: the text before the first [c], not empty. *)
Definition matchBefore (c : ascii) (s : string) : option string :=
  match splitAt c s with
  | Some (String a before, _) => Some (String a before)
  | _ => None
  end.

(** [s.replace(q, '')], where [q] is the global pattern that matches a
    double quote (code unit 34) *)
Fixpoint removeQuotes (s : string) : string :=
  match s with
  | EmptyString => EmptyString
  | String c rest =>
      if bool_decide (c = ascii_of_nat 34) then removeQuotes rest
      else String c (removeQuotes rest)
  end.

Section Extract.
Variable toLowerCase : string → string.

(** [extractSenderEmail(fromField)], the same in both routes *)
Definition extractSenderEmail (fromField : string) : string :=
  match orMatch (matchBracketed fromField) (matchAddress fromField) with
  | Some group => toLowerCase group
  | None => toLowerCase fromField
  end.

(** [extractSenderName(fromField)], the same in both routes *)
Definition extractSenderName (fromField : string) : string :=
  match orMatch (matchBefore "<" fromField) (matchBefore "@" fromField) with
  | Some group => removeQuotes (trim group)
  | None =>
      (* fromField.split('@')[0] *)
      match splitAt "@" fromField with
      | Some (before, _) => before
      | None => fromField
      end
  end.

End Extract.

(** The From header that [convertDbEmailToEmailData] composes:
    [`${dbEmail.senderName} <${dbEmail.senderEmail}>`] *)
Definition composedFrom (senderName senderEmail : string) : string :=
  senderName +:+ " <" +:+ senderEmail +:+ ">".

End SenderFields.

(* ===================================================================== *)
(** * Classifying without the model ([GmailAnalyzer], analyze route) *)
(* ===================================================================== *)

Module Prefilter.
Import Js Analyzer.

(** [extractTimeRangeFromQuery(query)] *)
Definition extractTimeRangeFromQuery (query : string) : string :=
  if bool_decide (query = "") then "all"
  else if includes query "newer_than:7d" then "7d"
  else if includes query "newer_than:30d" then "30d"
  else if includes query "newer_than:3m" then "3m"
  else if includes query "newer_than:6m" then "6m"
  else if includes query "newer_than:1y" then "1y"
  else "all".

Section Local.
Variable toLowerCase : string → string.

(** [canClassifyWithoutAI(email)], which reads [email.subject] and
    [email.senderEmail] *)
Definition canClassifyWithoutAI (subject senderEmail : string) : bool :=
  let subject := toLowerCase subject in
  let senderEmail := toLowerCase senderEmail in
  (* Obvious newsletters (explicit marketing) *)
  (includes subject "newsletter" && includes subject "unsubscribe") ||
  includes senderEmail "newsletter" ||
  includes senderEmail "marketing" ||
  (* Very clear promotional emails *)
  (includes subject "sale" && includes subject "% off") ||
  includes subject "limited time offer" ||
  includes subject "expires today".

Definition localVerdict (category recommendation reasoning : string) : json :=
  JObj [("category", JStr category);
        ("cleanupRecommendation", JStr recommendation);
        ("reasoning", JStr reasoning)].

(** [getLocalAnalysis(email)] *)
Definition getLocalAnalysis (subject senderEmail : string) : json :=
  let subject := toLowerCase subject in
  let senderEmail := toLowerCase senderEmail in
  (* Explicit newsletter with unsubscribe -> delete *)
  if (includes subject "newsletter" && includes subject "unsubscribe") ||
     includes senderEmail "newsletter"
  then localVerdict "newsletter" "delete"
         "Explicit newsletter with unsubscribe link - safe to delete"
  (* Very obvious promotional -> delete *)
  else if (includes subject "sale" && includes subject "% off") ||
          includes subject "limited time offer"
  then localVerdict "promotional" "delete"
         "Clear promotional offer - likely expired"
  (* Marketing emails -> delete *)
  else if includes senderEmail "marketing"
  then localVerdict "promotional" "delete"
         "From marketing sender - promotional content"
  (* Default - should not reach here often with updated canClassifyWithoutAI *)
  else localVerdict "unknown" "keep"
         "Unclear classification - keeping for safety".

End Local.
End Prefilter.

(* ===================================================================== *)
(** * The hybrid analysis ([GmailAnalyzer.runHybridCleanupAnalysis]) *)
(* ===================================================================== *)

Module Hybrid.
Import Js Analyzer Report SenderFields Prefilter.

(** A stored message as [getEmailsByUser] returns it: its [gmailId] and
    the other columns. *)
Definition DbEmail : Type := string * Database.EmailRow.

(** [analysis.cleanupRecommendation.toUpperCase()] is evaluated before an
    entry is pushed; it throws unless the property holds a string. *)
Definition recommendationText (analysis : Analysis) : option string :=
  match getField "cleanupRecommendation" (body analysis) with
  | Some (JStr text) => Some text
  | _ => None
  end.

(** [total += tokens], where an [undefined] gives [NaN] *)
Definition addTokens (total tokens : option Z) : option Z :=
  match total, tokens with
  | Some t, Some x => Some (t + x)
  | _, _ => None
  end.

(** The update of the totals in the fallback loop. *)
Definition addRequest (totalTokenUsage : TotalTokenUsage) (u : TokenUsage)
  : TotalTokenUsage :=
  {| sumInputTokens := addTokens (sumInputTokens totalTokenUsage) (inputTokens u);
     sumOutputTokens := addTokens (sumOutputTokens totalTokenUsage) (outputTokens u);
     sumTotalTokens := addTokens (sumTotalTokens totalTokenUsage) (totalTokens u);
     requestCount := requestCount totalTokenUsage + 1 |}.

(** [let totalTokenUsage = { inputTokens: 0, ... }] *)
Definition zeroUsage : TotalTokenUsage :=
  {| sumInputTokens := Some 0; sumOutputTokens := Some 0;
     sumTotalTokens := Some 0; requestCount := 0 |}.

(** [aiAnalyses], [totalTokenUsage] and the model. *)
Definition State : Type := list AnalysisEntry * TotalTokenUsage * Llm.

Section Run.
Variable JSON_parse : string → option json.
Variable toLowerCase : string → string.
Variable getTime : string → option Z.
(** [convertDbEmailToEmailData(dbEmail)].  Its result is only passed on,
    to the model and into the entry.  (The JSON texts it parses are those
    [createOrUpdateEmails] wrote, so that it does not throw.) *)
Variable convertDbEmailToEmailData : DbEmail → EmailData.

(** [analyzeEmailWithClaude(email, mode)]: [batchResults[0]] *)
Definition analyzeEmailWithClaude (email : EmailData) (mode : string)
    (w : Llm) : option Analysis * Llm :=
  let '(batchResults, w') :=
    analyzeBatchEmailsWithClaude JSON_parse [email] mode w in
  (head batchResults, w').

(** [{ emailId: email.gmailId, ...analysis, originalEmail }] *)
Definition entryOf (email : DbEmail) (analysis : Analysis) : AnalysisEntry :=
  {| emailId := email.1; analysis := analysis;
     originalEmail := convertDbEmailToEmailData email |}.

(** "Process batch results": the [forEach] over [batch] from position
    [index] on; whether it threw, and [aiAnalyses] at that point.
    ([emailDataBatch[index]] is the converted [batch[index]].) *)
Fixpoint collect (batch : list DbEmail) (batchResults : list Analysis)
    (index : nat) (aiAnalyses : list AnalysisEntry)
  : bool * list AnalysisEntry :=
  match batch with
  | [] => (false, aiAnalyses)
  | email :: rest =>
      match batchResults !! index with
      | Some analysis =>
          match recommendationText analysis with
          | Some _ =>
              collect rest batchResults (S index)
                (aiAnalyses ++ [entryOf email analysis])
          | None => (true, aiAnalyses)
          end
      | None => collect rest batchResults (S index) aiAnalyses
      end
  end.

(** "Fallback to individual analysis for this batch" *)
Fixpoint fallback (mode : string) (batch : list DbEmail) (st : State)
  : State :=
  match batch with
  | [] => st
  | email :: rest =>
      let '(aiAnalyses, totalTokenUsage, w) := st in
      let emailData := convertDbEmailToEmailData email in
      let '(analysis, w') := analyzeEmailWithClaude emailData mode w in
      match analysis with
      | Some analysis =>
          let totalTokenUsage :=
            match Analyzer.tokenUsage analysis with
            | Some u => addRequest totalTokenUsage u
            | None => totalTokenUsage
            end in
          fallback mode rest
            (aiAnalyses ++ [entryOf email analysis], totalTokenUsage, w')
      | None =>
          (* reading analysis.tokenUsage throws; the email is given up *)
          fallback mode rest (aiAnalyses, totalTokenUsage, w')
      end
  end.

(** One turn of the loop over the batches of [needsAI]. *)
Definition hybridBatch (mode : string) (st : State) (batch : list DbEmail)
  : State :=
  let '(aiAnalyses, totalTokenUsage, w) := st in
  (* Convert batch to EmailData format *)
  let emailDataBatch := map convertDbEmailToEmailData batch in
  let '(batchResults, totalTokenUsage, w) :=
    analyzeBatch JSON_parse mode emailDataBatch totalTokenUsage w in
  match collect batch batchResults 0 aiAnalyses with
  | (false, aiAnalyses) => (aiAnalyses, totalTokenUsage, w)
  | (true, aiAnalyses) => fallback mode batch (aiAnalyses, totalTokenUsage, w)
  end.

Definition canClassify (email : DbEmail) : bool :=
  canClassifyWithoutAI toLowerCase (Database.row_subject email.2)
    (Database.row_senderEmail email.2).

(** The entry of a message that is classified without the model. *)
Definition localEntry (email : DbEmail) : AnalysisEntry :=
  entryOf email
    {| body := getLocalAnalysis toLowerCase (Database.row_subject email.2)
                 (Database.row_senderEmail email.2);
       Analyzer.tokenUsage := None |}.

(** [allAnalyses] of [runHybridCleanupAnalysis], with the totals and the
    model, for the stored messages [emails] that the query returned. *)
Definition hybridAnalyses (mode : string) (emails : list DbEmail) (w : Llm)
  : State :=
  let preClassified := localEntry <$> filter (λ e, canClassify e = true) emails in
  let needsAI := filter (λ e, canClassify e = false) emails in
  let '(aiAnalyses, totalTokenUsage, w') :=
    foldl (hybridBatch mode) ([], zeroUsage, w) (slices 15 needsAI) in
  (preClassified ++ aiAnalyses, totalTokenUsage, w').


End Run.
End Hybrid.

(* ===================================================================== *)
(** * Stored reports ([cleanupReportsAfterDeletion] of [lib/database.ts]) *)
(* ===================================================================== *)

Module ReportTables.

(** A row of [reports]: its owner and the columns of the summary.  The
    columns left out (description, mode, limit, token counts, time
    stamps) are neither read nor written here. *)
Record ReportRow := {
  rep_userEmail : string;
  rep_totalEmails : Z;
  rep_deletionCandidates : Z;
  rep_keepCandidates : Z;
  rep_newsletterSenders : Z;
  rep_totalSize : Z;
  rep_potentialSavings : Z
}.

(** A row of [email_candidates]. *)
Record EmailCandidateRow := {
  ec_id : string;
  ec_reportId : string;
  ec_emailId : string;
  ec_size : Z;
  ec_recommendationType : string
}.

(** A row of [newsletter_senders]. *)
Record NewsletterSenderRow := {
  ns_id : string;
  ns_reportId : string;
  ns_senderEmail : string;
  ns_count : Z
}.

(** The three tables: the reports by their [id], the other rows in the
    order in which a query returns them. *)
Record Tables := {
  reports : gmap string ReportRow;
  emailCandidates : list EmailCandidateRow;
  newsletterSenders : list NewsletterSenderRow
}.

(** A [Map] with string keys, in the order of insertion. *)
Fixpoint mapGet {V} (key : string) (m : list (string * V)) : option V :=
  match m with
  | [] => None
  | (k, v) :: rest => if decide (k = key) then Some v else mapGet key rest
  end.

Fixpoint mapSet {V} (key : string) (value : V) (m : list (string * V))
  : list (string * V) :=
  match m with
  | [] => [(key, value)]
  | (k, v) :: rest =>
      if decide (k = key) then (key, value) :: rest
      else (k, v) :: mapSet key value rest
  end.

(** [where: { emailId: { in: deletedGmailIds }, report: { userEmail } }] *)
Definition toDelete (userEmail : string) (deletedGmailIds : list string)
    (tables : Tables) (candidate : EmailCandidateRow) : Prop :=
  ec_emailId candidate ∈ deletedGmailIds ∧
  rep_userEmail <$> reports tables !! ec_reportId candidate = Some userEmail.

#[global] Instance toDelete_dec userEmail deletedGmailIds tables candidate :
  Decision (toDelete userEmail deletedGmailIds tables candidate).
Proof. unfold toDelete. apply _. Defined.

(** "Group by report ID to update summaries": [count] and
    [sizeReduction] for each report. *)
Definition groupByReport (deletedCandidates : list EmailCandidateRow)
  : list (string * (Z * Z)) :=
  foldl (λ reportUpdates candidate,
           let current :=
             default (0, 0) (mapGet (ec_reportId candidate) reportUpdates) in
           mapSet (ec_reportId candidate)
             (current.1 + 1, current.2 + ec_size candidate) reportUpdates)
        [] deletedCandidates.

(** [data: { deletionCandidates: report.deletionCandidates - count,
             potentialSavings: report.potentialSavings - sizeReduction }] *)
Definition reduced (report : ReportRow) (count sizeReduction : Z) : ReportRow :=
  {| rep_userEmail := rep_userEmail report;
     rep_totalEmails := rep_totalEmails report;
     rep_deletionCandidates := rep_deletionCandidates report - count;
     rep_keepCandidates := rep_keepCandidates report;
     rep_newsletterSenders := rep_newsletterSenders report;
     rep_totalSize := rep_totalSize report;
     rep_potentialSavings := rep_potentialSavings report - sizeReduction |}.

(** [report._count.emailCandidates] *)
Definition candidateCount (reportId : string) (tables : Tables) : nat :=
  length (filter (λ c, ec_reportId c = reportId) (emailCandidates tables)).

(** "Update each affected report": one turn of the loop over
    [reportUpdates], with [updatedReports] and [deletedReports].
    Deleting a report deletes the rows that refer to it
    ([ON DELETE CASCADE]). *)
Definition updateReport (st : Tables * nat * nat)
    (entry : string * (Z * Z)) : Tables * nat * nat :=
  let '(tables, updatedReports, deletedReports) := st in
  let '(reportId, (count, sizeReduction)) := entry in
  match reports tables !! reportId with
  | None => st
  | Some report =>
      let remainingCandidates := candidateCount reportId tables in
      if bool_decide (remainingCandidates = 0%nat) then
        (* No candidates left, delete the entire report *)
        ({| reports := delete reportId (reports tables);
            emailCandidates :=
              filter (λ c, ec_reportId c ≠ reportId) (emailCandidates tables);
            newsletterSenders :=
              filter (λ s, ns_reportId s ≠ reportId)
                (newsletterSenders tables) |},
         updatedReports, S deletedReports)
      else
        (* Update report summary *)
        ({| reports :=
              <[reportId := reduced report count sizeReduction]>
                (reports tables);
            emailCandidates := emailCandidates tables;
            newsletterSenders := newsletterSenders tables |},
         S updatedReports, deletedReports)
  end.

(** What [cleanupReportsAfterDeletion] returns. *)
Record CleanupCounts := {
  deletedCandidates : nat;
  updatedReports : nat;
  deletedReports : nat
}.

(** [cleanupReportsAfterDeletion(userEmail, deletedGmailIds)], the
    transaction being taken to commit. *)
Definition cleanupReportsAfterDeletion (userEmail : string)
    (deletedGmailIds : list string) (tables : Tables)
  : CleanupCounts * Tables :=
  (* Find all email candidates that correspond to deleted emails *)
  let deletedCandidates :=
    filter (toDelete userEmail deletedGmailIds tables)
      (emailCandidates tables) in
  if bool_decide (length deletedCandidates = 0%nat) then
    ({| deletedCandidates := 0; updatedReports := 0; deletedReports := 0 |},
     tables)
  else
    (* Delete the email candidates *)
    let tables :=
      {| reports := reports tables;
         emailCandidates :=
           filter (λ c, ec_id c ∉ ec_id <$> deletedCandidates)
             (emailCandidates tables);
         newsletterSenders := newsletterSenders tables |} in
    let reportUpdates := groupByReport deletedCandidates in
    let '(tables, updatedReports, deletedReports) :=
      foldl updateReport (tables, 0%nat, 0%nat) reportUpdates in
    ({| deletedCandidates := length deletedCandidates;
        updatedReports := updatedReports;
        deletedReports := deletedReports |}, tables).

End ReportTables.

(* ===================================================================== *)
(** * Deleting messages ([app/api/delete-emails/route.ts]) *)
(* ===================================================================== *)

Module DeleteRoute.
Import Js Database ReportTables.

(** What a [catch] of this route receives, as far as the route looks at
    it: an [Error] with its message, or another value, with the string in
    its [message] if there is one; and the number in [code], if any. *)
Inductive Thrown :=
  | ErrorWith (message : string) (code : option Z)
  | Other (message : option string) (code : option Z).

Definition messageOf (error : Thrown) : option string :=
  match error with
  | ErrorWith message _ => Some message
  | Other message _ => message
  end.

Definition codeOf (error : Thrown) : option Z :=
  match error with
  | ErrorWith _ code => code
  | Other _ code => code
  end.

(** [error?.message?.includes('invalid authentication') ||
     error?.message?.includes('401') || error?.code === 401] *)
Definition isAuthError (error : Thrown) : bool :=
  match messageOf error with
  | Some message =>
      includes message "invalid authentication" || includes message "401"
  | None => false
  end || bool_decide (codeOf error = Some 401).

(** The session of the request, as far as it is read. *)
Record Session := {
  accessToken : option string;
  refreshToken : option string;
  accessTokenExpires : option Z;
  user_email : option string
}.

(** A string that is not [undefined] and not empty. *)
Definition truthy (s : option string) : bool :=
  match s with
  | Some (String _ _) => true
  | _ => false
  end.

Inductive Request :=
  | BatchDelete (ids : list string)
  | Trash (id : string).

(** What the route asks of the outside, in order; for a call of the mail
    API also what the call threw, if it did. *)
Inductive Event :=
  | ReadClock
  | Refresh (refreshToken : string)
  | Gmail (accessToken : option string) (request : Request)
      (thrown : option Thrown).

(** The outside: the clock, the token endpoint (the new access token, or
    none when the refresh fails) and the mail API (what the call throws,
    or none when it succeeds), each asked with the number of events so
    far; and the events so far. *)
Record Remote := {
  Date_now : nat → Z;
  tokenEndpoint : nat → string → option string;
  gmailApi : nat → option string → Request → option Thrown;
  events : list Event
}.

Definition record (event : Event) (w : Remote) : Remote :=
  {| Date_now := Date_now w; tokenEndpoint := tokenEndpoint w;
     gmailApi := gmailApi w; events := events w ++ [event] |}.

(** [refreshAccessToken(token)]: it catches what goes wrong and returns
    a token with [error] then; here, the new access token or none. *)
Definition refreshAccessToken (refreshToken : string) (w : Remote)
  : option string * Remote :=
  let refreshedTokens := tokenEndpoint w (length (events w)) refreshToken in
  let w := record (Refresh refreshToken) w in
  match refreshedTokens with
  | Some access_token =>
      (* accessTokenExpires: Date.now() + refreshedTokens.expires_in * 1000 *)
      (Some access_token, record ReadClock w)
  | None => (None, w)
  end.

(** [setupGmailClient(session)]: the access token of the client it
    returns, or what it throws. *)
Definition setupGmailClient (session : Session) (w : Remote)
  : (Thrown + option string) * Remote :=
  (* Check if token needs refresh (if it expires within 5 minutes) *)
  let tokenExpiresAt := default 0 (accessTokenExpires session) in
  let now := Date_now w (length (events w)) in
  let w := record ReadClock w in
  let shouldRefresh := bool_decide (tokenExpiresAt - 5 * 60 * 1000 ≤ now) in
  if shouldRefresh && truthy (refreshToken session) then
    let '(refreshedToken, w) :=
      refreshAccessToken (default "" (refreshToken session)) w in
    match refreshedToken with
    | None => (inl (ErrorWith "Failed to refresh access token" None), w)
    | Some accessToken => (inr (Some accessToken), w)
    end
  else (inr (accessToken session), w).

(** A call of the mail API by the client that holds [accessToken]. *)
Definition gmailCall (accessToken : option string) (request : Request)
    (w : Remote) : option Thrown * Remote :=
  let thrown := gmailApi w (length (events w)) accessToken request in
  (thrown, record (Gmail accessToken request thrown) w).

Record Failure := {
  emailId : string;
  error : string
}.

Record Results := {
  successful : list string;
  failed : list Failure
}.

(** [results.successful.push(...ids)] *)
Definition succeed (ids : list string) (results : Results) : Results :=
  {| successful := successful results ++ ids; failed := failed results |}.

(** [ids.forEach(emailId => results.failed.push({ emailId, error }))] *)
Definition failAll (error : string) (ids : list string) (results : Results)
  : Results :=
  {| successful := successful results;
     failed := failed results ++ map (λ emailId, {| emailId := emailId;
                                                    error := error |}) ids |}.

(** One turn of the fallback loop: [trash] the message. *)
Definition trashOne (accessToken : option string) (st : Results * Remote)
    (emailId : string) : Results * Remote :=
  let '(results, w) := st in
  let '(thrown, w) := gmailCall accessToken (Trash emailId) w in
  match thrown with
  | None => (succeed [emailId] results, w)
  | Some individualError =>
      (failAll
         match individualError with
         | ErrorWith message _ => message
         | Other _ _ => "Individual deletion failed"
         end [emailId] results, w)
  end.

(** The [catch] of the retry.  In its fallback loop [refreshedGmail] is
    read, which is declared in the [try] block and is not in scope here:
    reading it throws a [ReferenceError], which the [catch] inside the
    loop reports for every message.  No call is made. *)
Definition retryFailed (retryError : Thrown) (currentBatch : list string)
    (results : Results) : Results :=
  if isAuthError retryError then
    failAll
      "Authentication session expired. Please sign out and sign back in to continue."
      currentBatch results
  else
    failAll "refreshedGmail is not defined" currentBatch results.

(** One turn of the loop over the batches; [accessToken] is that of the
    client set up at the start. *)
Definition deleteBatch (session : Session) (accessToken : option string)
    (st : Results * Remote) (currentBatch : list string) : Results * Remote :=
  let '(results, w) := st in
  (* Use Gmail batch delete API with full permissions *)
  let '(thrown, w) := gmailCall accessToken (BatchDelete currentBatch) w in
  match thrown with
  | None => (succeed currentBatch results, w)
  | Some error =>
      (* Check if it's an auth error and try to refresh token *)
      if isAuthError error then
        if negb (truthy (refreshToken session)) then
          (failAll "Authentication expired. Please sign out and sign back in."
             currentBatch results, w)
        else
          (* Try to setup Gmail client again with fresh token *)
          let '(client, w) := setupGmailClient session w in
          match client with
          | inl retryError => (retryFailed retryError currentBatch results, w)
          | inr refreshedToken =>
              (* Retry the batch deletion with refreshed token *)
              let '(thrown, w) :=
                gmailCall refreshedToken (BatchDelete currentBatch) w in
              match thrown with
              | None => (succeed currentBatch results, w)
              | Some retryError =>
                  (retryFailed retryError currentBatch results, w)
              end
          end
      else
        (* For non-auth errors, try individual deletion as fallback *)
        foldl (trashOne accessToken) (results, w) currentBatch
  end.

(** The two stores that the route cleans up. *)
Record Stores := {
  store_emails : gmap string EmailRow;
  store_reports : Tables
}.

(** "Clean up successfully deleted emails from the database and
    reports"; the two calls are taken to succeed. *)
Definition cleanUp (session : Session) (results : Results) (stores : Stores)
  : Stores :=
  if bool_decide (0 < length (successful results))%nat then
    let userEmail := default "" (user_email session) in
    {| store_emails :=
         (deleteEmailsByGmailIds userEmail (successful results)
            (store_emails stores)).2;
       store_reports :=
         (cleanupReportsAfterDeletion userEmail (successful results)
            (store_reports stores)).2 |}
  else stores.

(** [f.error.includes('Authentication') ||
     f.error.includes('sign out and sign back in')] *)
Definition authFailure (f : Failure) : bool :=
  includes (error f) "Authentication" ||
  includes (error f) "sign out and sign back in".

Inductive Response :=
  | Unauthorized                         (* status 401 *)
  | NoEmailIds                           (* status 400 *)
  | ServerError (details : string)       (* status 500 *)
  | Deleted (successfulCount failedCount : nat) (details : Results)
      (authenticationRequired : option string).

(** [POST(req)], for a body whose [emailIds] is an array of strings. *)
Definition POST (session : option Session) (emailIds : list string)
    (w : Remote) (stores : Stores) : Response * Remote * Stores :=
  match session with
  | None => (Unauthorized, w, stores)
  | Some session =>
      if negb (truthy (accessToken session)) then (Unauthorized, w, stores)
      else if bool_decide (length emailIds = 0%nat) then
        (NoEmailIds, w, stores)
      else
        (* Set up Gmail client with token refresh handling *)
        let '(client, w) := setupGmailClient session w in
        match client with
        | inl error =>
            (ServerError match error with
                         | ErrorWith message _ => message
                         | Other _ _ => "Unknown error"
                         end, w, stores)
        | inr gmail =>
            (* Process emails in batches for efficiency *)
            let batches := slices 50 emailIds in
            let '(results, w) :=
              foldl (deleteBatch session gmail)
                ({| successful := []; failed := [] |}, w) batches in
            let stores := cleanUp session results stores in
            (* Check if there were authentication issues *)
            let authErrors := filter (λ f, authFailure f = true) (failed results) in
            (Deleted (length (successful results)) (length (failed results))
               results
               (if bool_decide (0 < length authErrors)%nat then
                  Some (pretty (Z.of_nat (length authErrors)) +:+
                        " emails failed due to expired authentication. Please sign out and sign back in to continue deleting emails.")
                else None),
             w, stores)
        end
  end.

End DeleteRoute.

(* ===================================================================== *)
(** * Moving a message between the lists of a report (the route that
      sets the recommendation type of a candidate) *)
(* ===================================================================== *)

Module MoveRoute.
Import ReportTables.

(** The value of a field that is a string and not empty; none for a
    field that is missing or empty. *)
Definition present (field : option string) : option string :=
  match field with
  | Some (String c s) => Some (String c s)
  | _ => None
  end.

(** [data: { recommendationType: newRecommendationType }] *)
Definition retype (newRecommendationType : string) (c : EmailCandidateRow)
  : EmailCandidateRow :=
  {| ec_id := ec_id c; ec_reportId := ec_reportId c;
     ec_emailId := ec_emailId c; ec_size := ec_size c;
     ec_recommendationType := newRecommendationType |}.

(** [prisma.emailCandidate.updateMany({ where: { reportId, emailId },
     data })]: the count and the rows. *)
Definition updateMany (reportId emailId newRecommendationType : string)
    (rows : list EmailCandidateRow) : nat * list EmailCandidateRow :=
  (length (filter (λ c, ec_reportId c = reportId ∧ ec_emailId c = emailId) rows),
   map (λ c, if decide (ec_reportId c = reportId ∧ ec_emailId c = emailId)
             then retype newRecommendationType c else c) rows).

(** [prisma.emailCandidate.count({ where: { reportId,
     recommendationType } })] *)
Definition countOf (reportId recommendationType : string)
    (rows : list EmailCandidateRow) : nat :=
  length (filter (λ c, ec_reportId c = reportId ∧
                       ec_recommendationType c = recommendationType) rows).

(** [data: { deletionCandidates: deletionCount, keepCandidates: keepCount }] *)
Definition recounted (report : ReportRow) (deletionCount keepCount : nat)
  : ReportRow :=
  {| rep_userEmail := rep_userEmail report;
     rep_totalEmails := rep_totalEmails report;
     rep_deletionCandidates := Z.of_nat deletionCount;
     rep_keepCandidates := Z.of_nat keepCount;
     rep_newsletterSenders := rep_newsletterSenders report;
     rep_totalSize := rep_totalSize report;
     rep_potentialSavings := rep_potentialSavings report |}.

Inductive Answer :=
  | Unauthorized                  (* status 401 *)
  | InvalidRequest                (* status 400 *)
  | ReportNotFound                (* status 404 *)
  | EmailNotFound                 (* status 404 *)
  | Moved (message : string) (deletionCandidates keepCandidates : nat).

(** [POST(req, { params })] of the route, for the [reportId] of the
    path, the address [session?.user?.email] and the two fields of the
    body; the queries are taken to succeed. *)
Definition POST (reportId : string) (email : option string)
    (emailId newRecommendationType : option string) (tables : Tables)
  : Answer * Tables :=
  match present email with
  | None => (Unauthorized, tables)
  | Some userEmail =>
      match present emailId, present newRecommendationType with
      | Some emailId, Some newRecommendationType =>
          if bool_decide (newRecommendationType ∈ ["keep"; "delete"]) then
            (* Verify the report belongs to the user *)
            match reports tables !! reportId with
            | Some report =>
                if bool_decide (rep_userEmail report = userEmail) then
                  (* Update the email candidate recommendation type *)
                  let '(count, rows) :=
                    updateMany reportId emailId newRecommendationType
                      (emailCandidates tables) in
                  if bool_decide (count = 0%nat) then (EmailNotFound, tables)
                  else
                    (* Update the report summary counts *)
                    let deletionCount := countOf reportId "delete" rows in
                    let keepCount := countOf reportId "keep" rows in
                    (Moved ("Email moved to " +:+ newRecommendationType +:+ " list")
                       deletionCount keepCount,
                     {| reports :=
                          <[reportId := recounted report deletionCount keepCount]>
                            (reports tables);
                        emailCandidates := rows;
                        newsletterSenders := newsletterSenders tables |})
                else (ReportNotFound, tables)
            | None => (ReportNotFound, tables)
            end
          else (InvalidRequest, tables)
      | _, _ => (InvalidRequest, tables)
      end
  end.

End MoveRoute.

(* ===================================================================== *)
(** * Notions and sample data used to state the properties *)
(* ===================================================================== *)

Module RateLimiterNotions.
Import RateLimiter.

(** What holds between two calls: [pre] are the stamps recorded so far,
    [clock] the time the last call completed, [requests] the stored list. *)
Record Inv (cfg : RateLimiterConfig) (pre : list Z) (clock : Z)
    (requests : list Z) : Prop := {
  inv_le : ∀ t, t ∈ pre → t ≤ clock;
  inv_last : pre = [] ∨ last pre = Some clock;
  inv_req : ∀ now, clock ≤ now →
    filter (λ time, now - time < windowMs cfg) requests
    = filter (λ time, now - time < windowMs cfg) pre;
  inv_win : window_bounded cfg pre;
  inv_sp : spaced cfg pre
}.

(** Two requests per second, 10 ms apart; three calls in a burst. *)
Definition smallConfig : RateLimiterConfig :=
  {| maxRequests := 2; windowMs := 1000; minDelayMs := 10 |}.

Definition atOnce : Timing :=
  {| arrival := 0; lateWindow := 0; lateDelay := 0; lateRecord := 0 |}.

(** A limiter whose minimum delay is longer than its window: the previous
    stamp has left the window when the next call looks for it. *)
Definition longDelayConfig : RateLimiterConfig :=
  {| maxRequests := 5; windowMs := 10; minDelayMs := 100 |}.

Definition after20 : Timing :=
  {| arrival := 20; lateWindow := 0; lateDelay := 0; lateRecord := 0 |}.


Definition late3 : Timing :=
  {| arrival := 5; lateWindow := 2; lateDelay := 3; lateRecord := 1 |}.

End RateLimiterNotions.

Module DatabaseNotions.
Import Js Database.

(** A stored message of [userEmail] with the date [date]. *)
Definition storedAt (userEmail : string) (date : Z) : EmailRow :=
  {| row_userEmail := userEmail; row_threadId := None;
     row_subject := "Hello"; row_senderEmail := "ann@example.com";
     row_senderName := "Ann"; row_toAddress := None; row_date := date;
     row_size := 1024; row_labels := ["INBOX"]; row_snippet := None;
     row_hasAttachments := false; row_attachmentInfo := None;
     row_category := None; row_lastSynced := 0 |}.

Definition threeRows : gmap string EmailRow :=
  <["before" := storedAt "me@example.com" 10]>
    (<["inside" := storedAt "me@example.com" 700]>
       (<["kept" := storedAt "me@example.com" 800]> ∅)).

Definition lastWeek : SyncRange := {| startDate := Some 500; endDate := 5000 |}.

(** The row an upsert writes. *)
Definition mergeRow (userEmail : string) (now : Z) (email : EmailData)
    (old : option EmailRow) : EmailRow :=
  match old with
  | Some row => updateRow now email row
  | None => createRow userEmail now email
  end.


End DatabaseNotions.

Module SyncNotions.
Import Js Database Sync.

(** The messages of the batches [batches], as [processBatch] returns
    them one batch after the other. *)
Definition fetched (env : Env) (batches : list (list string))
  : list EmailData :=
  concat (map (processBatch env) batches).

(** What the loop keeps and changes in the store, whether it completes
    or stops at a failing batch. *)
Record LoopPost (env : Env) (userEmail sid : string)
    (persisted : list EmailData) (p p' : Progress) : Prop := {
  post_emails : emails (db p') =
    createOrUpdateEmails userEmail (now env) persisted (emails (db p));
  post_total : totalProcessed p' =
    totalProcessed p + Z.of_nat (length persisted);
  post_ids : allProcessedGmailIds p' =
    allProcessedGmailIds p ++ map gmailId persisted;
  post_session : is_Some (syncSessions (db p) !! sid) →
    is_Some (syncSessions (db p') !! sid)
}.

(** The store as [syncEmails] hands it to the [try] body. *)
Definition started (env : Env) (userEmail : string) (options : SyncOptions)
    (db0 : Db) : Db :=
  updateSyncStatus userEmail
    {| d_lastSync := None; d_totalEmails := None;
       d_syncInProgress := Some true; d_syncOptions := Some options;
       d_errorMessage := Some None |}
    (createSyncSession (newSessionId env) (now env) userEmail options
       (syncRange env) db0).

Definition sampleOptions : SyncOptions :=
  {| timeRange := "7d"; excludeSpam := true; excludeTrash := true;
     maxEmailSize := 50 |}.

Definition sampleMessage (id subject : string) (date : Z) : EmailData :=
  {| gmailId := id; threadId := Some ("t-" +:+ id); subject := subject;
     senderEmail := "ann@example.com"; senderName := "Ann";
     toAddress := Some "me@example.com"; date := date; size := 2048;
     labels := ["INBOX"]; snippet := Some ""; hasAttachments := false;
     attachmentInfo := Some []; category := Some "unknown" |}.

Definition sampleRemote (id : string) : option EmailData :=
  if decide (id = "m1") then Some (sampleMessage "m1" "Lunch?" 1000)
  else if decide (id = "m2") then Some (sampleMessage "m2" "Minutes" 2000)
  else None.

Definition sampleEnv (messageIds : list string)
    (fault : nat → option (Stage * thrown)) : Env :=
  {| now := 5000;
     syncRange := {| startDate := Some 500; endDate := 5000 |};
     newSessionId := "session-1";
     listing := λ _, inr messageIds;
     fetch := sampleRemote;
     fault := fault |}.

(** One stored message of the user, dated inside the range, that the
    remote no longer lists, and one dated before the range. *)
Definition sampleRow (date : Z) : EmailRow :=
  createRow "me@example.com" 100 (sampleMessage "" "Old news" date).

Definition sampleDb : Db :=
  {| emails := <["gone" := sampleRow 700]> (<["old" := sampleRow 10]> ∅);
     syncSessions := ∅;
     syncStatus := ∅ |}.

Definition lockedAtFirst (k : nat) : option (Stage * thrown) :=
  if decide (k = 1%nat) then Some (AtSessionUpdate, ErrorObj "database is locked")
  else None.

(** The sample mailbox under a sync without a time bound. *)
Definition fullEnv : Env :=
  {| now := 5000;
     syncRange := {| startDate := None; endDate := 5000 |};
     newSessionId := "session-1";
     listing := λ _, inr ["m1"; "m2"; "m3"];
     fetch := sampleRemote;
     fault := λ _, None |}.

End SyncNotions.

Module AnalyzerNotions.
Import Js Analyzer.



(** [lowConfidenceEmails] for the results from position [off] on. *)
Definition lowFrom (emails : list EmailData) (off : nat)
    (results : list Analysis) : list (nat * EmailData) :=
  omap (λ '(index, result),
          if lowConfidence result
          then (λ email, (index, email)) <$> emails !! index
          else None)
       (imap (λ i result, ((off + i)%nat, result)) results).

(** The number of low results before position [i]. *)
Definition rank (results : list Analysis) (i : nat) : nat :=
  length (filter (λ r, lowConfidence r = true) (take i results)).

Definition headersCall (emails : list EmailData) (mode : string) : LlmCall :=
  {| kind := Headers; batch := emails; callMode := mode;
     max_tokens := Z.min 4000 (Z.of_nat (length emails) * 100) |}.

Definition snippetsCall (emails : list EmailData) (mode : string) : LlmCall :=
  {| kind := Snippets; batch := emails; callMode := mode;
     max_tokens := Z.min 6000 (Z.of_nat (length emails) * 150) |}.

Definition verdict (category recommendation confidence : string)
  : list (string * json) :=
  [("category", JStr category);
   ("cleanupRecommendation", JStr recommendation);
   ("reasoning", JStr "because");
   ("confidence", JStr confidence)].

Definition numbered (n : Z) (fields : list (string * json)) : json :=
  JObj (("id", JNum (inject_Z n)) :: fields).

(** A stand-in for [JSON.parse] on four texts; everything else is taken
    not to be JSON. *)
Definition toyParse (text : string) : option json :=
  if decide (text = "one object") then
    Some (JObj (verdict "newsletter" "delete" "high"))
  else if decide (text = "second and unnumbered") then
    Some (JArr [numbered 2 (verdict "newsletter" "delete" "high");
                JObj (verdict "personal" "keep" "medium")])
  else if decide (text = "high low low") then
    Some (JArr [numbered 1 (verdict "personal" "keep" "high");
                numbered 2 (verdict "automated" "keep" "low");
                numbered 3 (verdict "promotional" "delete" "low")])
  else if decide (text = "both clear") then
    Some (JArr [numbered 1 (verdict "transactional" "keep" "high");
                numbered 2 (verdict "promotional" "delete" "medium")])
  else if decide (text = "null first") then
    Some (JArr [JNull; numbered 1 (verdict "personal" "keep" "high")])
  else None.

Definition mail (n subject : string) : EmailData :=
  {| id := n; threadId := n; subject := subject;
     from := "Ann <ann@example.com>"; to := "me@example.com";
     date := "Mon, 2 Nov 2026 10:00:00 +0000"; size := 2048;
     labels := ["INBOX"]; snippet := "Hello"; hasAttachments := false;
     attachmentSizes := [] |}.

Definition threeMails : list EmailData :=
  [mail "a" "Lunch?"; mail "b" "Your account"; mail "c" "Just for you"].

(** The model answers the header-only call with one clear and two
    low-confidence verdicts, and the snippet call with two clear ones. *)
Definition twoPassModel : Llm :=
  {| answer := λ _ call,
       match kind call with
       | Headers => Responded "high low low" 300 91
       | Snippets => Responded "both clear" 201 60
       end;
     calls := [] |}.

Definition noUsage : TotalTokenUsage :=
  {| sumInputTokens := Some 0; sumOutputTokens := Some 0;
     sumTotalTokens := Some 0; requestCount := 0 |}.

End AnalyzerNotions.

Module ReportNotions.
Import Js Analyzer Report.

(** The recommendation is [delete] or [archive]. *)
Definition recommendsDeletion (entry : AnalysisEntry) : bool :=
  isString "delete" (prop "cleanupRecommendation" entry) ||
  isString "archive" (prop "cleanupRecommendation" entry).

(** The recommendation is [keep]. *)
Definition recommendsKeep (entry : AnalysisEntry) : bool :=
  isString "keep" (prop "cleanupRecommendation" entry).

(** The recommendation is none of [delete], [archive] and [keep]. *)
Definition recommendsNeither (entry : AnalysisEntry) : bool :=
  negb (recommendsDeletion entry) && negb (recommendsKeep entry).

Definition sizes (entries : list AnalysisEntry) : Z :=
  foldr (λ entry total, size (originalEmail entry) + total) 0 entries.

Definition entryWith (recommendation : string) (size : Z) : AnalysisEntry :=
  {| emailId := "a";
     analysis :=
       {| body := JObj [("category", JStr "personal");
                        ("cleanupRecommendation", JStr recommendation);
                        ("confidence", JStr "medium")];
          Analyzer.tokenUsage := None |};
     originalEmail :=
       {| id := "a"; threadId := "a"; subject := "Hello";
          from := "Ann <ann@example.com>"; to := "me@example.com";
          date := "Mon, 2 Nov 2026 10:00:00 +0000"; size := size;
          labels := []; snippet := ""; hasAttachments := false;
          attachmentSizes := [] |} |}.

Definition cleanupConfig : AnalysisConfig :=
  {| filterType := "custom"; query := "older_than:1y";
     description := "Old mail"; limit := 100; mode := "fast";
     analysisType := None |}.

Definition reportOf (analyses : list AnalysisEntry) : CleanupReport :=
  generateReport (λ from, from) (λ from, from) (λ _, None)
    analyses cleanupConfig None.


(** The category is [newsletter] or [promotional]: the sender is tracked. *)
Definition tracked (entry : AnalysisEntry) : bool :=
  isString "newsletter" (prop "category" entry) ||
  isString "promotional" (prop "category" entry).

(** [a] is dated no earlier than [b], both dates being valid. *)
Definition notOlder (getTime : string → option Z) (a b : Candidate) : Prop :=
  ∃ ta tb, getTime (cand_date a) = Some ta ∧ getTime (cand_date b) = Some tb ∧
           tb ≤ ta.

Definition datedEntry (id date recommendation category from : string)
    (size : Z) : AnalysisEntry :=
  {| emailId := id;
     analysis :=
       {| body := JObj [("category", JStr category);
                        ("cleanupRecommendation", JStr recommendation)];
          Analyzer.tokenUsage := None |};
     originalEmail :=
       {| id := id; threadId := id; subject := "Hello"; from := from;
          to := "me@example.com"; date := date; size := size;
          labels := []; snippet := ""; hasAttachments := false;
          attachmentSizes := [] |} |}.

(** A stand-in for [new Date(s).getTime()] on three dates. *)
Definition toyTime (date : string) : option Z :=
  if decide (date = "2026-01-01") then Some 100
  else if decide (date = "2026-02-01") then Some 200
  else if decide (date = "2026-03-01") then Some 300
  else None.

Section Tally.
Variable extractSenderEmail : string → string.

(** [existing.count++; existing.totalSize += email.size] *)
Definition bump (size : Z) (s : Sender) : Sender :=
  {| senderEmail := senderEmail s; senderName := senderName s;
     count := count s + 1; totalSize := totalSize s + size;
     category := Report.category s |}.

(** What the entries [l] amount to for the sender [s]: its count and
    size are those of the tracked entries of [l] from its address, of
    which there is one at least. *)
Definition tally (l : list AnalysisEntry) (s : Sender) : Prop :=
  let mine :=
    filter (λ e, extractSenderEmail (from (originalEmail e)) = senderEmail s)
      (filter (λ e, tracked e = true) l) in
  count s = Z.of_nat (length mine) ∧ totalSize s = sizes mine ∧ mine ≠ [].

(** What holds of the senders collected from the entries [l]. *)
Record Tallied (l : list AnalysisEntry) (senders : list Sender) : Prop := {
  tallied_keys : NoDup (senderEmail <$> senders);
  tallied_each : Forall (tally l) senders;
  tallied_cover : ∀ e, e ∈ l → tracked e = true →
    extractSenderEmail (from (originalEmail e)) ∈ senderEmail <$> senders
}.

End Tally.

End ReportNotions.

Module MessagePartsNotions.
Import MessageParts.

(** Every named part below [part], and [part] itself, has a body. *)
Fixpoint bodiesPresent (part : MessagePart) : bool :=
  match part with
  | Part _ _ body parts =>
      (bool_decide (named part = None) || bool_decide (is_Some body)) &&
      match parts with
      | Some parts => forallb bodiesPresent parts
      | None => true
      end
  end.

(** The entry of [getAttachmentSizes] for an entry of
    [getAttachmentInfo]: none when the size is 0. *)
Definition sizeEntry (info : AttachmentInfo) : option (string * Z) :=
  if bool_decide (info_size info = 0) then None
  else Some (info_filename info, info_size info).

(** A message with a text and a nested pair of a text and a PDF. *)
Definition withPdf : MessagePart :=
  Part (Some "") (Some "multipart/mixed") (Some (Some 0))
    (Some [Part (Some "") (Some "text/plain") (Some (Some 120)) None;
           Part None (Some "multipart/related") None
             (Some [Part (Some "") (Some "text/html") (Some (Some 300)) None;
                    Part (Some "invoice.pdf") (Some "application/pdf")
                      (Some (Some 52000)) None;
                    Part (Some "empty.txt") (Some "text/plain")
                      (Some None) None])]).

End MessagePartsNotions.

Module PrefilterNotions.
Import Js.

(** A character that the decimal form of an integer can hold. *)
Definition numeric (c : ascii) : bool :=
  bool_decide (c = "-"%char) ||
  bool_decide (48 ≤ nat_of_ascii c ≤ 57)%nat.

Fixpoint allNumeric (s : string) : bool :=
  match s with
  | EmptyString => true
  | String c rest => numeric c && allNumeric rest
  end.

(** The last character of [p] is not numeric. *)
Fixpoint endsOutside (p : string) : bool :=
  match p with
  | EmptyString => false
  | String c EmptyString => negb (numeric c)
  | String _ rest => endsOutside rest
  end.

(** The character [c] does not occur in [s]. *)
Fixpoint lacks (c : ascii) (s : string) : bool :=
  match s with
  | EmptyString => true
  | String d rest => negb (bool_decide (d = c)) && lacks c rest
  end.

Definition knownTimeRanges : list string := ["all"; "7d"; "30d"; "3m"; "6m"; "1y"].

End PrefilterNotions.

Module HybridNotions.
Import Js Analyzer Report Hybrid AnalyzerNotions.


Definition storedMail (id subject sender : string) : DbEmail :=
  (id, Database.createRow "me@example.com" 100
         {| Database.gmailId := id; Database.threadId := None;
            Database.subject := subject; Database.senderEmail := sender;
            Database.senderName := "Ann"; Database.toAddress := None;
            Database.date := 1000; Database.size := 2048;
            Database.labels := []; Database.snippet := None;
            Database.hasAttachments := false;
            Database.attachmentInfo := None; Database.category := None |}).

Definition toMail (email : DbEmail) : EmailData :=
  mail email.1 (Database.row_subject email.2).

(** The model is unreachable. *)
Definition deadModel : Llm := {| answer := λ _ _, Failed; calls := [] |}.

(** A parse that knows one more text: an array whose second entry has no
    recommendation. *)
Definition looseParse (text : string) : option json :=
  if decide (text = "second without verdict") then
    Some (JArr [numbered 1 (verdict "personal" "keep" "high");
                JObj [("id", JNum (inject_Z 2)); ("category", JStr "spam")]])
  else toyParse text.

(** The model answers a call for one message with one verdict, and a
    call for more with the array above. *)
Definition looseModel : Llm :=
  {| answer := λ _ call,
       match batch call with
       | [_] => Responded "one object" 50 10
       | _ => Responded "second without verdict" 200 40
       end;
     calls := [] |}.

End HybridNotions.

Module ReportTablesNotions.
Import ReportTables.

(** The sum of the sizes of candidate rows. *)
Definition sizeOf (rows : list EmailCandidateRow) : Z :=
  foldr (λ c total, ec_size c + total) 0 rows.

(** The candidates of the report [reportId] that the call removes, and
    those it leaves. *)
Definition lost (userEmail : string) (deletedGmailIds : list string)
    (tables : Tables) (reportId : string) : list EmailCandidateRow :=
  filter (λ c, ec_reportId c = reportId)
    (filter (toDelete userEmail deletedGmailIds tables)
       (emailCandidates tables)).

Definition kept (userEmail : string) (deletedGmailIds : list string)
    (tables : Tables) (reportId : string) : list EmailCandidateRow :=
  filter (λ c, ec_reportId c = reportId)
    (filter (λ c, ¬ toDelete userEmail deletedGmailIds tables c)
       (emailCandidates tables)).

(** The candidates of a report that are recommended for deletion. *)
Definition forDeletion (tables : Tables) (reportId : string)
  : list EmailCandidateRow :=
  filter (λ c, ec_recommendationType c = "delete")
    (filter (λ c, ec_reportId c = reportId) (emailCandidates tables)).

(** The summary of the report agrees with its candidate rows, as when
    the report was saved: [deletionCandidates] is the number of rows
    recommended for deletion and [potentialSavings] is their size. *)
Definition Counted (tables : Tables) (reportId : string) (report : ReportRow)
  : Prop :=
  rep_deletionCandidates report
    = Z.of_nat (length (forDeletion tables reportId)) ∧
  rep_potentialSavings report = sizeOf (forDeletion tables reportId).

(** What the loop has done to a report, given its entry of the map. *)
Definition settled (tables : Tables) (r : string)
    (entry : option (Z * Z)) : option ReportRow :=
  match entry with
  | None => reports tables !! r
  | Some (count, sizeReduction) =>
      match reports tables !! r with
      | None => None
      | Some report =>
          if bool_decide (candidateCount r tables = 0%nat) then None
          else Some (reduced report count sizeReduction)
      end
  end.

(** The report was deleted by the loop. *)
Definition emptied (tables : Tables) (updates : list (string * (Z * Z)))
    (r : string) : Prop :=
  r ∈ updates.*1 ∧ is_Some (reports tables !! r) ∧
  candidateCount r tables = 0%nat.

#[global] Instance emptied_dec tables updates r :
  Decision (emptied tables updates r).
Proof. unfold emptied. apply _. Defined.

(** The state of a report after the call. *)
Definition reportAfter (userEmail : string) (deletedGmailIds : list string)
    (tables : Tables) (r : string) : option ReportRow :=
  match reports tables !! r with
  | None => None
  | Some report =>
      match lost userEmail deletedGmailIds tables r,
            kept userEmail deletedGmailIds tables r with
      | [], _ => Some report
      | _ :: _, [] => None
      | mine, _ :: _ =>
          Some (reduced report (Z.of_nat (length mine)) (sizeOf mine))
      end
  end.

Definition candidate (id reportId emailId : string) (size : Z)
    (recommendationType : string) : EmailCandidateRow :=
  {| ec_id := id; ec_reportId := reportId; ec_emailId := emailId;
     ec_size := size; ec_recommendationType := recommendationType |}.

(** Two reports of one user and one of another.  The first has two rows
    for deletion and one to keep, the second a single row. *)
Definition sampleTables : Tables :=
  {| reports :=
       <["r1" := {| rep_userEmail := "me@example.com"; rep_totalEmails := 3;
                    rep_deletionCandidates := 2; rep_keepCandidates := 1;
                    rep_newsletterSenders := 1; rep_totalSize := 600;
                    rep_potentialSavings := 300 |}]>
      (<["r2" := {| rep_userEmail := "me@example.com"; rep_totalEmails := 1;
                    rep_deletionCandidates := 1; rep_keepCandidates := 0;
                    rep_newsletterSenders := 1; rep_totalSize := 100;
                    rep_potentialSavings := 100 |}]>
      (<["r3" := {| rep_userEmail := "you@example.com"; rep_totalEmails := 1;
                    rep_deletionCandidates := 1; rep_keepCandidates := 0;
                    rep_newsletterSenders := 0; rep_totalSize := 50;
                    rep_potentialSavings := 50 |}]> ∅));
     emailCandidates :=
       [candidate "c1" "r1" "m1" 100 "delete";
        candidate "c2" "r1" "m2" 200 "delete";
        candidate "c3" "r1" "m3" 300 "keep";
        candidate "c4" "r2" "m1" 100 "delete";
        candidate "c5" "r3" "m1" 50 "delete"];
     newsletterSenders :=
       [{| ns_id := "s1"; ns_reportId := "r1";
           ns_senderEmail := "news@a.example"; ns_count := 2 |};
        {| ns_id := "s2"; ns_reportId := "r2";
           ns_senderEmail := "news@a.example"; ns_count := 1 |}] |}.

End ReportTablesNotions.

Module DeleteRouteNotions.
Import Js Database ReportTables ReportTablesNotions DeleteRoute.

(** The ids that a request asks to delete or to trash. *)
Definition subjects (request : Request) : list string :=
  match request with
  | BatchDelete ids => ids
  | Trash id => [id]
  end.

(** The ids of the calls that the mail API accepted, in order. *)
Definition accepted (events : list Event) : list string :=
  flat_map (λ event, match event with
                     | Gmail _ request None => subjects request
                     | _ => []
                     end) events.

(** From [st] to [st'] the messages [ids] have been dealt with: each is
    reported once, as successful if a call for it was accepted and as
    failed if not. *)
Definition Adds (ids : list string) (st st' : Results * Remote) : Prop :=
  ∃ new fs,
    events st'.2 = events st.2 ++ new ∧
    successful st'.1 = successful st.1 ++ accepted new ∧
    failed st'.1 = failed st.1 ++ fs ∧
    accepted new ++ (emailId <$> fs) ≡ₚ ids.

Definition sampleSession : Session :=
  {| accessToken := Some "token-1"; refreshToken := Some "refresh-1";
     accessTokenExpires := Some 10000000; user_email := Some "me@example.com" |}.

Definition sampleRow (id userEmail : string) : EmailRow :=
  createRow userEmail 100
    {| gmailId := id; threadId := None; subject := "Hello";
       senderEmail := "ann@example.com"; senderName := "Ann";
       toAddress := None; date := 1000; size := 2048; labels := [];
       snippet := None; hasAttachments := false; attachmentInfo := None;
       category := None |}.

Definition sampleStores : Stores :=
  {| store_emails :=
       <["m1" := sampleRow "m1" "me@example.com"]>
      (<["m2" := sampleRow "m2" "me@example.com"]>
      (<["m9" := sampleRow "m9" "you@example.com"]> ∅));
     store_reports := sampleTables |}.

(** The remote refuses the batch call with a server error, trashes [m1]
    and fails on any other message. *)
Definition flaky : Remote :=
  {| Date_now := λ _, 5000;
     tokenEndpoint := λ _ _, None;
     gmailApi := λ _ _ request,
       match request with
       | BatchDelete _ => Some (ErrorWith "Backend Error" (Some 500))
       | Trash id =>
           if decide (id = "m1") then None
           else Some (ErrorWith "Not Found" (Some 404))
       end;
     events := [] |}.

(** The remote answers the batch call with 401 until the token is
    refreshed, and the refreshed client fails with a server error. *)
Definition expired : Remote :=
  {| Date_now := λ _, 20000000;
     tokenEndpoint := λ n _, if decide (n = 1%nat) then Some "token-1" else Some "token-2";
     gmailApi := λ _ accessToken request,
       if decide (accessToken = Some "token-2")
       then Some (ErrorWith "Backend Error" (Some 500))
       else Some (ErrorWith "Request had invalid authentication credentials"
                    (Some 401));
     events := [] |}.

End DeleteRouteNotions.

(* ===================================================================== *)
(** * Properties *)
(* ===================================================================== *)

Module RateLimiterProofs.
Import RateLimiter RateLimiterNotions.

Lemma Math_min_spec xs m :
  Math_min xs = Some m → m ∈ xs ∧ ∀ x, x ∈ xs → m ≤ x.
Proof.
  destruct xs as [|x xs]; [done|]. simpl. intros [= <-].
  induction xs as [|y ys [Hin Hle]]; simpl.
  - split; [left|]. intros z ->%list_elem_of_singleton. lia.
  - split.
    + destruct (Z.min_spec y (foldr Z.min x ys)) as [[_ ->]|[_ ->]].
      * right; left.
      * apply elem_of_cons in Hin as [->|?]; [left | do 2 right; done].
    + intros z [->|[->|Hz]%elem_of_cons]%elem_of_cons.
      * specialize (Hle x ltac:(left)). lia.
      * lia.
      * specialize (Hle z ltac:(by right)). lia.
Qed.

Lemma Math_max_spec xs m :
  Math_max xs = Some m → m ∈ xs ∧ ∀ x, x ∈ xs → x ≤ m.
Proof.
  destruct xs as [|x xs]; [done|]. simpl. intros [= <-].
  induction xs as [|y ys [Hin Hle]]; simpl.
  - split; [left|]. intros z ->%list_elem_of_singleton. lia.
  - split.
    + destruct (Z.max_spec y (foldr Z.max x ys)) as [[_ ->]|[_ ->]].
      * apply elem_of_cons in Hin as [->|?]; [left | do 2 right; done].
      * right; left.
    + intros z [->|[->|Hz]%elem_of_cons]%elem_of_cons.
      * specialize (Hle x ltac:(left)). lia.
      * lia.
      * specialize (Hle z ltac:(by right)). lia.
Qed.

Lemma Math_min_None xs : Math_min xs = None → xs = [].
Proof. by destruct xs. Qed.

Lemma Math_max_None xs : Math_max xs = None → xs = [].
Proof. by destruct xs. Qed.

Lemma last_elem (l : list Z) x : last l = Some x → x ∈ l.
Proof. intros [l' ->]%last_Some. apply elem_of_app. right. left. Qed.

Lemma filter_ext_elem (P Q : Z → Prop) `{!∀ x, Decision (P x)}
    `{!∀ x, Decision (Q x)} (l : list Z) :
  (∀ x, x ∈ l → P x ↔ Q x) → filter P l = filter Q l.
Proof.
  induction l as [|y l IH]; intros HPQ; [done|].
  rewrite !filter_cons, IH by (intros; apply HPQ; by right).
  apply decide_ext, HPQ. left.
Qed.

Lemma filter_narrow (P Q : Z → Prop) `{!∀ x, Decision (P x)}
    `{!∀ x, Decision (Q x)} (l : list Z) :
  (∀ x, x ∈ l → P x → Q x) → filter P l = filter P (filter Q l).
Proof.
  intros HPQ. rewrite list_filter_filter. apply filter_ext_elem.
  intros x Hx. specialize (HPQ x Hx). tauto.
Qed.

Section Admission.
Variable cfg : RateLimiterConfig.
Hypothesis max_pos : 1 ≤ maxRequests cfg.
Hypothesis delay_in_window : minDelayMs cfg ≤ windowMs cfg.
Hypothesis window_fits_timer : windowMs cfg + 100 ≤ TIMEOUT_MAX.

Lemma Inv_init t0 : Inv cfg [] t0 [].
Proof.
  constructor.
  - intros t Ht. by apply elem_of_nil in Ht.
  - by left.
  - done.
  - intros a. simpl. lia.
  - intros i x y Hx. by rewrite lookup_nil in Hx.
Qed.

Lemma timerDelay_in_range d : 1 ≤ d ≤ TIMEOUT_MAX → timerDelay (Some d) = d.
Proof. intros Hd. unfold timerDelay. by rewrite bool_decide_true. Qed.

(** The stamp of one call: after the entry time, after the oldest stamp in
    the window has expired (by 100 ms) when the window was full, and
    [minDelayMs] after the previous stamp. *)
Lemma waitIfNeeded_stamp tm pre clock requests :
  Inv cfg pre clock requests →
  let now := clock + Z.of_N (arrival tm) in
  let R := filter (λ time, now - time < windowMs cfg) requests in
  let stamp := (waitIfNeeded cfg tm clock requests).1 in
  (waitIfNeeded cfg tm clock requests).2 = R ++ [stamp] ∧
  R = filter (λ time, now - time < windowMs cfg) pre ∧
  now ≤ stamp ∧
  (maxRequests cfg ≤ Z.of_nat (length R) →
     ∃ oldest, Math_min R = Some oldest ∧
       windowWaitTime cfg now R = Some (oldest + windowMs cfg - now + 100) ∧
       oldest + windowMs cfg + 100 ≤ stamp) ∧
  (pre ≠ [] → minDelayMs cfg ≤ stamp - clock).
Proof.
  intros HI now R stamp.
  assert (Hnow : clock ≤ now) by (unfold now; lia).
  assert (HR : R = filter (λ time, now - time < windowMs cfg) pre)
    by (apply (inv_req _ _ _ _ HI); done).
  assert (HRle : ∀ t, t ∈ R → t ≤ clock ∧ now - t < windowMs cfg).
  { intros t. rewrite HR, list_elem_of_filter. intros [? ?].
    split; [by apply (inv_le _ _ _ _ HI)|done]. }
  unfold stamp, waitIfNeeded. fold now. fold R. cbn [fst snd].
  set (clock1 := if bool_decide (maxRequests cfg ≤ Z.of_nat (length R)) then _ else _).
  set (clock2 := match Math_max R with Some _ => _ | None => _ end).
  assert (H1 : now ≤ clock1 ∧
    (maxRequests cfg ≤ Z.of_nat (length R) →
     ∃ oldest, Math_min R = Some oldest ∧
       windowWaitTime cfg now R = Some (oldest + windowMs cfg - now + 100) ∧
       oldest + windowMs cfg + 100 ≤ clock1)).
  { unfold clock1. case_bool_decide as Hfull; [|split; [lia|done]].
    destruct (Math_min R) as [oldest|] eqn:Hmin.
    2:{ apply Math_min_None in Hmin. rewrite Hmin in Hfull. simpl in Hfull. lia. }
    destruct (Math_min_spec _ _ Hmin) as [Hin _].
    destruct (HRle _ Hin) as [Ho1 Ho2].
    unfold windowWaitTime. rewrite Hmin. cbn [fmap option_fmap option_map positive].
    rewrite bool_decide_true by lia. unfold sleep.
    rewrite timerDelay_in_range by lia.
    split; [lia|]. intros _. exists oldest.
    split; [done|]. split; [f_equal; lia | lia]. }
  destruct H1 as [H1 H1full].
  assert (H2 : clock1 ≤ clock2 ∧ (pre ≠ [] → minDelayMs cfg ≤ clock2 - clock)).
  { unfold clock2. destruct (Math_max R) as [lastRequest|] eqn:Hmax.
    - destruct (Math_max_spec _ _ Hmax) as [Hin Hge].
      destruct (HRle _ Hin) as [Hl1 Hl2].
      assert (lastRequest = clock) as ->.
      { destruct (inv_last _ _ _ _ HI) as [->|Hlast].
        - rewrite HR in Hin. by apply elem_of_nil in Hin.
        - assert (clock ∈ R).
          { rewrite HR. apply list_elem_of_filter. split; [lia|].
            by apply last_elem. }
          specialize (Hge clock H). lia. }
      case_bool_decide as Hsoon.
      + unfold sleep. rewrite timerDelay_in_range by lia. lia.
      + lia.
    - split; [lia|]. intros Hne.
      destruct (inv_last _ _ _ _ HI) as [?|Hlast]; [done|].
      assert (clock ∉ R) as Hout.
      { apply Math_max_None in Hmax. rewrite Hmax. apply not_elem_of_nil. }
      rewrite HR, list_elem_of_filter in Hout.
      assert (clock ∈ pre) by (by apply last_elem).
      assert (¬ now - clock < windowMs cfg) by tauto. lia. }
  destruct H2 as [H2 H2sp].
  split; [done|]. split; [done|]. split; [lia|]. split.
  - intros Hfull. destruct (H1full Hfull) as (oldest & ? & ? & ?).
    exists oldest. split; [done|]. split; [done|]. lia.
  - intros Hne. specialize (H2sp Hne). lia.
Qed.

Lemma waitIfNeeded_Inv tm pre clock requests :
  Inv cfg pre clock requests →
  Inv cfg (pre ++ [(waitIfNeeded cfg tm clock requests).1])
      (waitIfNeeded cfg tm clock requests).1
      (waitIfNeeded cfg tm clock requests).2.
Proof.
  intros HI.
  destruct (waitIfNeeded_stamp tm pre clock requests HI)
    as (Hreq & HR & Hnow & Hfull & Hsp).
  set (now := clock + Z.of_N (arrival tm)) in *.
  set (R := filter (λ time, now - time < windowMs cfg) requests) in *.
  set (stamp := (waitIfNeeded cfg tm clock requests).1) in *.
  assert (Hclock : clock ≤ stamp) by (unfold now in Hnow; lia).
  rewrite Hreq. constructor.
  - intros t [Ht| ->%list_elem_of_singleton]%elem_of_app; [|lia].
    pose proof (inv_le _ _ _ _ HI t Ht). lia.
  - right. apply last_snoc.
  - intros now2 Hnow2. rewrite !filter_app. f_equal.
    rewrite HR. apply list_filter_filter_l. intros t. lia.
  - intros a. rewrite filter_app, length_app, filter_cons, filter_nil.
    destruct (decide (a ≤ stamp < a + windowMs cfg)) as [Hin|Hout].
    2:{ pose proof (inv_win _ _ _ _ HI a). simpl. lia. }
    assert (Hnarrow : filter (λ t, a ≤ t < a + windowMs cfg) pre
                     = filter (λ t, a ≤ t < a + windowMs cfg) R).
    { rewrite HR. apply filter_narrow. intros t Ht ?.
      pose proof (inv_le _ _ _ _ HI t Ht). lia. }
    assert (HRlen : Z.of_nat (length R) ≤ maxRequests cfg).
    { rewrite HR.
      rewrite (filter_ext_elem _
        (λ t, now - windowMs cfg + 1 ≤ t < now - windowMs cfg + 1 + windowMs cfg)).
      - apply (inv_win _ _ _ _ HI).
      - intros t Ht. pose proof (inv_le _ _ _ _ HI t Ht). unfold now. lia. }
    rewrite Hnarrow. simpl.
    destruct (decide (maxRequests cfg ≤ Z.of_nat (length R))) as [Hf|Hnf].
    + destruct (Hfull Hf) as (oldest & Hmin & _ & Hwait).
      destruct (Math_min_spec _ _ Hmin) as [Hold _].
      pose proof (length_filter_lt (λ t, a ≤ t < a + windowMs cfg) R oldest Hold).
      lia.
    + pose proof (length_filter (λ t, a ≤ t < a + windowMs cfg) R). lia.
  - intros i x y Hx Hy.
    destruct (decide (S i < length pre)%nat) as [Hlt|Hge].
    + rewrite lookup_app_l in Hx by lia. rewrite lookup_app_l in Hy by lia.
      by apply (inv_sp _ _ _ _ HI i).
    + apply lookup_lt_Some in Hy as Hlen. rewrite length_app in Hlen.
      simpl in Hlen. assert (S i = length pre) as Hi by lia.
      rewrite Hi, lookup_app_r, Nat.sub_diag in Hy by lia.
      injection Hy as <-.
      rewrite lookup_app_l in Hx by lia.
      assert (pre ≠ []) as Hne by (intros ->; simpl in Hi; lia).
      destruct (inv_last _ _ _ _ HI) as [?|Hlast]; [done|].
      rewrite last_lookup, <- Hi in Hlast. simpl in Hlast.
      rewrite Hlast in Hx. injection Hx as <-. by apply Hsp.
Qed.

Lemma calls_Inv tms : ∀ pre clock requests,
  Inv cfg pre clock requests →
  window_bounded cfg (pre ++ calls cfg tms clock requests) ∧
  spaced cfg (pre ++ calls cfg tms clock requests).
Proof.
  induction tms as [|tm tms IH]; intros pre clock requests HI; cbn [calls].
  - rewrite app_nil_r. split; [apply (inv_win _ _ _ _ HI) | apply (inv_sp _ _ _ _ HI)].
  - pose proof (waitIfNeeded_Inv tm _ _ _ HI) as HI'.
    destruct (waitIfNeeded cfg tm clock requests) as [stamp requests'].
    cbn [fst snd] in HI'. rewrite cons_middle, app_assoc. by apply IH.
Qed.

End Admission.
Lemma timerDelay_pos ms : 1 ≤ timerDelay ms.
Proof.
  destruct ms as [d|]; simpl; [|lia]. case_bool_decide; lia.
Qed.

(** When the window is full the wait is computed from the oldest stamp in
    the window, and the call records nothing before that wait is over. *)
Lemma waitIfNeeded_window_wait cfg tm clock requests :
  windowMs cfg + 100 ≤ TIMEOUT_MAX →
  1 ≤ maxRequests cfg →
  (∀ t, t ∈ requests → t ≤ clock) →
  let now := clock + Z.of_N (arrival tm) in
  let R := filter (λ time, now - time < windowMs cfg) requests in
  maxRequests cfg ≤ Z.of_nat (length R) →
  ∃ oldest, Math_min R = Some oldest ∧
    windowWaitTime cfg now R = Some ((oldest + windowMs cfg - now) + 100) ∧
    oldest + windowMs cfg + 100 ≤ (waitIfNeeded cfg tm clock requests).1.
Proof.
  intros Hw HM Hle now R Hfull.
  destruct (Math_min R) as [oldest|] eqn:Hmin.
  2:{ apply Math_min_None in Hmin. rewrite Hmin in Hfull. simpl in Hfull. lia. }
  destruct (Math_min_spec _ _ Hmin) as [[Ho2 Ho1]%list_elem_of_filter _].
  apply Hle in Ho1. exists oldest. split; [done|].
  assert (Hwt : windowWaitTime cfg now R = Some (oldest + windowMs cfg - now + 100)).
  { unfold windowWaitTime. rewrite Hmin. simpl. f_equal. lia. }
  split; [done|].
  unfold waitIfNeeded. fold now. fold R. cbn [fst].
  rewrite bool_decide_true, Hwt by done. cbn [positive].
  assert (Hnow : clock ≤ now) by (unfold now; lia).
  rewrite bool_decide_true by lia.
  unfold sleep.
  rewrite (timerDelay_in_range (oldest + windowMs cfg - now + 100)) by lia.
  destruct (Math_max R) as [lastRequest|]; [|lia].
  case_bool_decide; [|lia].
  pose proof (timerDelay_pos (Some (minDelayMs cfg - (now - lastRequest)))).
  lia.
Qed.

(** C2, as amended.  For a limiter whose configuration has
    [maxRequests >= 1], [minDelayMs <= windowMs] and
    [windowMs + 100 <= 2^31 - 1] (the longest delay a timer honours), and
    for every sequence of calls made one after the other, whatever the
    scheduler's delays: no interval of length [windowMs] holds more than
    [maxRequests] recorded stamps, two consecutive stamps are at least
    [minDelayMs] apart, and when the window is full the wait is the time
    until the oldest stamp in the window expires, plus 100 ms. *)
Theorem admission_invariant cfg t0 tms :
  1 ≤ maxRequests cfg →
  minDelayMs cfg ≤ windowMs cfg →
  windowMs cfg + 100 ≤ TIMEOUT_MAX →
  window_bounded cfg (trace cfg t0 tms) ∧
  spaced cfg (trace cfg t0 tms) ∧
  (∀ tm clock requests,
     (∀ t, t ∈ requests → t ≤ clock) →
     let now := clock + Z.of_N (arrival tm) in
     let R := filter (λ time, now - time < windowMs cfg) requests in
     maxRequests cfg ≤ Z.of_nat (length R) →
     ∃ oldest, Math_min R = Some oldest ∧
       windowWaitTime cfg now R = Some ((oldest + windowMs cfg - now) + 100) ∧
       oldest + windowMs cfg + 100 ≤ (waitIfNeeded cfg tm clock requests).1).
Proof.
  intros HM Hd Hw.
  destruct (calls_Inv cfg HM Hd Hw tms [] t0 []) as [H1 H2];
    [by apply Inv_init|].
  split; [exact H1|]. split; [exact H2|].
  intros tm clock requests Hle. by apply waitIfNeeded_window_wait.
Qed.

Example burst_trace :
  trace smallConfig 0 [atOnce; atOnce; atOnce] = [0; 10; 1110].
Proof. reflexivity. Qed.

Lemma admission_invariant_witness :
  window_bounded smallConfig (trace smallConfig 0 [atOnce; atOnce; atOnce]) ∧
  spaced smallConfig (trace smallConfig 0 [atOnce; atOnce; atOnce]) ∧
  (∀ tm clock requests,
     (∀ t, t ∈ requests → t ≤ clock) →
     let now := clock + Z.of_N (arrival tm) in
     let R := filter (λ time, now - time < windowMs smallConfig) requests in
     maxRequests smallConfig ≤ Z.of_nat (length R) →
     ∃ oldest, Math_min R = Some oldest ∧
       windowWaitTime smallConfig now R
         = Some ((oldest + windowMs smallConfig - now) + 100) ∧
       oldest + windowMs smallConfig + 100
         ≤ (waitIfNeeded smallConfig tm clock requests).1).
Proof.
  apply (admission_invariant smallConfig 0 [atOnce; atOnce; atOnce]).
  - simpl. lia.
  - simpl. lia.
  - unfold TIMEOUT_MAX. simpl. lia.
Defined.

(** C2 as stated fails: two calls 20 ms apart are both recorded at once
    although [minDelayMs] is 100. *)
Lemma long_delay_not_spaced :
  trace longDelayConfig 0 [atOnce; after20] = [0; 20] ∧
  ¬ spaced longDelayConfig (trace longDelayConfig 0 [atOnce; after20]).
Proof.
  split; [reflexivity|].
  intros H. specialize (H 0%nat 0 20 eq_refl eq_refl). simpl in H. lia.
Qed.

(** The other two conditions are needed as well: with [maxRequests = 0]
    the wait is infinite and the timer fires after 1 ms, ... *)
Example zero_max_not_bounded :
  trace {| maxRequests := 0; windowMs := 1000; minDelayMs := 0 |} 0 [atOnce] = [1] ∧
  ¬ window_bounded {| maxRequests := 0; windowMs := 1000; minDelayMs := 0 |} [1].
Proof.
  split; [reflexivity|].
  intros H. specialize (H 1). vm_compute in H. by apply H.
Qed.

(** ... and a wait longer than [TIMEOUT_MAX] is cut to 1 ms. *)
Example long_window_not_bounded :
  trace {| maxRequests := 1; windowMs := 3000000000; minDelayMs := 0 |} 0
    [atOnce; atOnce] = [0; 1] ∧
  ¬ window_bounded {| maxRequests := 1; windowMs := 3000000000; minDelayMs := 0 |}
      [0; 1].
Proof.
  split; [reflexivity|].
  intros H. specialize (H 0). vm_compute in H. by apply H.
Qed.

End RateLimiterProofs.

Module LocalClassifierProofs.
Import Js LocalClassifier.

(** C8, as amended.  The classifier has no rule for "noreply" senders: a
    message from such a sender is [unknown] exactly when none of the
    newsletter, promotional and social indicators matches its lower-cased
    subject, from field and sender address.  (A subject that contains
    "sale", for one, makes it [promotional].) *)
Theorem noreply_unknown_iff toLowerCase subject from senderEmail :
  noreplyStyle toLowerCase senderEmail →
  classifyEmail toLowerCase subject from senderEmail = "unknown" ↔
    newsletterIndicator (toLowerCase subject) (toLowerCase from)
      (toLowerCase senderEmail) = false ∧
    promotionalIndicator (toLowerCase subject) = false ∧
    socialIndicator (toLowerCase from) (toLowerCase senderEmail) = false.
Proof.
  intros _. unfold classifyEmail.
  destruct (newsletterIndicator _ _ _); [split; [done | by intros [? _]]|].
  destruct (promotionalIndicator _); [split; [done | by intros (_ & ? & _)]|].
  destruct (socialIndicator _ _); [split; [done | by intros (_ & _ & ?)]|].
  done.
Qed.

Lemma noreply_unknown_iff_witness :
  classifyEmail asciiLowerCase "Your statement is ready"
    "Bank <noreply@bank.example>" "noreply@bank.example" = "unknown" ↔
    newsletterIndicator (asciiLowerCase "Your statement is ready")
      (asciiLowerCase "Bank <noreply@bank.example>")
      (asciiLowerCase "noreply@bank.example") = false ∧
    promotionalIndicator (asciiLowerCase "Your statement is ready") = false ∧
    socialIndicator (asciiLowerCase "Bank <noreply@bank.example>")
      (asciiLowerCase "noreply@bank.example") = false.
Proof.
  apply (noreply_unknown_iff asciiLowerCase "Your statement is ready"
           "Bank <noreply@bank.example>" "noreply@bank.example").
  left. reflexivity.
Defined.

Example noreply_plain_unknown :
  classifyEmail asciiLowerCase "Your statement is ready"
    "Bank <noreply@bank.example>" "noreply@bank.example" = "unknown".
Proof. reflexivity. Qed.

(** C8 as stated fails: the subject decides, also for a noreply sender. *)
Lemma noreply_sale_promotional :
  noreplyStyle asciiLowerCase "noreply@shop.example" ∧
  classifyEmail asciiLowerCase "Summer SALE starts now"
    "Shop <noreply@shop.example>" "noreply@shop.example" = "promotional" ∧
  classifyEmail asciiLowerCase "Summer SALE starts now"
    "Shop <noreply@shop.example>" "noreply@shop.example" ≠ "unknown".
Proof. split; [left; reflexivity|]. split; [reflexivity|done]. Qed.

Example noreply_unsubscribe_newsletter :
  classifyEmail asciiLowerCase "Click to unsubscribe"
    "Updates <no-reply@updates.example>" "no-reply@updates.example"
  = "newsletter".
Proof. reflexivity. Qed.

End LocalClassifierProofs.

Module DatabaseProofs.
Import Js Database DatabaseNotions.

Lemma deleteMany_lookup where_ (table : gmap string EmailRow) id :
  (deleteMany where_ table).2 !! id =
    match table !! id with
    | Some row => if where_ id row then None else Some row
    | None => None
    end.
Proof.
  unfold deleteMany. cbn [snd].
  destruct (table !! id) as [row|] eqn:Hrow.
  - destruct (where_ id row) eqn:Hw.
    + apply map_lookup_filter_None. right. intros row' Hrow'. simpl.
      rewrite Hrow in Hrow'. injection Hrow' as <-. by rewrite Hw.
    + by apply map_lookup_filter_Some.
  - apply map_lookup_filter_None. by left.
Qed.

(** C4.  [cleanupEmailsInRange] deletes a stored message exactly when it
    belongs to the user, its id is not among the processed ids and, for a
    time-bounded sync, its date lies in [startDate, endDate]; every other
    row stays as it was.  So a message dated outside the window of a
    bounded sync is never deleted, and an unbounded sync deletes all of
    the user's messages that were not processed. *)
Theorem cleanup_boundary userEmail validGmailIds syncRange
    (table : gmap string EmailRow) id row :
  table !! id = Some row →
  let table' := (cleanupEmailsInRange userEmail validGmailIds syncRange table).2 in
  (table' !! id = None ↔
     row_userEmail row = userEmail ∧ (id ∉ validGmailIds) ∧
     (match startDate syncRange with
      | Some start => start ≤ row_date row ≤ endDate syncRange
      | None => True
      end)) ∧
  (table' !! id = None ∨ table' !! id = Some row) ∧
  (∀ start, startDate syncRange = Some start →
     ¬ (start ≤ row_date row ≤ endDate syncRange) → table' !! id = Some row) ∧
  (startDate syncRange = None →
     row_userEmail row = userEmail → id ∉ validGmailIds → table' !! id = None).
Proof.
  intros Hrow table'.
  assert (Hiff : cleanupWhere userEmail validGmailIds syncRange id row = true ↔
     row_userEmail row = userEmail ∧ (id ∉ validGmailIds) ∧
     (match startDate syncRange with
      | Some start => start ≤ row_date row ≤ endDate syncRange
      | None => True
      end)).
  { unfold cleanupWhere, notIn. destruct (startDate syncRange) as [start|].
    - rewrite !andb_true_iff, !bool_decide_eq_true. tauto.
    - rewrite !andb_true_iff, !bool_decide_eq_true. tauto. }
  assert (Hl : table' !! id =
     if cleanupWhere userEmail validGmailIds syncRange id row then None else Some row).
  { unfold table', cleanupEmailsInRange. by rewrite deleteMany_lookup, Hrow. }
  destruct (cleanupWhere userEmail validGmailIds syncRange id row) eqn:Hw;
    rewrite Hl.
  - split; [split; [intros _; by apply Hiff | done]|].
    split; [by left|]. split.
    + intros start Hs Hout. apply proj1 in Hiff. specialize (Hiff eq_refl).
      rewrite Hs in Hiff. tauto.
    + done.
  - split; [split; [done|]|].
    + intros H. apply Hiff in H. done.
    + split; [by right|]. split; [done|].
      intros Hs Hu Hv. rewrite Hs in Hiff.
      assert (false = true) by (apply Hiff; done). done.
Qed.

Lemma cleanup_boundary_witness :
  threeRows !! "before" = Some (storedAt "me@example.com" 10) ∧
  (cleanupEmailsInRange "me@example.com" ["kept"] lastWeek threeRows).2
    !! "before" = Some (storedAt "me@example.com" 10).
Proof.
  split; [reflexivity|].
  destruct (cleanup_boundary "me@example.com" ["kept"] lastWeek threeRows
              "before" (storedAt "me@example.com" 10) eq_refl)
    as (_ & _ & Hout & _).
  apply (Hout 500 eq_refl). cbn. lia.
Defined.

Example cleanup_three_rows :
  (cleanupEmailsInRange "me@example.com" ["kept"] lastWeek threeRows).1 = 1%nat ∧
  dom (cleanupEmailsInRange "me@example.com" ["kept"] lastWeek threeRows).2
    = {["before"; "kept"]} ∧
  dom (cleanupEmailsInRange "me@example.com" ["kept"]
         {| startDate := None; endDate := 5000 |} threeRows).2
    = {["kept"]}.
Proof. repeat split; by vm_compute. Qed.

Lemma upsertEmail_lookup userEmail now (table : gmap string EmailRow) email id :
  upsertEmail userEmail now table email !! id =
    if decide (gmailId email = id)
    then Some (mergeRow userEmail now email (table !! id))
    else table !! id.
Proof.
  unfold upsertEmail. destruct (decide (gmailId email = id)) as [<-|Hne].
  - by rewrite lookup_insert_eq.
  - by rewrite lookup_insert_ne.
Qed.

Lemma orKeep_idem {A} (new old : option A) :
  orKeep new (orKeep new old) = orKeep new old.
Proof. by destruct new. Qed.

Lemma orKeep_self {A} (new : option A) : orKeep new new = new.
Proof. by destruct new. Qed.

(** Writing the same message again changes nothing but [lastSynced]. *)
Lemma updateRow_mergeRow userEmail now now' email old :
  updateRow now' email (mergeRow userEmail now email old)
  = updateRow now' email (mergeRow userEmail now' email old).
Proof. destruct old; done. Qed.

Lemma updateRow_merged userEmail now email old :
  updateRow now email (mergeRow userEmail now email old)
  = mergeRow userEmail now email old.
Proof.
  destruct old as [row|]; unfold mergeRow, updateRow, createRow; cbn;
    by rewrite ?orKeep_idem, ?orKeep_self.
Qed.



Section Upserts.
Variable fetch : string → option EmailData.
Variable userEmail : string.

(** The table after a batch in which every message is the one the remote
    holds under its id: a listed id has the merged row, the others have not
    changed. *)
Lemma createOrUpdateEmails_lookup now batch : ∀ (table : gmap string EmailRow) id,
  (∀ email, email ∈ batch → fetch (gmailId email) = Some email) →
  createOrUpdateEmails userEmail now batch table !! id =
    if decide (id ∈ map gmailId batch)
    then (λ email, mergeRow userEmail now email (table !! id)) <$> fetch id
    else table !! id.
Proof.
  unfold createOrUpdateEmails.
  induction batch as [|e0 batch IH]; intros table id Hecho; cbn [foldl map].
  - rewrite decide_False; [done | apply not_elem_of_nil].
  - rewrite IH by (intros; apply Hecho; by right).
    rewrite upsertEmail_lookup.
    destruct (decide (gmailId e0 = id)) as [<-|Hne].
    + rewrite (decide_True (P := gmailId e0 ∈ gmailId e0 :: _)) by left.
      rewrite (Hecho e0) by left. simpl.
      destruct (decide (gmailId e0 ∈ map gmailId batch)); [|done].
      cbn. f_equal. apply (updateRow_merged userEmail now e0).
    + destruct (decide (id ∈ map gmailId batch)) as [Hin|Hout].
      * rewrite decide_True; [done | by right].
      * rewrite decide_False; [done|].
        intros [?|?]%elem_of_cons; [by subst | done].
Qed.

Lemma cleanupWhere_processed validGmailIds syncRange id row :
  id ∈ validGmailIds →
  cleanupWhere userEmail validGmailIds syncRange id row = false.
Proof.
  intros Hin. unfold cleanupWhere, notIn.
  rewrite (bool_decide_false (id ∉ validGmailIds)) by tauto.
  destruct (startDate syncRange); by rewrite andb_false_r.
Qed.


End Upserts.

End DatabaseProofs.

Module SyncProofs.
Import Js Database Sync DatabaseNotions SyncNotions DatabaseProofs.

Lemma concat_slicesFrom {A} (n : nat) : ∀ fuel (l : list A),
  (0 < n)%nat → (length l ≤ fuel)%nat → concat (slicesFrom fuel n l) = l.
Proof.
  induction fuel as [|fuel IH]; intros l Hn Hlen.
  - destruct l; [done | simpl in Hlen; lia].
  - destruct l as [|x l]; [done|]. cbn [slicesFrom concat].
    rewrite IH; [apply take_drop | done |].
    rewrite length_drop. simpl in *. lia.
Qed.

Lemma concat_slices {A} (n : nat) (l : list A) :
  (0 < n)%nat → concat (slices n l) = l.
Proof. intros Hn. by apply concat_slicesFrom. Qed.

Lemma slices_nil_inv {A} (n : nat) (l : list A) : slices n l = [] → l = [].
Proof. by destruct l. Qed.

Lemma omap_concat {A B} (f : A → option B) (ls : list (list A)) :
  omap f (concat ls) = concat (map (omap f) ls).
Proof.
  induction ls as [|l ls IH]; [done|]. simpl. by rewrite omap_app, IH.
Qed.

(** Fetching in chunks of ten is fetching message by message. *)
Lemma processBatch_omap env messageIds :
  processBatch env messageIds = omap (fetch env) messageIds.
Proof.
  unfold processBatch. rewrite <- omap_concat. by rewrite concat_slices by lia.
Qed.

Lemma createOrUpdateEmails_app userEmail now b1 b2 table :
  createOrUpdateEmails userEmail now (b1 ++ b2) table
  = createOrUpdateEmails userEmail now b2
      (createOrUpdateEmails userEmail now b1 table).
Proof. unfold createOrUpdateEmails. apply foldl_app. Qed.

Lemma fetched_slices env (n : nat) messageIds :
  (0 < n)%nat → fetched env (slices n messageIds) = omap (fetch env) messageIds.
Proof.
  intros Hn. unfold fetched.
  rewrite (list_fmap_ext (processBatch env) (omap (fetch env)))
    by (intros; apply processBatch_omap).
  rewrite <- omap_concat. by rewrite concat_slices.
Qed.

Lemma faultAt_None env k stage : fault env k = None → faultAt env k stage = None.
Proof. unfold faultAt. by intros ->. Qed.


Section Loop.
Variable env : Env.
Variable userEmail : string.
Variable options : SyncOptions.
Variable sid : string.

Lemma LoopPost_refl p : LoopPost env userEmail sid [] p p.
Proof.
  constructor; simpl; try done; [lia | by rewrite app_nil_r].
Qed.

Lemma LoopPost_trans l1 l2 p1 p2 p3 :
  LoopPost env userEmail sid l1 p1 p2 → LoopPost env userEmail sid l2 p2 p3 → LoopPost env userEmail sid (l1 ++ l2) p1 p3.
Proof.
  intros [e1 t1 i1 s1] [e2 t2 i2 s2]. constructor.
  - by rewrite e2, e1, createOrUpdateEmails_app.
  - rewrite t2, t1, length_app. lia.
  - by rewrite i2, i1, map_app, app_assoc.
  - auto.
Qed.

Lemma alter_is_Some (f : SyncSession → SyncSession)
    (m : gmap string SyncSession) k k' :
  is_Some (m !! k') → is_Some (alter f k m !! k').
Proof.
  intros [s Hs]. destruct (decide (k = k')) as [->|Hne].
  - rewrite lookup_alter_eq, Hs. by eexists.
  - rewrite lookup_alter_ne by done. by eexists.
Qed.

(** A batch whose body does not throw. *)
Lemma batchBody_ok k batch p :
  fault env k = None →
  ∃ p', batchBody env userEmail options sid k batch p = (None, p') ∧
        LoopPost env userEmail sid (processBatch env batch) p p'.
Proof.
  intros Hf. unfold batchBody. rewrite !faultAt_None by done.
  eexists. split; [reflexivity|].
  constructor; cbn; try done. apply alter_is_Some.
Qed.


(** The loop when no batch throws: every batch is persisted. *)
Lemma batchLoop_ok batches : ∀ start p,
  (∀ j, fault env j = None) →
  ∃ p', batchLoop env userEmail options sid start batches p = (None, p') ∧
        LoopPost env userEmail sid (fetched env batches) p p'.
Proof.
  induction batches as [|batch rest IH]; intros start p Hf; cbn [batchLoop].
  - exists p. split; [done|]. apply LoopPost_refl.
  - destruct (batchBody_ok start batch p (Hf start)) as (p1 & -> & H1).
    destruct (IH (S start) p1 Hf) as (p2 & -> & H2).
    exists p2. split; [done|].
    unfold fetched. cbn [map concat]. by eapply LoopPost_trans.
Qed.


End Loop.

Lemma session_after_update sid u db :
  is_Some (syncSessions db !! sid) →
  ∃ s, syncSessions (updateSyncSession sid u db) !! sid
       = Some (applySessionUpdates u s).
Proof.
  intros [s Hs]. exists s. unfold updateSyncSession. cbn.
  by rewrite lookup_alter_eq, Hs.
Qed.

Lemma upsertEmail_dom userEmail now (table : gmap string EmailRow) email :
  dom (upsertEmail userEmail now table email) = {[gmailId email]} ∪ dom table.
Proof. unfold upsertEmail. by rewrite dom_insert_L. Qed.

Lemma createOrUpdateEmails_dom userEmail now batch :
  ∀ table : gmap string EmailRow,
  dom (createOrUpdateEmails userEmail now batch table)
  = list_to_set (map gmailId batch) ∪ dom table.
Proof.
  unfold createOrUpdateEmails.
  induction batch as [|email batch IH]; intros table; cbn [foldl map list_to_set].
  - by rewrite (left_id_L ∅ (∪)).
  - rewrite IH, upsertEmail_dom, (assoc_L (∪)).
    by rewrite (comm_L (∪) (list_to_set _) {[gmailId email]}).
Qed.


Lemma started_session env userEmail options db0 :
  is_Some (syncSessions (started env userEmail options db0) !! newSessionId env).
Proof. unfold started. cbn. rewrite lookup_insert_eq. by eexists. Qed.

Lemma started_emails env userEmail options db0 :
  emails (started env userEmail options db0) = emails db0.
Proof. done. Qed.



(** A run in which the listing is not empty and nothing throws: all
    fetched messages are upserted, then the orphans are cleaned up. *)
Lemma syncEmails_ok env userEmail options db0 messageIds :
  listing env (buildSearchQuery options) = inr messageIds →
  messageIds ≠ [] →
  (∀ j, fault env j = None) →
  let processed := omap (fetch env) messageIds in
  let cleaned :=
    cleanupEmailsInRange userEmail (map gmailId processed) (syncRange env)
      (createOrUpdateEmails userEmail (now env) processed (emails db0)) in
  ∃ db',
    syncEmails env userEmail options db0 =
      (inr {| success := true;
              totalEmails := Z.of_nat (length processed);
              newEmails := Z.of_nat (length processed);
              deletedEmails := Z.of_nat cleaned.1;
              sessionId := Some (newSessionId env) |}, db') ∧
    (∃ s, syncSessions db' !! newSessionId env = Some s ∧
          s_status s = "completed") ∧
    emails db' = cleaned.2.
Proof.
  intros Hlist Hne Hf processed cleaned.
  unfold syncEmails. fold (started env userEmail options db0).
  unfold syncBody. rewrite Hlist.
  rewrite bool_decide_false by (by destruct messageIds).
  set (p0 := {| db := updateSyncSession _ _ _; totalProcessed := 0;
                allProcessedGmailIds := [] |}).
  destruct (batchLoop_ok env userEmail options (newSessionId env)
              (slices 100 messageIds) 1 p0 Hf) as (p' & -> & Hpost).
  rewrite fetched_slices in Hpost by lia. fold processed in Hpost.
  destruct Hpost as [He Ht Hi Hs]. cbn in He, Ht, Hi.
  rewrite Ht, Hi, He. fold cleaned.
  eexists. split; [reflexivity|]. split; [|done].
  destruct (session_after_update (newSessionId env)
    {| u_status := Some "completed"; u_emailsProcessed := None;
       u_totalEmails := None; u_currentBatch := None;
       u_totalBatches := None; u_errorMessage := None;
       u_completedAt := Some (now env) |}
    (setEmails cleaned.2 (db p'))) as [s Hlook].
  { cbn. apply Hs. unfold p0. cbn. apply alter_is_Some, started_session. }
  eexists. split; [exact Hlook|]. done.
Qed.

Lemma omap_fetch_echo (fetch : string → option EmailData)
    (messageIds : list string) :
  (∀ id email, fetch id = Some email → gmailId email = id) →
  ∀ email, email ∈ omap fetch messageIds → fetch (gmailId email) = Some email.
Proof.
  intros Hecho email (id & _ & Hf)%list_elem_of_omap.
  by rewrite (Hecho id email Hf).
Qed.



(** ** A small mailbox *)

Example sample_query :
  buildSearchQuery sampleOptions
  = "newer_than:7d -in:spam -in:trash smaller:52428800".
Proof. reflexivity. Qed.

Example sample_run :
  let run := syncEmails (sampleEnv ["m1"; "m2"; "m3"] (λ _, None))
               "me@example.com" sampleOptions sampleDb in
  run.1 = inr {| success := true; totalEmails := 2; newEmails := 2;
                 deletedEmails := 1; sessionId := Some "session-1" |} ∧
  dom (emails run.2) = {["m1"; "m2"; "old"]}.
Proof. split; [by vm_compute|]. by vm_compute. Qed.


Example failed_run_keeps_messages :
  dom (emails (syncEmails (sampleEnv ["m1"; "m2"; "m3"] lockedAtFirst)
                 "me@example.com" sampleOptions sampleDb).2)
  = {["m1"; "m2"; "gone"; "old"]}.
Proof. by vm_compute. Qed.


(** C7 at an empty listing: the session "session-1" is created and
    completed with no messages, and the summary that is returned holds no
    session id, where the summary of a run with messages holds it. *)
Lemma empty_listing_returns_no_session_id :
  let run := syncEmails (sampleEnv [] (λ _, None))
               "me@example.com" sampleOptions sampleDb in
  run.1 = inr {| success := true; totalEmails := 0; newEmails := 0;
                 deletedEmails := 0; sessionId := None |} ∧
  s_status <$> syncSessions run.2 !! "session-1" = Some "completed" ∧
  s_totalEmails <$> syncSessions run.2 !! "session-1" = Some (Some 0) ∧
  sessionId <$> (match (syncEmails (sampleEnv ["m1"] (λ _, None))
                          "me@example.com" sampleOptions sampleDb).1 with
                 | inr r => Some r
                 | inl _ => None
                 end) = Some (Some "session-1").
Proof. repeat split; by vm_compute. Qed.

End SyncProofs.

Module AnalyzerProofs.
Import Js Analyzer AnalyzerNotions.

(** ** Code fences *)

Lemma append_cons c s t : String c s +:+ t = String c (s +:+ t).
Proof. done. Qed.









(** ** The array branch *)






(** ** Low-confidence positions and the splice *)

Lemma lowConfidenceEmails_lowFrom emails results :
  lowConfidenceEmails emails results = lowFrom emails 0 results.
Proof. done. Qed.

Lemma lowFrom_cons emails off r results :
  lowFrom emails off (r :: results) =
    (if lowConfidence r
     then option_list ((λ email, (off, email)) <$> emails !! off)
     else []) ++ lowFrom emails (S off) results.
Proof.
  unfold lowFrom. rewrite imap_cons. cbn [omap list_omap].
  rewrite Nat.add_0_r.
  rewrite (imap_ext _ (λ i result, ((S off + i)%nat, result)))
    by (intros; cbn; f_equal; lia).
  destruct (lowConfidence r); [|done]. by destruct (emails !! off).
Qed.

Lemma lowFrom_elem emails results : ∀ off index email,
  (index, email) ∈ lowFrom emails off results →
  (off ≤ index)%nat ∧ emails !! index = Some email ∧
  ∃ r, results !! (index - off)%nat = Some r ∧ lowConfidence r = true.
Proof.
  induction results as [|r results IH]; intros off index email.
  - by intros ?%elem_of_nil.
  - rewrite lowFrom_cons. intros [Hhead|Htail]%elem_of_app.
    + destruct (lowConfidence r) eqn:Hr; [|by apply elem_of_nil in Hhead].
      destruct (emails !! off) as [e|] eqn:He; [|by apply elem_of_nil in Hhead].
      apply list_elem_of_singleton in Hhead as [= -> ->].
      split; [lia|]. split; [done|]. exists r. by rewrite Nat.sub_diag.
    + destruct (IH _ _ _ Htail) as (Hle & He & r' & Hr' & Hlow).
      split; [lia|]. split; [done|]. exists r'. split; [|done].
      by replace (index - off)%nat with (S (index - S off)) by lia.
Qed.

Lemma lowFrom_NoDup emails results : ∀ off,
  NoDup (lowFrom emails off results).*1.
Proof.
  induction results as [|r results IH]; intros off; [constructor|].
  rewrite lowFrom_cons, fmap_app. apply NoDup_app. split; [|split].
  - destruct (lowConfidence r); [|constructor].
    destruct (emails !! off); [apply NoDup_singleton | constructor].
  - intros index Hhead [[index' email] [-> Hin]]%list_elem_of_fmap.
    apply lowFrom_elem in Hin as [Hle _]. cbn in *.
    destruct (lowConfidence r); [|by apply elem_of_nil in Hhead].
    destruct (emails !! off); [|by apply elem_of_nil in Hhead].
    apply list_elem_of_singleton in Hhead. cbn in Hhead. lia.
  - apply IH.
Qed.

(** The messages handed to the second pass are those whose first result
    is low, in order. *)
Lemma lowFrom_emails emails results : ∀ off,
  (off + length results ≤ length emails)%nat →
  (lowFrom emails off results).*2 =
  (filter (λ er, lowConfidence er.2 = true) (zip (drop off emails) results)).*1.
Proof.
  induction results as [|r results IH]; intros off Hlen.
  - by rewrite zip_with_nil_r.
  - cbn [length] in Hlen.
    destruct (lookup_lt_is_Some_2 emails off) as [e He]; [lia|].
    rewrite lowFrom_cons, He, fmap_app, IH by lia.
    rewrite (drop_S _ _ _ He). cbn [zip_with]. rewrite filter_cons. cbn [snd].
    destruct (lowConfidence r); [by rewrite decide_True | by rewrite decide_False].
Qed.

Lemma lowFrom_rank emails results : ∀ off i r,
  (off + length results ≤ length emails)%nat →
  results !! i = Some r → lowConfidence r = true →
  ∃ email, emails !! (off + i)%nat = Some email ∧
    lowFrom emails off results !! rank results i = Some ((off + i)%nat, email).
Proof.
  unfold rank.
  induction results as [|r0 results IH]; intros off i r Hlen Hi Hlow; [done|].
  cbn [length] in Hlen.
  destruct (lookup_lt_is_Some_2 emails off) as [e He]; [lia|].
  rewrite lowFrom_cons, He. destruct i as [|i].
  - injection Hi as ->. rewrite Hlow, Nat.add_0_r. by exists e.
  - destruct (IH (S off) i r ltac:(lia) Hi Hlow) as (email & Hemail & Hlook).
    rewrite <- Nat.add_succ_comm. exists email. split; [done|].
    cbn [take]. rewrite filter_cons. destruct (lowConfidence r0).
    + by rewrite decide_True.
    + by rewrite decide_False.
Qed.

Lemma splice_snoc low enhanced e final :
  splice low (enhanced ++ [e]) final =
    match low !! length enhanced with
    | Some (originalIndex, _) =>
        <[originalIndex := markFollowUp e]> (splice low enhanced final)
    | None => splice low enhanced final
    end.
Proof.
  unfold splice. rewrite imap_app, foldl_app. cbn. by rewrite Nat.add_0_r.
Qed.

Lemma splice_length low enhanced final :
  length (splice low enhanced final) = length final.
Proof.
  induction enhanced as [|e enhanced IH] using rev_ind; [done|].
  rewrite splice_snoc. destruct (low !! _) as [[idx ?]|]; [|done].
  by rewrite length_insert.
Qed.

(** Positions that are not flagged keep their result. *)
Lemma splice_other low enhanced final j :
  j ∉ low.*1 → splice low enhanced final !! j = final !! j.
Proof.
  intros Hj. induction enhanced as [|e enhanced IH] using rev_ind; [done|].
  rewrite splice_snoc. destruct (low !! _) as [[idx email]|] eqn:Hk; [|done].
  rewrite list_lookup_insert_ne; [done|]. intros ->. apply Hj.
  apply list_elem_of_fmap. exists (j, email). split; [done|].
  by eapply list_elem_of_lookup_2.
Qed.

(** A flagged position gets the marked result of the second pass. *)
Lemma splice_at low enhanced final k idx email e :
  NoDup low.*1 →
  low !! k = Some (idx, email) → enhanced !! k = Some e →
  (idx < length final)%nat →
  splice low enhanced final !! idx = Some (markFollowUp e).
Proof.
  intros Hnd Hk. revert e.
  induction enhanced as [|e' enhanced IH] using rev_ind; intros e He Hidx; [done|].
  rewrite splice_snoc.
  destruct (decide (k = length enhanced)) as [->|Hne].
  - rewrite Hk. rewrite lookup_app_r, Nat.sub_diag in He by lia.
    injection He as <-.
    by rewrite list_lookup_insert_eq by (by rewrite splice_length).
  - apply lookup_lt_Some in He as Hlt. rewrite length_app in Hlt. cbn in Hlt.
    rewrite lookup_app_l in He by lia.
    destruct (low !! length enhanced) as [[idx' email']|] eqn:Hk'; [|by apply IH].
    rewrite list_lookup_insert_ne; [by apply IH|].
    intros ->. apply Hne.
    apply (NoDup_lookup low.*1 k (length enhanced) idx Hnd).
    + by rewrite list_lookup_fmap, Hk.
    + by rewrite list_lookup_fmap, Hk'.
Qed.

Section ParseProofs.
Variable JSON_parse : string → option json.

Lemma parseBatchTry_length response expectedCount results :
  parseBatchTry JSON_parse response expectedCount = Some results →
  length results = expectedCount.
Proof.
  unfold parseBatchTry.
  destruct (JSON_parse _) as [parsed|]; [|done]. cbn.
  assert (Hrep : Some (replicate expectedCount parsed) = Some results →
                 length results = expectedCount)
    by (intros [= <-]; apply length_replicate).
  destruct parsed; try exact Hrep.
  intros Hm%length_mapM. by rewrite <- Hm, length_seq.
Qed.

Lemma parseBatchAnalysisResult_length response expectedCount :
  length (parseBatchAnalysisResult JSON_parse response expectedCount)
  = expectedCount.
Proof.
  unfold parseBatchAnalysisResult.
  destruct (parseBatchTry _ _ _) as [results|] eqn:Htry.
  - by eapply parseBatchTry_length.
  - apply length_replicate.
Qed.


(** ** Token accounting *)

Lemma analyzeWith_length k cap perEmail emails mode w :
  length (analyzeWith JSON_parse k cap perEmail emails mode w).1 = length emails.
Proof.
  unfold analyzeWith, send. cbn.
  destruct (answer w _ _); cbn.
  - by rewrite length_map, parseBatchAnalysisResult_length.
  - by rewrite length_map.
Qed.

Lemma analyzeWith_calls k cap perEmail emails mode w :
  calls (analyzeWith JSON_parse k cap perEmail emails mode w).2 =
  calls w ++ [{| kind := k; batch := emails; callMode := mode;
                 max_tokens := Z.min cap (Z.of_nat (length emails) * perEmail) |}].
Proof. done. Qed.


Lemma Math_round_div_near a n :
  0 < n → 2 * Z.abs (n * Math_round_div a n - a) ≤ n.
Proof.
  intros Hn. unfold Math_round_div.
  pose proof (Z.mul_div_le (2 * a + n) (2 * n) ltac:(lia)).
  pose proof (Z.mul_succ_div_gt (2 * a + n) (2 * n) ltac:(lia)).
  lia.
Qed.

(** C10.  A batch of [n >= 1] messages analysed outside auto mode whose
    call to the model succeeds with [I] input and [O] output tokens:
    every result carries the usage round(I/n), round(O/n),
    round((I+O)/n); the running totals grow by [n] times these shares and
    the request count by one; and [n] times a share is within [n/2] of
    the tokens consumed. *)
Theorem token_accounting emails mode w total text I O sI sO sT :
  emails ≠ [] →
  mode ≠ "auto" →
  answer w (length (calls w))
    {| kind := Headers; batch := emails; callMode := mode;
       max_tokens := Z.min 4000 (Z.of_nat (length emails) * 100) |}
  = Responded text I O →
  sumInputTokens total = Some sI →
  sumOutputTokens total = Some sO →
  sumTotalTokens total = Some sT →
  let n := Z.of_nat (length emails) in
  let run := analyzeBatch JSON_parse mode emails total w in
  length run.1.1 = length emails ∧
  (∀ result, result ∈ run.1.1 →
     tokenUsage result =
       Some {| inputTokens := Some (Math_round_div I n);
               outputTokens := Some (Math_round_div O n);
               totalTokens := Some (Math_round_div (I + O) n);
               followUpRequest := false |}) ∧
  sumInputTokens run.1.2 = Some (sI + Math_round_div I n * n) ∧
  sumOutputTokens run.1.2 = Some (sO + Math_round_div O n * n) ∧
  sumTotalTokens run.1.2 = Some (sT + Math_round_div (I + O) n * n) ∧
  requestCount run.1.2 = requestCount total + 1 ∧
  2 * Z.abs (n * Math_round_div I n - I) ≤ n ∧
  2 * Z.abs (n * Math_round_div O n - O) ≤ n ∧
  2 * Z.abs (n * Math_round_div (I + O) n - (I + O)) ≤ n.
Proof.
  intros Hne Hmode Hans HsI HsO HsT n run.
  assert (Hn : 0 < n) by (unfold n; destruct emails; [done | simpl; lia]).
  unfold run, analyzeBatch. rewrite bool_decide_false by done.
  unfold analyzeBatchEmailsWithClaude, analyzeWith, send.
  rewrite Hans. cbn [fst snd]. fold n.
  set (share := {| inputTokens := _; outputTokens := _; totalTokens := _;
                   followUpRequest := false |}).
  set (parsed := parseBatchAnalysisResult JSON_parse text (length emails)).
  assert (Hlen : length parsed = length emails)
    by apply parseBatchAnalysisResult_length.
  split; [by rewrite length_map|].
  split.
  { intros result (r & -> & _)%list_elem_of_fmap. done. }
  destruct parsed as [|r parsed]; [by destruct emails|].
  cbn [map aggregateBatchUsage tokenUsage]. rewrite HsI, HsO, HsT.
  cbn [sumInputTokens sumOutputTokens sumTotalTokens requestCount addShare
       share inputTokens outputTokens totalTokens].
  cbn [length]. rewrite length_map.
  assert (Hcount : Z.of_nat (S (length parsed)) = n)
    by (unfold n; by rewrite <- Hlen).
  rewrite Hcount.
  repeat split; try done; by apply Math_round_div_near.
Qed.

(** ** Progressive analysis *)

Lemma analyzeWith_unmarked k cap perEmail emails mode w r :
  r ∈ (analyzeWith JSON_parse k cap perEmail emails mode w).1 →
  followUpRequest <$> tokenUsage r ≠ Some true.
Proof.
  unfold analyzeWith, send. cbn. destruct (answer w _ _); cbn.
  - by intros (? & -> & _)%list_elem_of_fmap.
  - by intros (? & -> & _)%list_elem_of_fmap.
Qed.

Lemma markFollowUp_marked enhanced :
  followUpRequest <$> tokenUsage (markFollowUp enhanced) = Some true.
Proof. unfold markFollowUp. cbn. by destruct (tokenUsage enhanced). Qed.

Lemma analyzeEmailsProgressively_unfold emails mode w :
  analyzeEmailsProgressively JSON_parse emails mode w =
    let first := analyzeBatchEmailsWithClaude JSON_parse emails mode w in
    let low := lowConfidenceEmails emails first.1 in
    if bool_decide (length low = 0%nat) then first
    else
      let second := analyzeEmailsWithSnippets JSON_parse low.*2 mode first.2 in
      (splice low second.1 first.1, second.2).
Proof.
  unfold analyzeEmailsProgressively.
  destruct (analyzeBatchEmailsWithClaude JSON_parse emails mode w)
    as [initial w1].
  cbn [fst snd]. case_bool_decide; [done|].
  by destruct (analyzeEmailsWithSnippets JSON_parse _ mode w1).
Qed.

(** C1.  [analyzeEmailsProgressively] makes the header-only call on the
    whole batch.  With [flagged] the messages whose first result has
    confidence low: if there is none, the first results are returned and
    no other call is made; otherwise one more call is made, the snippet
    call on exactly [flagged].  In the list returned, a position whose
    first result is not low holds that result unchanged, and a position
    whose first result is low holds the result the second pass gave for
    that message, with [followUpRequest] set in its token usage, which no
    first result has. *)
Theorem progressive_splice emails mode w :
  let first := analyzeBatchEmailsWithClaude JSON_parse emails mode w in
  let initialResults := first.1 in
  let flagged :=
    (filter (λ er, lowConfidence er.2 = true) (zip emails initialResults)).*1 in
  let second := analyzeEmailsWithSnippets JSON_parse flagged mode first.2 in
  let run := analyzeEmailsProgressively JSON_parse emails mode w in
  length run.1 = length emails ∧
  (flagged = [] → run = first) ∧
  (flagged ≠ [] → run.2 = second.2) ∧
  calls run.2 =
    calls w ++ headersCall emails mode ::
      match flagged with
      | [] => []
      | _ :: _ => [snippetsCall flagged mode]
      end ∧
  (∀ i r, initialResults !! i = Some r → lowConfidence r = false →
     run.1 !! i = Some r) ∧
  (∀ i r, initialResults !! i = Some r → lowConfidence r = true →
     ∃ enhanced,
       second.1 !! rank initialResults i = Some enhanced ∧
       flagged !! rank initialResults i = emails !! i ∧
       run.1 !! i = Some (markFollowUp enhanced) ∧
       followUpRequest <$> tokenUsage (markFollowUp enhanced) = Some true) ∧
  (∀ r, r ∈ initialResults → followUpRequest <$> tokenUsage r ≠ Some true).
Proof.
  intros first initialResults flagged second run.
  assert (Hlen : length initialResults = length emails)
    by apply analyzeWith_length.
  set (low := lowConfidenceEmails emails initialResults).
  assert (Hflag : low.*2 = flagged).
  { unfold low. rewrite lowConfidenceEmails_lowFrom, lowFrom_emails by lia.
    by rewrite drop_0. }
  assert (Hrun : run = if bool_decide (length low = 0%nat) then first
                       else (splice low second.1 initialResults, second.2)).
  { unfold run. rewrite analyzeEmailsProgressively_unfold. cbn zeta.
    fold first. fold initialResults. fold low. by rewrite Hflag. }
  assert (Hlow0 : length low = 0%nat ↔ flagged = []).
  { rewrite <- Hflag. destruct low; [done|]. split; [done|]. by intros ?. }
  assert (Hsecond : length second.1 = length low).
  { unfold second, analyzeEmailsWithSnippets.
    by rewrite analyzeWith_length, <- Hflag, length_fmap. }
  assert (Hnotlow : ∀ i r, initialResults !! i = Some r →
            lowConfidence r = false → i ∉ low.*1).
  { intros i r Hi Hr [[i' email] [-> Hin]]%list_elem_of_fmap.
    unfold low in Hin. rewrite lowConfidenceEmails_lowFrom in Hin.
    apply lowFrom_elem in Hin as (_ & _ & r' & Hr' & Hlow').
    cbn in *. rewrite Nat.sub_0_r, Hi in Hr'. congruence. }
  split; [|split; [|split; [|split; [|split; [|split]]]]].
  - rewrite Hrun. case_bool_decide; cbn [fst]; [done|].
    by rewrite splice_length.
  - intros Hnone. rewrite Hrun, bool_decide_true; [done|]. by apply Hlow0.
  - intros Hsome. rewrite Hrun, bool_decide_false; [done|]. by rewrite Hlow0.
  - rewrite Hrun. case_bool_decide as H0.
    + apply Hlow0 in H0. rewrite H0. apply analyzeWith_calls.
    + destruct flagged as [|email0 rest] eqn:Hf; [by destruct H0; apply Hlow0|].
      cbn [snd]. unfold second, analyzeEmailsWithSnippets.
      rewrite analyzeWith_calls. unfold first, analyzeBatchEmailsWithClaude.
      rewrite analyzeWith_calls. by rewrite <- app_assoc.
  - intros i r Hi Hr. rewrite Hrun. case_bool_decide; cbn [fst]; [done|].
    rewrite splice_other; [done|]. by eapply Hnotlow.
  - intros i r Hi Hr.
    destruct (lowFrom_rank emails initialResults 0 i r ltac:(lia) Hi Hr)
      as (email & Hemail & Hk).
    cbn [Nat.add] in Hemail, Hk.
    change (lowFrom emails 0 initialResults) with low in Hk.
    destruct (lookup_lt_is_Some_2 second.1 (rank initialResults i))
      as [enhanced Hen].
    { rewrite Hsecond. exact (lookup_lt_Some _ _ _ Hk). }
    exists enhanced. split; [done|]. split.
    { by rewrite <- Hflag, list_lookup_fmap, Hk, Hemail. }
    split; [|apply markFollowUp_marked].
    rewrite Hrun, bool_decide_false.
    + cbn [fst]. eapply splice_at; [|done|done|].
      * unfold low. rewrite lowConfidenceEmails_lowFrom. apply lowFrom_NoDup.
      * exact (lookup_lt_Some _ _ _ Hi).
    + intros H0. apply lookup_lt_Some in Hk. lia.
  - intros r. apply analyzeWith_unmarked.
Qed.

End ParseProofs.

(** ** A small batch *)

Example parse_fenced_object :
  parseBatchAnalysisResult toyParse
    ("```json" +:+ newline +:+ "one object" +:+ newline +:+ "```") 3
  = replicate 3 (JObj (verdict "newsletter" "delete" "high")).
Proof. reflexivity. Qed.

Example parse_not_json :
  parseBatchAnalysisResult toyParse "I am sorry, I cannot help with that" 2
  = [getDefaultAnalysis; getDefaultAnalysis].
Proof. reflexivity. Qed.

(** Three messages, two entries: position 0 has no entry with id 1 and
    takes the entry at index 0, position 1 takes the entry with id 2 (the
    same entry), position 2 gets the default. *)
Example parse_short_array :
  parseBatchAnalysisResult toyParse "  second and unnumbered  " 3
  = [JObj (verdict "newsletter" "delete" "high");
     JObj (verdict "newsletter" "delete" "high");
     getDefaultAnalysis].
Proof. reflexivity. Qed.

(** Reading [id] of a [null] entry throws; the handler answers with the
    default for every position. *)
Example parse_null_entry :
  parseBatchAnalysisResult toyParse "null first" 2
  = [getDefaultAnalysis; getDefaultAnalysis].
Proof. reflexivity. Qed.

Example progressive_run :
  let run := analyzeEmailsProgressively toyParse threeMails "auto" twoPassModel in
  body <$> run.1 =
    [JObj (verdict "personal" "keep" "high");
     JObj (verdict "transactional" "keep" "high");
     JObj (verdict "promotional" "delete" "medium")] ∧
  (λ r, followUpRequest <$> tokenUsage r) <$> run.1 =
    [Some false; Some true; Some true] ∧
  calls run.2 =
    [headersCall threeMails "auto";
     snippetsCall [mail "b" "Your account"; mail "c" "Just for you"] "auto"].
Proof. repeat split; by vm_compute. Qed.

Lemma token_accounting_witness :
  let run := analyzeBatch toyParse "fast" threeMails noUsage twoPassModel in
  length run.1.1 = 3%nat ∧
  sumInputTokens run.1.2 = Some 300 ∧
  sumOutputTokens run.1.2 = Some 90 ∧
  sumTotalTokens run.1.2 = Some 390 ∧
  requestCount run.1.2 = 1.
Proof.
  destruct (token_accounting toyParse threeMails "fast" twoPassModel noUsage
              "high low low" 300 91 0 0 0)
    as (Hlen & _ & Hi & Ho & Ht & Hc & _); try done.
Defined.

(** One token over two messages: each gets round(0.5) = 1, and the total
    recorded is 2. *)
Example share_rounds_up :
  Math_round_div 1 2 = 1 ∧ 2 * Math_round_div 1 2 - 1 = 1.
Proof. done. Qed.

End AnalyzerProofs.

Module ReportProofs.
Import Js Analyzer Report ReportNotions.

Lemma insertSorted_length {A} (cmp : A → A → Z) x l :
  length (insertSorted cmp x l) = S (length l).
Proof.
  induction l as [|y l IH]; [done|]. cbn [insertSorted].
  case_bool_decide; cbn [length]; [done | by rewrite IH].
Qed.

Lemma sort_length {A} (cmp : A → A → Z) (l : list A) :
  length (sort cmp l) = length l.
Proof.
  induction l as [|x l IH]; [done|]. unfold sort in *. cbn [foldr length].
  by rewrite insertSorted_length, IH.
Qed.

Lemma insertSorted_perm {A} (cmp : A → A → Z) x l :
  insertSorted cmp x l ≡ₚ x :: l.
Proof.
  induction l as [|y l IH]; [done|]. cbn [insertSorted].
  case_bool_decide; [done|]. rewrite IH. apply Permutation_swap.
Qed.

Lemma sort_perm {A} (cmp : A → A → Z) (l : list A) : sort cmp l ≡ₚ l.
Proof.
  induction l as [|x l IH]; [done|]. unfold sort in *. cbn [foldr].
  by rewrite insertSorted_perm, IH.
Qed.

Lemma filter_none {A} (P : A → Prop) `{!∀ x, Decision (P x)} (l : list A) :
  (∀ x, x ∈ l → ¬ P x) → filter P l = [].
Proof.
  induction l as [|x l IH]; intros Hnone; [done|].
  rewrite filter_cons, decide_False by (apply Hnone; left).
  apply IH. intros y Hy. apply Hnone. by right.
Qed.

Section Consistency.
Variable extractSenderEmail : string → string.
Variable extractSenderName : string → string.
Variable getTime : string → option Z.

Abbreviation visit := (visit extractSenderEmail extractSenderName).
Abbreviation generateReport :=
  (generateReport extractSenderEmail extractSenderName getTime).

(** What the [forEach] has collected after the entries [analyses]. *)
Lemma visit_all analyses : ∀ acc,
  let acc' := foldl visit acc analyses in
  acc_deletionCandidates acc' =
    acc_deletionCandidates acc ++
    (candidateOf <$> filter (λ e, recommendsDeletion e = true) analyses) ∧
  acc_keepCandidates acc' =
    acc_keepCandidates acc ++
    (candidateOf <$> filter (λ e, recommendsDeletion e = false ∧
                                  recommendsKeep e = true) analyses) ∧
  acc_potentialSavings acc' =
    acc_potentialSavings acc +
    sizes (filter (λ e, recommendsDeletion e = true) analyses) ∧
  acc_totalSize acc' = acc_totalSize acc + sizes analyses.
Proof.
  induction analyses as [|entry analyses IH]; intros acc; cbn zeta.
  - cbn. rewrite !app_nil_r. repeat split; try done; lia.
  - cbn [foldl]. destruct (IH (visit acc entry)) as (Hd & Hk & Hs & Ht).
    rewrite Hd, Hk, Hs, Ht. clear IH Hd Hk Hs Ht.
    rewrite !filter_cons. unfold Report.visit. cbn.
    fold (recommendsDeletion entry). fold (recommendsKeep entry).
    destruct (recommendsDeletion entry) eqn:Hdel.
    + rewrite decide_True by done. rewrite decide_False by (by intros [? _]).
      cbn. rewrite <- !app_assoc. unfold sizes. repeat split; try done; lia.
    + rewrite decide_False by done.
      destruct (recommendsKeep entry) eqn:Hkeep.
      * rewrite decide_True by done. cbn. rewrite <- !app_assoc.
        unfold sizes. repeat split; try done; lia.
      * rewrite decide_False by (by intros [_ ?]). cbn.
        unfold sizes. repeat split; try done; lia.
Qed.

Lemma three_way (analyses : list AnalysisEntry) :
  (length (filter (λ e, recommendsDeletion e = true) analyses) +
   length (filter (λ e, recommendsDeletion e = false ∧
                        recommendsKeep e = true) analyses) +
   length (filter (λ e, recommendsNeither e = true) analyses))%nat
  = length analyses.
Proof.
  induction analyses as [|entry analyses IH]; [done|].
  rewrite !filter_cons.
  assert (Hn : recommendsNeither entry =
               negb (recommendsDeletion entry) && negb (recommendsKeep entry))
    by done.
  destruct (recommendsDeletion entry), (recommendsKeep entry);
    cbn in Hn; rewrite Hn; repeat case_decide; cbn [length];
    try lia; naive_solver.
Qed.

(** C5, as amended.  In the report of [generateReport], the deletion
    candidates, the keep candidates and the analyses whose recommendation
    is none of delete, archive and keep (these are put on neither list)
    add up to [totalEmails], the number of analyses; so the two lists add
    up to [totalEmails] when every recommendation is one of the three.
    [potentialSavings] is the sum of the sizes of the messages recommended
    for delete or archive, and each of these, archive included, is among
    the deletion candidates. *)
Theorem report_consistency analyses config tokenUsage :
  let report := generateReport analyses config tokenUsage in
  (length (deletionCandidates report) + length (keepCandidates report) +
   length (filter (λ e, recommendsNeither e = true) analyses))%nat
  = totalEmails (summary report) ∧
  totalEmails (summary report) = length analyses ∧
  sum_deletionCandidates (summary report) = length (deletionCandidates report) ∧
  sum_keepCandidates (summary report) = length (keepCandidates report) ∧
  sum_potentialSavings (summary report)
  = sizes (filter (λ e, recommendsDeletion e = true) analyses) ∧
  (∀ entry, entry ∈ analyses →
     isString "archive" (prop "cleanupRecommendation" entry) = true →
     candidateOf entry ∈ deletionCandidates report) ∧
  ((∀ entry, entry ∈ analyses → recommendsNeither entry = false) →
   (length (deletionCandidates report) + length (keepCandidates report))%nat
   = totalEmails (summary report)).
Proof.
  intros report.
  destruct (visit_all analyses
    {| acc_deletionCandidates := []; acc_keepCandidates := [];
       acc_newsletterSenders := []; acc_totalSize := 0;
       acc_potentialSavings := 0 |}) as (Hd & Hk & Hs & _).
  cbn [acc_deletionCandidates acc_keepCandidates acc_potentialSavings app]
    in Hd, Hk, Hs.
  assert (Hsum : (length (deletionCandidates report) +
                  length (keepCandidates report) +
                  length (filter (λ e, recommendsNeither e = true) analyses))%nat
                 = length analyses).
  { unfold report, Report.generateReport. cbn [deletionCandidates keepCandidates].
    rewrite !sort_length, Hd, Hk, !length_fmap. apply three_way. }
  split; [exact Hsum|]. split; [done|]. split; [done|]. split; [done|].
  split; [|split].
  - unfold report, Report.generateReport. cbn [summary sum_potentialSavings].
    rewrite Hs. lia.
  - intros entry Hin Harch.
    unfold report, Report.generateReport. cbn [deletionCandidates].
    rewrite sort_perm, Hd. apply list_elem_of_fmap. exists entry.
    split; [done|]. apply list_elem_of_filter. split; [|done].
    unfold recommendsDeletion. by rewrite Harch, orb_true_r.
  - intros Hall. change (totalEmails (summary report)) with (length analyses).
    rewrite <- Hsum, (filter_none (λ e, recommendsNeither e = true)).
    + cbn [length]. lia.
    + intros entry Hin. by rewrite Hall.
Qed.

End Consistency.

(** C5 as stated fails: an analysis whose recommendation is [review] is
    counted in [totalEmails] and is on neither list. *)
Lemma review_on_neither_list :
  length (deletionCandidates (reportOf [entryWith "review" 10])) = 0%nat ∧
  length (keepCandidates (reportOf [entryWith "review" 10])) = 0%nat ∧
  totalEmails (summary (reportOf [entryWith "review" 10])) = 1%nat.
Proof. done. Qed.

Example report_of_three :
  let report := reportOf [entryWith "delete" 10; entryWith "keep" 20;
                          entryWith "archive" 30] in
  length (deletionCandidates report) = 2%nat ∧
  length (keepCandidates report) = 1%nat ∧
  totalEmails (summary report) = 3%nat ∧
  sum_potentialSavings (summary report) = 40 ∧
  sum_totalSize (summary report) = 60.
Proof. done. Qed.

End ReportProofs.

(* ===================================================================== *)
(** * Further properties *)
(* ===================================================================== *)

Module RateLimiterFacts.
Import RateLimiter RateLimiterNotions RateLimiterProofs.

Lemma timerDelay_le ms bound :
  1 ≤ bound → (∀ d, ms = Some d → d ≤ bound) → timerDelay ms ≤ bound.
Proof.
  intros Hb Hd. destruct ms as [d|]; simpl; [|lia].
  case_bool_decide; [by apply Hd | lia].
Qed.

Lemma after_Inv cfg :
  1 ≤ maxRequests cfg → minDelayMs cfg ≤ windowMs cfg →
  windowMs cfg + 100 ≤ TIMEOUT_MAX →
  ∀ tms pre clock requests,
  Inv cfg pre clock requests →
  Z.of_nat (length requests) ≤ maxRequests cfg + 1 →
  ∃ pre', Inv cfg pre' (after cfg tms clock requests).1
                       (after cfg tms clock requests).2 ∧
          Z.of_nat (length (after cfg tms clock requests).2) ≤ maxRequests cfg + 1.
Proof.
  intros HM Hd Hw.
  induction tms as [|tm tms IH]; intros pre clock requests HI Hlen; cbn [after].
  - by exists pre.
  - pose proof (waitIfNeeded_Inv cfg HM Hd Hw tm _ _ _ HI) as HI'.
    destruct (waitIfNeeded_stamp cfg HM Hd Hw tm _ _ _ HI) as (Hreq & HR & _).
    assert (Hlen' : Z.of_nat (length (waitIfNeeded cfg tm clock requests).2)
                    ≤ maxRequests cfg + 1).
    { rewrite Hreq, length_app. cbn [length]. rewrite HR.
      set (now := clock + Z.of_N (arrival tm)).
      rewrite (filter_ext_elem _
        (λ t, now - windowMs cfg + 1 ≤ t < now - windowMs cfg + 1 + windowMs cfg)).
      - pose proof (inv_win _ _ _ _ HI (now - windowMs cfg + 1)). lia.
      - intros t Ht. pose proof (inv_le _ _ _ _ HI t Ht). unfold now. lia. }
    destruct (waitIfNeeded cfg tm clock requests) as [stamp requests'].
    cbn [fst snd] in *. by eapply IH.
Qed.

(** X1.  After any sequence of [waitIfNeeded()] calls on a limiter whose
    configuration has [maxRequests >= 1], [minDelayMs <= windowMs] and a
    window that fits a timer, [getStatus()] read at or after the end of
    the last call never reports more than [maxRequests] requests in the
    window, and [this.requests] never holds more than [maxRequests + 1]
    time stamps. *)
Theorem status_within_limit cfg t0 tms now :
  1 ≤ maxRequests cfg →
  minDelayMs cfg ≤ windowMs cfg →
  windowMs cfg + 100 ≤ TIMEOUT_MAX →
  (after cfg tms t0 []).1 ≤ now →
  Z.of_nat (requestsInWindow cfg now (after cfg tms t0 []).2) ≤ maxRequests cfg ∧
  Z.of_nat (length (after cfg tms t0 []).2) ≤ maxRequests cfg + 1.
Proof.
  intros HM Hd Hw Hnow.
  destruct (after_Inv cfg HM Hd Hw tms [] t0 []) as (pre & HI & Hlen).
  { by apply Inv_init. }
  { simpl. lia. }
  split; [|done]. unfold requestsInWindow.
  rewrite (inv_req _ _ _ _ HI now Hnow).
  rewrite (filter_ext_elem _
    (λ t, now - windowMs cfg + 1 ≤ t < now - windowMs cfg + 1 + windowMs cfg)).
  - apply (inv_win _ _ _ _ HI).
  - intros t Ht. pose proof (inv_le _ _ _ _ HI t Ht). lia.
Qed.

Lemma status_within_limit_witness :
  Z.of_nat (requestsInWindow smallConfig 1110
              (after smallConfig [atOnce; atOnce; atOnce] 0 []).2) ≤ 2 ∧
  Z.of_nat (length (after smallConfig [atOnce; atOnce; atOnce] 0 []).2) ≤ 3.
Proof.
  apply (status_within_limit smallConfig 0 [atOnce; atOnce; atOnce] 1110).
  - simpl. lia.
  - simpl. lia.
  - unfold TIMEOUT_MAX. simpl. lia.
  - vm_compute. discriminate.
Defined.

Lemma waitIfNeeded_after_entry cfg tm clock requests :
  clock + Z.of_N (arrival tm) + Z.of_N (lateRecord tm)
  ≤ (waitIfNeeded cfg tm clock requests).1.
Proof.
  unfold waitIfNeeded. cbn [fst].
  set (now := clock + Z.of_N (arrival tm)).
  set (R := filter _ requests).
  set (clock1 := if bool_decide (maxRequests cfg ≤ Z.of_nat (length R)) then _ else _).
  assert (H1 : now ≤ clock1).
  { unfold clock1. case_bool_decide; [|lia].
    destruct (positive _); [|lia]. unfold sleep.
    pose proof (timerDelay_pos (windowWaitTime cfg now R)). lia. }
  destruct (Math_max R) as [lastRequest|]; [|lia].
  case_bool_decide; [|lia]. unfold sleep.
  pose proof (timerDelay_pos (Some (minDelayMs cfg - (now - lastRequest)))). lia.
Qed.

Lemma calls_in_order cfg tms : ∀ clock requests,
  StronglySorted Z.le (clock :: calls cfg tms clock requests).
Proof.
  induction tms as [|tm tms IH]; intros clock requests; cbn [calls].
  - repeat constructor.
  - pose proof (waitIfNeeded_after_entry cfg tm clock requests) as Hle.
    destruct (waitIfNeeded cfg tm clock requests) as [stamp requests'].
    cbn [fst] in Hle. specialize (IH stamp requests').
    apply StronglySorted_inv in IH as [IH1 IH2].
    constructor; [by constructor|].
    constructor; [lia|]. eapply Forall_impl; [exact IH2|]. intros; simpl in *; lia.
Qed.

(** Whatever the configuration, a call records its time stamp no
    earlier than it was entered (the clock never runs backwards under
    it), so the stamps of a run are in non-decreasing order and none
    precedes the creation of the limiter. *)
Theorem stamps_in_order cfg t0 tms :
  (∀ tm clock requests,
     clock + Z.of_N (arrival tm) + Z.of_N (lateRecord tm)
     ≤ (waitIfNeeded cfg tm clock requests).1) ∧
  StronglySorted Z.le (t0 :: trace cfg t0 tms).
Proof. split; [apply waitIfNeeded_after_entry | apply calls_in_order]. Qed.

(** X2.  A call returns after a bounded time: when no stored stamp lies
    in the future and [windowMs >= 0], the stamp is at most
    [windowMs + 100] (the window wait) plus [max(0, minDelayMs)] (the
    minimum-delay wait) after the entry, plus the lateness of the timers
    and of the last clock reading. *)
Theorem wait_bounded cfg tm clock requests :
  0 ≤ windowMs cfg →
  (∀ t, t ∈ requests → t ≤ clock) →
  (waitIfNeeded cfg tm clock requests).1
  ≤ clock + Z.of_N (arrival tm)
    + (windowMs cfg + 100 + Z.of_N (lateWindow tm))
    + (Z.max 0 (minDelayMs cfg) + Z.of_N (lateDelay tm))
    + Z.of_N (lateRecord tm).
Proof.
  intros Hw Hle. unfold waitIfNeeded. cbn [fst].
  set (now := clock + Z.of_N (arrival tm)).
  set (R := filter _ requests).
  assert (HR : ∀ t, t ∈ R → t ≤ now).
  { intros t [_ Ht]%list_elem_of_filter. apply Hle in Ht. unfold now. lia. }
  set (clock1 := if bool_decide (maxRequests cfg ≤ Z.of_nat (length R)) then _ else _).
  assert (H1 : clock1 ≤ now + (windowMs cfg + 100 + Z.of_N (lateWindow tm))).
  { unfold clock1. case_bool_decide; [|lia].
    destruct (positive _); [|lia]. unfold sleep.
    assert (timerDelay (windowWaitTime cfg now R) ≤ windowMs cfg + 100); [|lia].
    apply timerDelay_le; [lia|]. intros d. unfold windowWaitTime.
    destruct (Math_min R) as [oldest|] eqn:Hmin; [|done].
    intros [= <-]. destruct (Math_min_spec _ _ Hmin) as [Hin _].
    apply HR in Hin. lia. }
  destruct (Math_max R) as [lastRequest|] eqn:Hmax; [|lia].
  destruct (Math_max_spec _ _ Hmax) as [Hin _]. apply HR in Hin.
  case_bool_decide; [|lia]. unfold sleep.
  assert (timerDelay (Some (minDelayMs cfg - (now - lastRequest)))
          ≤ Z.max 0 (minDelayMs cfg)); [|lia].
  apply timerDelay_le; [lia|]. intros d [= <-]. lia.
Qed.

Lemma wait_bounded_witness :
  (waitIfNeeded smallConfig late3 10 [0; 10]).1 ≤ 10 + 5 + (1000 + 100 + 2) + (10 + 3) + 1.
Proof.
  apply (wait_bounded smallConfig late3 10 [0; 10]).
  - simpl. lia.
  - intros t Ht. repeat (apply elem_of_cons in Ht as [->|Ht]; [lia|]).
    by apply elem_of_nil in Ht.
Defined.

(** A call that finds fewer than [maxRequests] stamps in the window
    (what [getStatus()] reports) and every stamp in the window at least
    [minDelayMs] old does not sleep: it records the time of entry (plus
    the lateness of the clock reading) and leaves the in-window stamps
    followed by the new one. *)
Theorem no_wait_when_admissible cfg tm clock requests :
  let now := clock + Z.of_N (arrival tm) in
  Z.of_nat (requestsInWindow cfg now requests) < maxRequests cfg →
  (∀ t, t ∈ requests → now - t < windowMs cfg → minDelayMs cfg ≤ now - t) →
  waitIfNeeded cfg tm clock requests =
    (now + Z.of_N (lateRecord tm),
     filter (λ time, now - time < windowMs cfg) requests
       ++ [now + Z.of_N (lateRecord tm)]).
Proof.
  intros now Hroom Hold. unfold waitIfNeeded, requestsInWindow in *. fold now.
  set (R := filter _ requests) in *.
  rewrite bool_decide_false by lia.
  destruct (Math_max R) as [lastRequest|] eqn:Hmax; [|done].
  destruct (Math_max_spec _ _ Hmax) as [[Hin1 Hin2]%list_elem_of_filter _].
  rewrite bool_decide_false; [done|]. specialize (Hold _ Hin2 Hin1). lia.
Qed.

Lemma no_wait_when_admissible_witness :
  waitIfNeeded smallConfig late3 10 [0] = (16, [0; 16]).
Proof.
  apply (no_wait_when_admissible smallConfig late3 10 [0]).
  - vm_compute. reflexivity.
  - intros t Ht _. apply list_elem_of_singleton in Ht as ->. simpl. lia.
Defined.

End RateLimiterFacts.

Module DatabaseFacts.
Import Js Database DatabaseNotions DatabaseProofs SyncNotions SyncProofs.

Lemma deleteMany_size where_ (table : gmap string EmailRow) :
  ((deleteMany where_ table).1 + base.size (deleteMany where_ table).2)%nat
  = base.size table.
Proof.
  unfold deleteMany. cbn [fst snd].
  rewrite <- (map_filter_union_complement (λ kr, where_ kr.1 kr.2 = true) table)
    at 3.
  rewrite map_size_disj_union by apply map_disjoint_filter_complement.
  f_equal. f_equal. apply map_filter_ext. intros id row _. cbn.
  by destruct (where_ id row).
Qed.

(** The count returned by [cleanupEmailsInRange],
    [deleteOrphanedEmails] and [deleteEmailsByGmailIds] is the number of
    rows that are gone: count plus rows left is the number of rows
    before, and the table left is part of the table before.  For a sync
    without a time bound [cleanupEmailsInRange] is
    [deleteOrphanedEmails]. *)
Theorem deleted_count_is_rows_removed userEmail ids syncRange
    (table : gmap string EmailRow) :
  let cleaned := cleanupEmailsInRange userEmail ids syncRange table in
  let orphaned := deleteOrphanedEmails userEmail ids table in
  let removed := deleteEmailsByGmailIds userEmail ids table in
  (cleaned.1 + base.size cleaned.2)%nat = base.size table ∧
  (orphaned.1 + base.size orphaned.2)%nat = base.size table ∧
  (removed.1 + base.size removed.2)%nat = base.size table ∧
  cleaned.2 ⊆ table ∧ orphaned.2 ⊆ table ∧ removed.2 ⊆ table ∧
  (startDate syncRange = None → cleaned = orphaned).
Proof.
  cbn zeta. unfold cleanupEmailsInRange, deleteOrphanedEmails, deleteEmailsByGmailIds.
  rewrite !deleteMany_size.
  repeat split; try apply map_filter_subseteq.
  intros Hfull. unfold cleanupWhere. by rewrite Hfull.
Qed.

(** X12.  [deleteEmailsByGmailIds] removes a row exactly when it
    belongs to the user and its id is among the given ids; every other
    row, in particular every row of another user, is left as it was. *)
Theorem delete_by_ids_exact userEmail gmailIds (table : gmap string EmailRow) id :
  (deleteEmailsByGmailIds userEmail gmailIds table).2 !! id =
    match table !! id with
    | Some row =>
        if decide (row_userEmail row = userEmail ∧ id ∈ gmailIds)
        then None else Some row
    | None => None
    end.
Proof.
  unfold deleteEmailsByGmailIds. rewrite deleteMany_lookup.
  destruct (table !! id) as [row|]; [|done].
  destruct (decide (row_userEmail row = userEmail ∧ id ∈ gmailIds)) as [[Hu Hin]|Hn].
  - by rewrite !bool_decide_true.
  - destruct (bool_decide (row_userEmail row = userEmail)) eqn:Hu; [|done].
    apply bool_decide_eq_true in Hu. rewrite bool_decide_false; [done|]. tauto.
Qed.

Lemma createOrUpdateEmails_other userEmail now batch :
  ∀ (table : gmap string EmailRow) id,
  id ∉ map gmailId batch →
  createOrUpdateEmails userEmail now batch table !! id = table !! id.
Proof.
  unfold createOrUpdateEmails.
  induction batch as [|e0 batch IH]; intros table id Hout; [done|].
  cbn [foldl map] in *. apply not_elem_of_cons in Hout as [Hne Hout].
  rewrite IH, upsertEmail_lookup by done. by rewrite decide_False.
Qed.

Lemma createOrUpdateEmails_owner userEmail now batch :
  ∀ (table : gmap string EmailRow) id,
  row_userEmail <$> createOrUpdateEmails userEmail now batch table !! id =
    match table !! id with
    | Some row => Some (row_userEmail row)
    | None => if decide (id ∈ map gmailId batch) then Some userEmail else None
    end.
Proof.
  unfold createOrUpdateEmails.
  induction batch as [|e0 batch IH]; intros table id; cbn [foldl map].
  - destruct (table !! id); [done|]. by rewrite decide_False by apply not_elem_of_nil.
  - rewrite IH, upsertEmail_lookup.
    destruct (decide (gmailId e0 = id)) as [<-|Hne].
    + destruct (table !! gmailId e0); cbn; [done|].
      by rewrite decide_True by left.
    + destruct (table !! id); [done|].
      destruct (decide (id ∈ map gmailId batch)) as [Hin|Hout].
      * by rewrite decide_True by (by right).
      * rewrite decide_False; [done|].
        intros [?|?]%elem_of_cons; [by subst | done].
Qed.

(** X13.  Storing a batch of messages none of which was stored before
    and then deleting the batch's ids for the same user gives back the
    table of before; the count returned is the number of distinct ids of
    the batch. *)
Theorem upsert_then_delete_restores userEmail now batch
    (table : gmap string EmailRow) :
  (∀ email, email ∈ batch → table !! gmailId email = None) →
  (deleteEmailsByGmailIds userEmail (map gmailId batch)
     (createOrUpdateEmails userEmail now batch table)).2 = table ∧
  (deleteEmailsByGmailIds userEmail (map gmailId batch)
     (createOrUpdateEmails userEmail now batch table)).1
  = base.size (list_to_set (map gmailId batch) : gset string).
Proof.
  intros Hnew.
  assert (Hrestored : (deleteEmailsByGmailIds userEmail (map gmailId batch)
     (createOrUpdateEmails userEmail now batch table)).2 = table).
  { apply map_eq. intros id. unfold deleteEmailsByGmailIds.
    rewrite deleteMany_lookup.
    pose proof (createOrUpdateEmails_owner userEmail now batch table id) as Hown.
    destruct (decide (id ∈ map gmailId batch)) as [Hin|Hout].
    - apply list_elem_of_fmap in Hin as Hin'. destruct Hin' as (email & -> & He).
      rewrite (Hnew _ He) in Hown |- *.
      destruct (createOrUpdateEmails _ _ _ _ !! gmailId email) as [row|]; [|done].
      cbn in Hown. injection Hown as Hown. by rewrite !bool_decide_true.
    - rewrite createOrUpdateEmails_other by done.
      destruct (table !! id); [|done].
      by rewrite (bool_decide_false (id ∈ _)), andb_false_r. }
  split; [done|].
  pose proof (deleteMany_size
    (λ id row, bool_decide (row_userEmail row = userEmail) &&
               bool_decide (id ∈ map gmailId batch))
    (createOrUpdateEmails userEmail now batch table)) as Hsize.
  fold (deleteEmailsByGmailIds userEmail (map gmailId batch)
          (createOrUpdateEmails userEmail now batch table)) in Hsize.
  rewrite Hrestored in Hsize.
  rewrite <- !size_dom in Hsize.
  rewrite createOrUpdateEmails_dom in Hsize.
  rewrite size_union in Hsize; [lia|].
  intros id Hin%elem_of_list_to_set Hdom%elem_of_dom.
  apply list_elem_of_fmap in Hin as (email & -> & He).
  rewrite (Hnew _ He) in Hdom. by destruct Hdom.
Qed.

Lemma upsert_then_delete_restores_witness :
  (deleteEmailsByGmailIds "me@example.com" ["m1"; "m2"]
     (createOrUpdateEmails "me@example.com" 5000
        [sampleMessage "m1" "Lunch?" 1000; sampleMessage "m2" "Minutes" 2000]
        (emails sampleDb))).2 = emails sampleDb.
Proof.
  apply (upsert_then_delete_restores "me@example.com" 5000
           [sampleMessage "m1" "Lunch?" 1000; sampleMessage "m2" "Minutes" 2000]
           (emails sampleDb)).
  intros email Hin.
  repeat (apply elem_of_cons in Hin as [->|Hin]; [reflexivity|]).
  by apply elem_of_nil in Hin.
Defined.

(** X10.  [createOrUpdateEmails] never changes the owner of a stored
    message: a row that exists keeps its [userEmail] (the upsert is keyed
    by [gmailId] alone, also when another user syncs that id), an id of
    the batch that was not stored gets a row of the caller, and no other
    row appears. *)
Theorem upsert_keeps_owner userEmail now batch (table : gmap string EmailRow) id :
  row_userEmail <$> createOrUpdateEmails userEmail now batch table !! id =
    match table !! id with
    | Some row => Some (row_userEmail row)
    | None => if decide (id ∈ map gmailId batch) then Some userEmail else None
    end.
Proof. apply createOrUpdateEmails_owner. Qed.

(** X11.  After [createOrUpdateEmails], a message of the batch that no
    later entry of the batch overrides is stored with its own subject,
    sender, date, size, labels and attachment data and the time of the
    write, and with its category and snippet when it has them; rows whose
    id is not in the batch are unchanged. *)
Theorem upsert_last_wins userEmail now before email after
    (table : gmap string EmailRow) :
  gmailId email ∉ map gmailId after →
  let table' :=
    createOrUpdateEmails userEmail now (before ++ email :: after) table in
  (∃ row, table' !! gmailId email = Some row ∧
     row_subject row = subject email ∧
     row_senderEmail row = senderEmail email ∧
     row_senderName row = senderName email ∧
     row_date row = date email ∧
     row_size row = size email ∧
     row_labels row = labels email ∧
     row_hasAttachments row = hasAttachments email ∧
     row_attachmentInfo row = attachmentInfo email ∧
     row_lastSynced row = now ∧
     (is_Some (category email) → row_category row = category email) ∧
     (is_Some (snippet email) → row_snippet row = snippet email)) ∧
  (∀ id, id ∉ map gmailId (before ++ email :: after) →
     table' !! id = table !! id).
Proof.
  intros Hlast table'. split.
  - unfold table'. rewrite cons_middle, app_assoc.
    rewrite createOrUpdateEmails_app, createOrUpdateEmails_other by done.
    rewrite createOrUpdateEmails_app.
    unfold createOrUpdateEmails at 1. cbn [foldl].
    rewrite upsertEmail_lookup, decide_True by done.
    eexists. split; [reflexivity|].
    destruct (createOrUpdateEmails _ _ before table !! gmailId email) as [old|];
      cbn; repeat split; try done.
    + by intros [c ->].
    + by intros [c ->].
  - intros id Hout. by apply createOrUpdateEmails_other.
Qed.

Lemma upsert_last_wins_witness :
  ∃ row,
    createOrUpdateEmails "me@example.com" 5000
      ([sampleMessage "m1" "Lunch?" 1000] ++
       sampleMessage "m1" "Lunch today?" 1500 :: [sampleMessage "m2" "Minutes" 2000])
      (emails sampleDb) !! "m1" = Some row ∧
    row_subject row = "Lunch today?".
Proof.
  destruct (upsert_last_wins "me@example.com" 5000
              [sampleMessage "m1" "Lunch?" 1000]
              (sampleMessage "m1" "Lunch today?" 1500)
              [sampleMessage "m2" "Minutes" 2000] (emails sampleDb))
    as [(row & Hrow & Hsubject & _) _].
  - cbn. intros Hin. apply list_elem_of_singleton in Hin. discriminate.
  - exists row. split; [exact Hrow | exact Hsubject].
Defined.

End DatabaseFacts.

Module SyncFacts.
Import Js Database Sync DatabaseNotions SyncNotions DatabaseProofs SyncProofs
  AnalyzerProofs DatabaseFacts.

(** ** Slices *)

Lemma slicesFrom_lookup {A} (n : nat) : ∀ fuel (l : list A) i,
  (0 < n)%nat → (length l ≤ fuel)%nat → (i * n < length l)%nat →
  slicesFrom fuel n l !! i = Some (take n (drop (i * n) l)).
Proof.
  induction fuel as [|fuel IH]; intros l i Hn Hlen Hi; [lia|].
  destruct l as [|x l]; [simpl in Hi; lia|]. cbn [slicesFrom].
  destruct i as [|i]; [done|]. cbn [lookup list_lookup].
  change (slicesFrom fuel n (drop n (x :: l)) !! i
          = Some (take n (drop (S i * n) (x :: l)))).
  rewrite IH; [|done| |].
  - rewrite drop_drop. reflexivity.
  - rewrite length_drop. simpl in *. lia.
  - rewrite length_drop. simpl in *. lia.
Qed.

Lemma slicesFrom_length {A} (n : nat) : ∀ fuel (l : list A),
  (0 < n)%nat → (length l ≤ fuel)%nat →
  length (slicesFrom fuel n l) = ((length l + n - 1) / n)%nat.
Proof.
  induction fuel as [|fuel IH]; intros l Hn Hlen.
  - destruct l; [|simpl in Hlen; lia]. simpl.
    symmetry. apply Nat.div_small. lia.
  - destruct l as [|x l].
    + simpl. symmetry. apply Nat.div_small. lia.
    + cbn [slicesFrom length]. rewrite IH; [|done|rewrite length_drop; simpl in *; lia].
      rewrite length_drop.
      destruct (decide (length (x :: l) ≤ n)%nat) as [Hshort|Hlong].
      * replace (length (x :: l) - n)%nat with 0%nat by lia.
        rewrite (Nat.div_small (0 + n - 1)) by lia.
        apply (Nat.div_unique _ _ 1%nat (length l)); simpl in *; lia.
      * replace (S (length l) + n - 1)%nat
          with ((length (x :: l) - n + n - 1) + 1 * n)%nat by (simpl in *; lia).
        rewrite Nat.div_add by lia. lia.
Qed.

(** X4.  The loop [for (i = 0; i < l.length; i += n) l.slice(i, i + n)]
    with [n > 0] cuts [l] into consecutive slices that together are [l]:
    there are ceil(length / n) of them (what [syncEmails] stores as
    [totalBatches]), slice [i] is [l.slice(i * n, i * n + n)], none is
    empty and none is longer than [n]. *)
Theorem batches_cover {A} (n : nat) (l : list A) :
  (0 < n)%nat →
  concat (slices n l) = l ∧
  length (slices n l) = ((length l + n - 1) / n)%nat ∧
  (∀ i, (i < length (slices n l))%nat →
     slices n l !! i = Some (take n (drop (i * n) l))) ∧
  Forall (λ batch, (0 < length batch ≤ n)%nat) (slices n l).
Proof.
  intros Hn.
  assert (Hlen : length (slices n l) = ((length l + n - 1) / n)%nat)
    by (by apply slicesFrom_length).
  assert (Hlook : ∀ i, (i < length (slices n l))%nat →
     slices n l !! i = Some (take n (drop (i * n) l))).
  { intros i Hi. apply slicesFrom_lookup; [done..|].
    rewrite Hlen in Hi.
    assert (i * n < (length l + n - 1) / n * n)%nat by nia.
    pose proof (Nat.Div0.mul_div_le (length l + n - 1) n). nia. }
  split; [by apply concat_slices|]. split; [done|]. split; [done|].
  apply Forall_lookup. intros i batch Hb.
  pose proof (lookup_lt_Some _ _ _ Hb) as Hi.
  rewrite (Hlook i Hi) in Hb. injection Hb as <-.
  rewrite length_take, length_drop.
  rewrite Hlen in Hi.
  assert (i * n < (length l + n - 1) / n * n)%nat by nia.
  pose proof (Nat.Div0.mul_div_le (length l + n - 1) n).
  assert (i * n < length l)%nat by nia. lia.
Qed.

Lemma batches_cover_witness :
  concat (slices 2 [1; 2; 3; 4; 5]) = [1; 2; 3; 4; 5] ∧
  length (slices 2 [1; 2; 3; 4; 5]) = 3%nat.
Proof.
  destruct (batches_cover 2 [1; 2; 3; 4; 5]) as (H1 & H2 & _); [lia|].
  split; [exact H1 | exact H2].
Defined.

Lemma totalBatches_slices {A} (l : list A) :
  (Z.of_nat (length l) + 99) / 100 = Z.of_nat (length (slices 100 l)).
Proof.
  unfold slices. rewrite slicesFrom_length by lia.
  rewrite Nat2Z.inj_div. f_equal. lia.
Qed.

(** X3.  [processBatch] returns the messages that could be fetched in
    the order of the ids it was given; fetching in chunks of ten changes
    nothing.  It returns at most as many messages as ids, and the message
    of every id when every fetch succeeds. *)
Theorem chunked_fetch env messageIds :
  processBatch env messageIds = omap (fetch env) messageIds ∧
  (length (processBatch env messageIds) ≤ length messageIds)%nat ∧
  ((∀ id, id ∈ messageIds → is_Some (fetch env id)) →
   map Some (processBatch env messageIds) = map (fetch env) messageIds).
Proof.
  rewrite processBatch_omap. split; [done|]. split.
  - induction messageIds as [|id ids IH]; [done|]. cbn.
    destruct (fetch env id); cbn; lia.
  - induction messageIds as [|id ids IH]; intros Hall; [done|]. cbn.
    destruct (Hall id) as [m Hm]; [left|]. rewrite Hm. cbn.
    f_equal. apply IH. intros id' Hin. apply Hall. by right.
Qed.

(** ** The loop, whatever fails *)

Section AnyLoop.
Variable env : Env.
Variable userEmail : string.
Variable options : SyncOptions.
Variable sid : string.

Lemma batchBody_any k batch p :
  ∃ persisted,
    (persisted = [] ∨ persisted = processBatch env batch) ∧
    LoopPost env userEmail sid persisted p
      (batchBody env userEmail options sid k batch p).2 ∧
    ((batchBody env userEmail options sid k batch p).1 = None →
     persisted = processBatch env batch).
Proof.
  unfold batchBody.
  destruct (faultAt env k AtPersist).
  { exists []. split; [by left|]. split; [apply LoopPost_refl | done]. }
  exists (processBatch env batch). split; [by right|].
  destruct (faultAt env k AtSessionUpdate).
  { split; [|done]. constructor; cbn; done. }
  destruct (faultAt env k AtStatusUpdate).
  { split; [|done]. constructor; cbn; try done. apply alter_is_Some. }
  split; [|done]. constructor; cbn; try done. apply alter_is_Some.
Qed.

Lemma batchLoop_any batches : ∀ start p,
  ∃ persisted,
    persisted `prefix_of` fetched env batches ∧
    LoopPost env userEmail sid persisted p
      (batchLoop env userEmail options sid start batches p).2 ∧
    ((batchLoop env userEmail options sid start batches p).1 = None →
     persisted = fetched env batches).
Proof.
  induction batches as [|batch rest IH]; intros start p; cbn [batchLoop].
  - exists []. split; [done|]. split; [apply LoopPost_refl | done].
  - destruct (batchBody_any start batch p) as (w1 & Hw1 & H1 & Hok1).
    destruct (batchBody env userEmail options sid start batch p)
      as [[batchError|] p1]; cbn [fst snd] in *.
    + exists w1. split; [|split; [|done]].
      * unfold fetched. cbn [map concat].
        destruct Hw1 as [->| ->]; [apply prefix_nil | by apply prefix_app_r].
      * destruct H1 as [e1 t1 i1 s1]. constructor; cbn; try done.
        intros Hs. by apply alter_is_Some, s1.
    + rewrite (Hok1 eq_refl) in H1.
      destruct (IH (S start) p1) as (w2 & Hw2 & H2 & Hok2).
      exists (processBatch env batch ++ w2). split; [|split].
      * unfold fetched in *. cbn [map concat]. by apply prefix_app.
      * by eapply LoopPost_trans.
      * intros Hnone. rewrite (Hok2 Hnone). done.
Qed.

(** The session row while no batch throws. *)
Lemma batchLoop_ok_session batches : ∀ start p s0,
  (∀ j, fault env j = None) →
  syncSessions (db p) !! sid = Some s0 →
  ∃ s, syncSessions (db (batchLoop env userEmail options sid start batches p).2)
         !! sid = Some s ∧
       s_status s = s_status s0 ∧
       s_totalEmails s = s_totalEmails s0 ∧
       s_totalBatches s = s_totalBatches s0 ∧
       s_completedAt s = s_completedAt s0 ∧
       s_currentBatch s =
         match batches with
         | [] => s_currentBatch s0
         | _ :: _ => Z.of_nat (start + length batches - 1)
         end ∧
       s_emailsProcessed s =
         match batches with
         | [] => s_emailsProcessed s0
         | _ :: _ =>
             totalProcessed (batchLoop env userEmail options sid start batches p).2
         end.
Proof.
  induction batches as [|batch rest IH]; intros start p s0 Hf Hs; cbn [batchLoop].
  - by exists s0.
  - unfold batchBody. rewrite !faultAt_None by done.
    set (p1 := {| db := _ |}).
    destruct (IH (S start) p1
      (applySessionUpdates
         {| u_status := None;
            u_emailsProcessed :=
              Some (totalProcessed p + Z.of_nat (length (processBatch env batch)));
            u_totalEmails := None; u_currentBatch := Some (Z.of_nat start);
            u_totalBatches := None; u_errorMessage := None;
            u_completedAt := None |} s0) Hf)
      as (s & Hlook & H1 & H2 & H3 & H4 & H5 & H6).
    { unfold p1. cbn. by rewrite lookup_alter_eq, Hs. }
    exists s. split; [exact Hlook|]. cbn in H1, H2, H3, H4.
    split; [done|]. split; [done|]. split; [done|]. split; [done|].
    destruct rest as [|b' rest'].
    + cbn in H5, H6. cbn [batchLoop]. split; [rewrite H5; cbn; f_equal; lia|].
      rewrite H6. done.
    + split; [rewrite H5; cbn [length]; f_equal; lia | exact H6].
Qed.

End AnyLoop.

(** X5.  [syncEmails] never leaves its session or the legacy status
    pending, whatever the remote and the database do inside the batches:
    when it returns, the session it created is [completed] with
    [completedAt] set, and the status row has [syncInProgress = false],
    [lastSync] set, the returned total and no error message; when it
    throws, the session is [failed] and both rows hold the error's
    message, with [syncInProgress = false]. *)
Theorem sync_terminal_state env userEmail options db0 :
  let run := syncEmails env userEmail options db0 in
  ∃ s st,
    syncSessions run.2 !! newSessionId env = Some s ∧
    syncStatus run.2 !! userEmail = Some st ∧
    st_syncInProgress st = false ∧
    match run.1 with
    | inr result =>
        s_status s = "completed" ∧ s_completedAt s = Some (now env) ∧
        st_lastSync st = Some (now env) ∧
        st_totalEmails st = totalEmails result ∧
        st_errorMessage st = None
    | inl error =>
        s_status s = "failed" ∧
        s_errorMessage s = Some (messageOr "Unknown sync error" error) ∧
        st_errorMessage st = Some (messageOr "Unknown sync error" error)
    end.
Proof.
  intros run. unfold run, syncEmails.
  fold (started env userEmail options db0). unfold syncBody.
  pose proof (started_session env userEmail options db0) as Hstart.
  destruct (listing env (buildSearchQuery options)) as [e|messageIds].
  { destruct (session_after_update (newSessionId env)
      {| u_status := Some "failed"; u_emailsProcessed := None;
         u_totalEmails := None; u_currentBatch := None;
         u_totalBatches := None;
         u_errorMessage := Some (messageOr "Unknown sync error" e);
         u_completedAt := None |} (started env userEmail options db0) Hstart)
      as [s Hlook].
    eexists _, _. cbn [fst snd]. split; [exact Hlook|].
    split; [cbn; apply lookup_insert_eq|]. done. }
  case_bool_decide as Hempty.
  { destruct (session_after_update (newSessionId env)
      {| u_status := Some "completed"; u_emailsProcessed := None;
         u_totalEmails := Some 0; u_currentBatch := None;
         u_totalBatches := None; u_errorMessage := None;
         u_completedAt := Some (now env) |}
      (started env userEmail options db0) Hstart) as [s Hlook].
    eexists _, _. cbn [fst snd]. split; [exact Hlook|].
    split; [cbn; apply lookup_insert_eq|]. cbn.
    rewrite lookup_insert_eq. done. }
  set (p0 := {| db := updateSyncSession _ _ _; totalProcessed := 0;
                allProcessedGmailIds := [] |}).
  destruct (batchLoop_any env userEmail options (newSessionId env)
              (slices 100 messageIds) 1 p0) as (w & _ & [_ _ _ Hs] & _).
  assert (Hp0 : is_Some (syncSessions (db p0) !! newSessionId env))
    by (unfold p0; cbn; by apply alter_is_Some).
  specialize (Hs Hp0).
  destruct (batchLoop env userEmail options (newSessionId env) 1
              (slices 100 messageIds) p0) as [[e|] p']; cbn [fst snd] in *.
  - destruct (session_after_update (newSessionId env)
      {| u_status := Some "failed"; u_emailsProcessed := None;
         u_totalEmails := None; u_currentBatch := None;
         u_totalBatches := None;
         u_errorMessage := Some (messageOr "Unknown sync error" e);
         u_completedAt := None |} (db p') Hs) as [s Hlook].
    eexists _, _. split; [exact Hlook|].
    split; [cbn; apply lookup_insert_eq|]. done.
  - destruct (session_after_update (newSessionId env)
      {| u_status := Some "completed"; u_emailsProcessed := None;
         u_totalEmails := None; u_currentBatch := None;
         u_totalBatches := None; u_errorMessage := None;
         u_completedAt := Some (now env) |}
      (setEmails
         (cleanupEmailsInRange userEmail (allProcessedGmailIds p')
            (syncRange env) (emails (db p'))).2 (db p')) Hs) as [s Hlook].
    eexists _, _. split; [exact Hlook|].
    split; [cbn; apply lookup_insert_eq|]. done.
Qed.



(** X7.  After a run over a non-empty listing in which nothing throws,
    the session's counters agree with the run: [totalEmails] is the
    number of listed ids, [totalBatches] is ceil(ids / 100) and equals
    [currentBatch], [emailsProcessed] and the status row's [totalEmails]
    are the returned [totalEmails], which is the number of messages
    fetched (at most the number of ids). *)
Theorem completed_session_counters env userEmail options db0 messageIds :
  listing env (buildSearchQuery options) = inr messageIds →
  messageIds ≠ [] →
  (∀ j, fault env j = None) →
  ∃ result db' s st,
    syncEmails env userEmail options db0 = (inr result, db') ∧
    syncSessions db' !! newSessionId env = Some s ∧
    syncStatus db' !! userEmail = Some st ∧
    s_totalEmails s = Some (Z.of_nat (length messageIds)) ∧
    s_totalBatches s = Z.of_nat (length (slices 100 messageIds)) ∧
    s_totalBatches s = (Z.of_nat (length messageIds) + 99) / 100 ∧
    s_currentBatch s = s_totalBatches s ∧
    s_emailsProcessed s = totalEmails result ∧
    st_totalEmails st = totalEmails result ∧
    totalEmails result = Z.of_nat (length (omap (fetch env) messageIds)) ∧
    newEmails result = totalEmails result ∧
    totalEmails result ≤ Z.of_nat (length messageIds).
Proof.
  intros Hlist Hne Hf.
  unfold syncEmails. fold (started env userEmail options db0).
  unfold syncBody. rewrite Hlist.
  rewrite bool_decide_false by (by destruct messageIds).
  set (p0 := {| db := updateSyncSession _ _ _; totalProcessed := 0;
                allProcessedGmailIds := [] |}).
  destruct (started_session env userEmail options db0) as [s0 Hs0].
  destruct (batchLoop_ok env userEmail options (newSessionId env)
              (slices 100 messageIds) 1 p0 Hf) as (p' & Hloop & Hpost).
  destruct (batchLoop_ok_session env userEmail options (newSessionId env)
              (slices 100 messageIds) 1 p0
              (applySessionUpdates
                 {| u_status := None; u_emailsProcessed := None;
                    u_totalEmails := Some (Z.of_nat (length messageIds));
                    u_currentBatch := None;
                    u_totalBatches := Some ((Z.of_nat (length messageIds) + 99) / 100);
                    u_errorMessage := None; u_completedAt := None |} s0) Hf)
    as (s & Hlook & _ & H2 & H3 & _ & H5 & H6).
  { unfold p0. cbn [db]. unfold updateSyncSession. cbn [syncSessions].
    by rewrite lookup_alter_eq, Hs0. }
  rewrite Hloop in Hlook, H6 |- *. cbn [fst snd] in *.
  rewrite fetched_slices in Hpost by lia.
  destruct Hpost as [_ Ht _ _]. cbn in Ht.
  assert (Hbatches : slices 100 messageIds ≠ [])
    by (intros ?%slices_nil_inv; done).
  destruct (slices 100 messageIds) as [|b0 bs] eqn:Hsl; [done|].
  eexists _, _, _, _. split; [reflexivity|].
  split. { cbn. rewrite lookup_alter_eq, Hlook. reflexivity. }
  split. { cbn. apply lookup_insert_eq. }
  cbn. cbn in H2, H3. rewrite H2, H3, H5, H6, Ht.
  rewrite totalBatches_slices, Hsl.
  split; [done|]. split; [done|]. split; [done|].
  split; [cbn [length]; f_equal; lia|].
  split; [done|]. split; [done|]. split; [done|]. split; [done|].
  apply inj_le. clear. induction messageIds as [|id ids IH]; [done|].
  cbn. destruct (fetch env id); cbn; lia.
Qed.

Lemma completed_session_counters_witness :
  ∃ result db' s,
    syncEmails (sampleEnv ["m1"; "m2"; "m3"] (λ _, None))
      "me@example.com" sampleOptions sampleDb = (inr result, db') ∧
    syncSessions db' !! "session-1" = Some s ∧
    s_totalEmails s = Some 3 ∧
    s_currentBatch s = s_totalBatches s ∧
    s_emailsProcessed s = totalEmails result.
Proof.
  destruct (completed_session_counters (sampleEnv ["m1"; "m2"; "m3"] (λ _, None))
              "me@example.com" sampleOptions sampleDb ["m1"; "m2"; "m3"])
    as (result & db' & s & st & Hrun & Hs & _ & H1 & _ & _ & H2 & H3 & _).
  - reflexivity.
  - discriminate.
  - reflexivity.
  - exists result, db', s. split; [exact Hrun|]. split; [exact Hs|].
    split; [exact H1|]. split; [exact H2 | exact H3].
Defined.

(** X8.  After a successful sync without a time bound
    ([startDate = null]) over a non-empty listing, the user's stored
    messages are exactly the fetched ones: every row of the user has an
    id that was listed and fetched, every fetched message is stored as
    the upsert wrote it, and rows of other users keep their owner.  (So
    if no listed message can be fetched, none of the user's rows is
    left.) *)
Theorem full_sync_mirrors_mailbox env userEmail options db0 messageIds :
  listing env (buildSearchQuery options) = inr messageIds →
  messageIds ≠ [] →
  (∀ j, fault env j = None) →
  (∀ id email, fetch env id = Some email → gmailId email = id) →
  startDate (syncRange env) = None →
  ∃ result db',
    syncEmails env userEmail options db0 = (inr result, db') ∧
    (∀ id row, emails db' !! id = Some row → row_userEmail row = userEmail →
       ∃ email, id ∈ messageIds ∧ fetch env id = Some email) ∧
    (∀ id email, id ∈ messageIds → fetch env id = Some email →
       emails db' !! id
       = Some (mergeRow userEmail (now env) email (emails db0 !! id))) ∧
    (∀ id row, emails db0 !! id = Some row → row_userEmail row ≠ userEmail →
       row_userEmail <$> emails db' !! id = Some (row_userEmail row)).
Proof.
  intros Hlist Hne Hf Hecho Hfull.
  destruct (syncEmails_ok env userEmail options db0 messageIds Hlist Hne Hf)
    as (db' & Hrun & _ & He).
  eexists _, db'. split; [exact Hrun|].
  set (processed := omap (fetch env) messageIds) in *.
  assert (Hids : ∀ id, id ∈ map gmailId processed ↔
                       id ∈ messageIds ∧ is_Some (fetch env id)).
  { intros id. rewrite list_elem_of_fmap. split.
    - intros (email & -> & (id' & Hin & Hid)%list_elem_of_omap).
      rewrite (Hecho _ _ Hid). split; [done|]. by rewrite Hid.
    - intros [Hin [email Hid]]. exists email. split; [by rewrite (Hecho _ _ Hid)|].
      apply list_elem_of_omap. by exists id. }
  assert (Hlook : ∀ id, emails db' !! id =
    match createOrUpdateEmails userEmail (now env) processed (emails db0) !! id with
    | Some row =>
        if cleanupWhere userEmail (map gmailId processed) (syncRange env) id row
        then None else Some row
    | None => None
    end).
  { intros id. rewrite He. unfold cleanupEmailsInRange. apply deleteMany_lookup. }
  assert (Hstored := createOrUpdateEmails_lookup (fetch env) userEmail (now env)
            processed). 
  assert (Hecho' : ∀ email, email ∈ processed → fetch env (gmailId email) = Some email)
    by (by apply omap_fetch_echo).
  split; [|split].
  - intros id row Hrow Hu. rewrite Hlook in Hrow.
    destruct (createOrUpdateEmails _ _ _ _ !! id) as [row'|]; [|done].
    destruct (cleanupWhere _ _ _ id row') eqn:Hw; [done|].
    injection Hrow as ->. unfold cleanupWhere in Hw. rewrite Hfull in Hw.
    rewrite bool_decide_true in Hw by done. cbn in Hw. unfold notIn in Hw.
    apply bool_decide_eq_false in Hw.
    destruct (decide (id ∈ map gmailId processed)) as [Hin|Hout]; [|done].
    apply Hids in Hin as [Hin [email Hid]]. by exists email.
  - intros id email Hin Hid. rewrite Hlook, Hstored by done.
    rewrite decide_True by (apply Hids; split; [done | by rewrite Hid]).
    rewrite Hid. cbn. rewrite (cleanupWhere_processed (fetch env)); [done|].
    apply Hids. split; [done | by rewrite Hid].
  - intros id row Hrow Hother. rewrite Hlook.
    pose proof (createOrUpdateEmails_owner userEmail (now env) processed
                  (emails db0) id) as Hown.
    rewrite Hrow in Hown.
    destruct (createOrUpdateEmails _ _ _ _ !! id) as [row'|]; [|done].
    cbn in Hown. injection Hown as Hown.
    unfold cleanupWhere. rewrite (bool_decide_false (row_userEmail row' = _))
      by congruence.
    destruct (startDate (syncRange env)); cbn; by rewrite Hown.
Qed.

Lemma full_sync_mirrors_mailbox_witness :
  ∃ result db',
    syncEmails fullEnv "me@example.com" sampleOptions sampleDb = (inr result, db') ∧
    (∀ id row, emails db' !! id = Some row →
       row_userEmail row = "me@example.com" →
       ∃ email, id ∈ ["m1"; "m2"; "m3"] ∧ sampleRemote id = Some email).
Proof.
  destruct (full_sync_mirrors_mailbox fullEnv "me@example.com" sampleOptions
              sampleDb ["m1"; "m2"; "m3"])
    as (result & db' & Hrun & Hmine & _).
  - reflexivity.
  - discriminate.
  - reflexivity.
  - intros id email. cbn. unfold sampleRemote.
    destruct (decide (id = "m1")) as [->|_]; [by intros [= <-]|].
    destruct (decide (id = "m2")) as [->|_]; [by intros [= <-]|]. done.
  - reflexivity.
  - exists result, db'. split; [exact Hrun | exact Hmine].
Defined.

Lemma concat_cons_ne sep c s rest :
  String.concat sep (String c s :: rest) ≠ "".
Proof. destruct rest; cbn; [done|]. by rewrite append_cons. Qed.

(** X9.  [buildSearchQuery] returns the empty query (for which the
    listing is asked without [q]) exactly when no filter is set: the time
    range is [all], spam and trash are not excluded and the size limit is
    not positive. *)
Theorem empty_query_iff options :
  buildSearchQuery options = "" ↔
    timeRange options = "all" ∧ excludeSpam options = false ∧
    excludeTrash options = false ∧ maxEmailSize options ≤ 0.
Proof.
  unfold buildSearchQuery.
  case_bool_decide as Ht.
  { split; [|by intros []]. cbn [app].
    change ("newer_than:" +:+ timeRange options)
      with (String "n" ("ewer_than:" +:+ timeRange options)).
    intros H. by apply concat_cons_ne in H. }
  cbn [app].
  destruct (excludeSpam options).
  { split; [|by intros (_ & ? & _)]. intros H. by apply concat_cons_ne in H. }
  destruct (excludeTrash options).
  { split; [|by intros (_ & _ & ? & _)]. intros H. by apply concat_cons_ne in H. }
  case_bool_decide as Hs.
  { split; [|intros (_ & _ & _ & ?); lia]. cbn [app].
    change ("smaller:" +:+ pretty (maxEmailSize options * 1024 * 1024))
      with (String "s" ("maller:" +:+ pretty (maxEmailSize options * 1024 * 1024))).
    intros H. by apply concat_cons_ne in H. }
  cbn. split; [intros _; repeat split; [done|lia] | done].
Qed.

End SyncFacts.

Module MessagePartsFacts.
Import MessageParts MessagePartsNotions.

Lemma MessagePart_nested_ind (P : MessagePart → Prop) :
  (∀ filename mimeType body, P (Part filename mimeType body None)) →
  (∀ filename mimeType body parts,
     Forall P parts → P (Part filename mimeType body (Some parts))) →
  ∀ part, P part.
Proof.
  intros Hleaf Hnode. fix IH 1. intros [f m b [ps|]]; [|apply Hleaf].
  apply Hnode. induction ps as [|p ps IHps]; constructor; [apply IH | exact IHps].
Qed.

Lemma attachmentsOf_named part :
  Forall (λ info, info_filename info ≠ "") (attachmentsOf part).
Proof.
  induction part as [f m b|f m b ps IH] using MessagePart_nested_ind;
    cbn [attachmentsOf]; apply Forall_app; split.
  - unfold named. cbn. destruct f as [name|]; [|constructor].
    case_bool_decide; repeat constructor. done.
  - constructor.
  - unfold named. cbn. destruct f as [name|]; [|constructor].
    case_bool_decide; repeat constructor. done.
  - induction IH as [|p ps Hp _ IHps]; [constructor|]. cbn.
    apply Forall_app. by split.
Qed.

Lemma hasAttachments_attachmentsOf part :
  bool_decide (is_Some (named part)) || hasAttachments part =
    match attachmentsOf part with [] => false | _ :: _ => true end.
Proof.
  induction part as [f m b|f m b ps IH] using MessagePart_nested_ind;
    cbn [attachmentsOf hasAttachments].
  - destruct (named _); [by rewrite bool_decide_true|].
    by rewrite bool_decide_false by (by intros []).
  - destruct (named _); [by rewrite bool_decide_true|].
    rewrite bool_decide_false by (by intros []). cbn [orb app].
    induction IH as [|p ps Hp _ IHps]; [done|]. cbn [existsb flat_map].
    rewrite Hp, IHps. by destruct (attachmentsOf p).
Qed.

Lemma hasAttachments_extract ps :
  existsb (λ part, bool_decide (is_Some (named part)) || hasAttachments part) ps
  = match flat_map attachmentsOf ps with [] => false | _ :: _ => true end.
Proof.
  induction ps as [|p ps IH]; [done|]. cbn [existsb flat_map].
  rewrite hasAttachments_attachmentsOf, IH. by destruct (attachmentsOf p).
Qed.

Lemma flag_info payload :
  syncHasAttachments payload =
    match getAttachmentInfo payload with [] => false | _ :: _ => true end ∧
  Forall (λ info, info_filename info ≠ "") (getAttachmentInfo payload).
Proof.
  destruct payload as [[f m b [ps|]]|]; cbn; [|by split; [|constructor]..].
  split; [apply hasAttachments_extract|].
  induction ps as [|p ps IH]; [constructor|]. cbn.
  apply Forall_app. split; [apply attachmentsOf_named | exact IH].
Qed.

(** X14.  In the sync route the flag and the list agree:
    [hasAttachments(payload)] is true exactly when
    [getAttachmentInfo(payload)] is not empty, and every entry of the
    list has a non-empty file name.  [hasAttachments] reads nothing of
    its argument but [parts], which is why calling it on
    [{ parts: part.parts }] is calling it on the part. *)
Theorem attachment_flag_matches_info payload :
  syncHasAttachments payload =
    match getAttachmentInfo payload with [] => false | _ :: _ => true end ∧
  Forall (λ info, info_filename info ≠ "") (getAttachmentInfo payload) ∧
  (∀ filename mimeType body, 
     hasAttachments (Part filename mimeType body (payload ≫= parts))
     = syncHasAttachments payload).
Proof.
  destruct (flag_info payload) as [Hflag Hnamed].
  split; [exact Hflag|]. split; [exact Hnamed|].
  intros filename mimeType body. by destruct payload as [[f m b [ps|]]|].
Qed.

Lemma sizesOf_attachmentsOf part :
  bodiesPresent part = true →
  sizesOf part = Some (omap sizeEntry (attachmentsOf part)).
Proof.
  induction part as [f m b|f m b ps IH] using MessagePart_nested_ind;
    cbn [sizesOf attachmentsOf bodiesPresent];
    intros [Hown Hbelow]%andb_true_iff.
  - destruct (named _) as [name|] eqn:Hname; [|done].
    rewrite bool_decide_false in Hown by done. cbn in Hown.
    apply bool_decide_eq_true in Hown as [[size|] ->]; cbn; [|done].
    unfold sizeEntry. cbn. by case_bool_decide.
  - assert (Hps : mapM sizesOf ps = Some (map (λ p, omap sizeEntry (attachmentsOf p)) ps)).
    { apply mapM_Some. clear Hown.
      induction IH as [|p ps Hp _ IHps]; [constructor|].
      cbn in Hbelow. apply andb_true_iff in Hbelow as [H1 H2].
      constructor; [by apply Hp | by apply IHps]. }
    rewrite Hps. cbn.
    assert (Hcat : concat (map (λ p, omap sizeEntry (attachmentsOf p)) ps)
                   = omap sizeEntry (flat_map attachmentsOf ps)).
    { clear. induction ps as [|p ps IH]; [done|]. cbn.
      by rewrite omap_app, IH. }
    rewrite Hcat, omap_app.
    destruct (named _) as [name|] eqn:Hname; [|done].
    rewrite bool_decide_false in Hown by done. cbn in Hown.
    apply bool_decide_eq_true in Hown as [[size|] ->]; cbn; [|done].
    unfold sizeEntry at 2. cbn. by case_bool_decide.
Qed.

(** X15.  When every named part below the payload has a body,
    [getAttachmentSizes] (analyze route) returns the entries of
    [getAttachmentInfo] (sync route) whose size is not 0, as
    (file name, size), in the same order.  Whenever it returns, every
    entry has a non-empty name and a non-zero size, and a non-empty
    result means [hasAttachments] is true. *)
Theorem sizes_are_info_without_zero filename mimeType body parts :
  let payload := Part filename mimeType body parts in
  (match parts with
   | Some parts => forallb bodiesPresent parts
   | None => true
   end = true) →
  getAttachmentSizes payload
  = Some (omap sizeEntry (getAttachmentInfo (Some payload))) ∧
  (∀ sizes, getAttachmentSizes payload = Some sizes →
     Forall (λ entry, entry.1 ≠ "" ∧ entry.2 ≠ 0) sizes ∧
     (sizes ≠ [] → hasAttachments payload = true)).
Proof.
  intros payload Hbodies.
  assert (Heq : getAttachmentSizes payload
                = Some (omap sizeEntry (getAttachmentInfo (Some payload)))).
  { unfold getAttachmentSizes, getAttachmentInfo. cbn.
    destruct parts as [ps|]; [|done]. cbn.
    assert (Hps : mapM sizesOf ps
                  = Some (map (λ p, omap sizeEntry (attachmentsOf p)) ps)).
    { apply mapM_Some. induction ps as [|p ps IH]; [constructor|].
      cbn in Hbodies. apply andb_true_iff in Hbodies as [H1 H2].
      constructor; [by apply sizesOf_attachmentsOf | by apply IH]. }
    rewrite Hps. cbn. f_equal. clear.
    induction ps as [|p ps IH]; [done|]. cbn. by rewrite omap_app, IH. }
  split; [exact Heq|]. intros sizes Hsizes. rewrite Heq in Hsizes.
  injection Hsizes as <-.
  destruct (flag_info (Some payload)) as [Hflag Hnamed].
  split.
  - apply Forall_forall. intros [name size] (info & Hin & Hentry)%list_elem_of_omap.
    unfold sizeEntry in Hentry. case_bool_decide as Hz; [done|].
    injection Hentry as <- <-. split; [|done].
    by apply (proj1 (Forall_forall _ _) Hnamed).
  - intros Hne.
    change (hasAttachments payload) with (syncHasAttachments (Some payload)).
    rewrite Hflag. by destruct (getAttachmentInfo (Some payload)).
Qed.

Lemma sizes_are_info_without_zero_witness :
  getAttachmentSizes withPdf
  = Some (omap sizeEntry (getAttachmentInfo (Some withPdf))).
Proof.
  destruct (sizes_are_info_without_zero (Some "") (Some "multipart/mixed")
              (Some (Some 0)) (parts withPdf)) as [H _];
    [reflexivity | exact H].
Defined.

(** The PDF is listed by both routes, the file of unknown size by the
    sync route only (with size 0); a named part without a body makes
    [getAttachmentSizes] throw. *)
Example pdf_attachment :
  getAttachmentInfo (Some withPdf)
  = [{| info_filename := "invoice.pdf";
        info_mimeType := Some "application/pdf"; info_size := 52000 |};
     {| info_filename := "empty.txt";
        info_mimeType := Some "text/plain"; info_size := 0 |}] ∧
  getAttachmentSizes withPdf = Some [("invoice.pdf", 52000)] ∧
  syncHasAttachments (Some withPdf) = true ∧
  getAttachmentSizes
    (Part None None None (Some [Part (Some "a.txt") None None None])) = None.
Proof. repeat split; reflexivity. Qed.

End MessagePartsFacts.

Module SenderFieldsFacts.
Import Js Analyzer SenderFields PrefilterNotions AnalyzerProofs.

(** ** The From header *)

Lemma splitAt_app c body rest :
  lacks c body = true →
  splitAt c (body +:+ String c rest) = Some (body, rest).
Proof.
  induction body as [|d body IH]; cbn [lacks]; intros H.
  - change (splitAt c (String c rest) = Some (EmptyString, rest)).
    cbn [splitAt]. by rewrite bool_decide_true.
  - apply andb_true_iff in H as [Hd Hbody]. apply negb_true_iff in Hd.
    rewrite append_cons. cbn [splitAt]. rewrite Hd, IH by done. done.
Qed.

Lemma matchBracketed_skip name rest :
  lacks "<" name = true →
  matchBracketed (name +:+ rest) = matchBracketed rest.
Proof.
  induction name as [|d name IH]; cbn [lacks]; intros H; [done|].
  apply andb_true_iff in H as [Hd Hname]. apply negb_true_iff in Hd.
  rewrite append_cons. cbn [matchBracketed]. by rewrite Hd, IH.
Qed.

Lemma matchBefore_app c a body rest :
  lacks c (String a body) = true →
  matchBefore c (String a body +:+ String c rest) = Some (String a body).
Proof. intros H. unfold matchBefore. by rewrite splitAt_app. Qed.

(** X16.  From the header that [convertDbEmailToEmailData] composes,
    [name <address>], the helpers read the stored fields back:
    [extractSenderEmail] gives the lower-cased address when the name
    holds no "<" and the address is not empty and holds no ">", and
    [extractSenderName] gives the name, trimmed and without double
    quotes. *)
Theorem composed_from_round_trip toLowerCase senderName a senderEmail :
  lacks "<" senderName = true →
  lacks ">" (String a senderEmail) = true →
  extractSenderEmail toLowerCase (composedFrom senderName (String a senderEmail))
  = toLowerCase (String a senderEmail) ∧
  extractSenderName (composedFrom senderName (String a senderEmail))
  = removeQuotes (trim (senderName +:+ " ")).
Proof.
  intros Hname Haddr. unfold composedFrom. split.
  - unfold extractSenderEmail.
    rewrite matchBracketed_skip by done.
    change (" <" +:+ String a senderEmail +:+ ">")
      with (String " " (String "<" (String a senderEmail +:+ String ">" ""))).
    cbn [matchBracketed]. rewrite bool_decide_false by done.
    rewrite bool_decide_true by done.
    by rewrite splitAt_app.
  - unfold extractSenderName.
    assert (Hsplit : senderName +:+ " <" +:+ String a senderEmail +:+ ">"
      = (senderName +:+ " ") +:+ String "<" (String a senderEmail +:+ ">")).
    { clear. induction senderName as [|c s IH]; [done|].
      rewrite (append_cons c s), (append_cons c s " "),
        (append_cons c (s +:+ " ")). by rewrite IH. }
    rewrite Hsplit.
    assert (Hw : lacks "<" (senderName +:+ " ") = true).
    { clear -Hname. induction senderName as [|c s IH]; [done|].
      cbn [lacks] in Hname. apply andb_true_iff in Hname as [H1 H2].
      rewrite append_cons. cbn [lacks]. by rewrite H1, IH. }
    destruct (senderName +:+ " ") as [|c s] eqn:Hs.
    { by destruct senderName. }
    by rewrite matchBefore_app.
Qed.

Lemma composed_from_round_trip_witness :
  extractSenderEmail asciiLowerCase (composedFrom "Ann Lee" "Ann@Example.com")
  = asciiLowerCase "Ann@Example.com" ∧
  extractSenderName (composedFrom "Ann Lee" "Ann@Example.com")
  = removeQuotes (trim ("Ann Lee" +:+ " ")).
Proof.
  apply (composed_from_round_trip asciiLowerCase "Ann Lee" "A" "nn@Example.com");
    reflexivity.
Defined.

Example bare_address :
  extractSenderEmail asciiLowerCase "mail from Ann@Example.com (Ann)"
  = "ann@example.com" ∧
  extractSenderName "ann@example.com" = "ann" ∧
  extractSenderName (composedFrom "Ann Lee" "ann@example.com") = "Ann Lee" ∧
  extractSenderEmail asciiLowerCase "<> X@y" = "x@y".
Proof. repeat split; reflexivity. Qed.

Example regex_samples :
  matchBracketed "a <b> <c>" = Some "b" ∧
  matchBracketed "<<x>>" = Some "<x" ∧
  matchBracketed "a<>b<c>d" = Some "c" ∧
  matchBracketed "<a" = None ∧
  matchAddress "x@y@z a@b" = Some "x@y@z" ∧
  matchAddress "@x@ y" = None ∧
  matchAddress "a@ b@c" = Some "b@c" ∧
  matchAddress "  x@@y " = Some "x@@y" ∧
  matchAddress "x@" = None ∧
  matchAddress "@y" = None.
Proof. repeat split; reflexivity. Qed.

End SenderFieldsFacts.

Module PrefilterFacts.
Import Js Analyzer Prefilter PrefilterNotions LocalClassifier Database Sync
  SyncNotions AnalyzerProofs.

(** ** The pre-filter *)

Lemma startsWith_prefix p : ∀ s q,
  startsWith s (p +:+ q) = true → startsWith s p = true.
Proof.
  induction p as [|c p IH]; intros s q; [done|].
  rewrite append_cons. destruct s as [|d s]; [done|]. cbn [startsWith].
  intros [Hc Hrest]%andb_true_iff. rewrite Hc. cbn. by eapply IH.
Qed.

Lemma includes_prefix p q : ∀ s,
  includes s (p +:+ q) = true → includes s p = true.
Proof.
  induction s as [|d s IH]; cbn [includes].
  - rewrite !orb_false_r. apply startsWith_prefix.
  - intros [H|H]%orb_true_iff.
    + by rewrite (startsWith_prefix _ _ _ H).
    + rewrite (IH H). apply orb_true_r.
Qed.

(** X17.  Every message that [canClassifyWithoutAI] (analyze route)
    accepts is one that [classifyEmail] (sync route) labels [newsletter]
    or [promotional]: the pre-filter fires on no message the sync
    classifier leaves [unknown] or calls [social]. *)
Theorem prefilter_within_sync_classifier toLowerCase subject from senderEmail :
  canClassifyWithoutAI toLowerCase subject senderEmail = true →
  classifyEmail toLowerCase subject from senderEmail = "newsletter" ∨
  classifyEmail toLowerCase subject from senderEmail = "promotional".
Proof.
  unfold canClassifyWithoutAI, classifyEmail. cbn zeta. intros Hcan.
  destruct (newsletterIndicator _ _ _) eqn:Hn; [by left|right].
  unfold newsletterIndicator in Hn.
  repeat (apply orb_false_elim in Hn as [Hn ?]).
  assert (Hp : promotionalIndicator (toLowerCase subject) = true); [|by rewrite Hp].
  unfold promotionalIndicator.
  repeat (apply orb_true_iff in Hcan as [Hcan|Hcan]).
  - apply andb_true_iff in Hcan as [Hcan _]. congruence.
  - congruence.
  - congruence.
  - apply andb_true_iff in Hcan as [-> _]. done.
  - apply (includes_prefix "limited time" " offer") in Hcan. rewrite Hcan.
    by rewrite !orb_true_r.
  - rewrite Hcan. by rewrite !orb_true_r.
Qed.

Lemma prefilter_within_sync_classifier_witness :
  classifyEmail asciiLowerCase "Flash SALE: 20% off" "Shop <hi@shop.example>"
    "hi@shop.example" = "newsletter" ∨
  classifyEmail asciiLowerCase "Flash SALE: 20% off" "Shop <hi@shop.example>"
    "hi@shop.example" = "promotional".
Proof.
  apply (prefilter_within_sync_classifier asciiLowerCase "Flash SALE: 20% off"
           "Shop <hi@shop.example>" "hi@shop.example").
  reflexivity.
Defined.

(** X18.  For a message that [canClassifyWithoutAI] accepts,
    [getLocalAnalysis] recommends [delete] with category [newsletter] or
    [promotional], except when the subject holds "expires today" and no
    other rule matches: such a message is accepted (it is not sent to the
    model) and gets the default verdict [unknown] / [keep].  A message
    that is not accepted would get the default too, and no local verdict
    carries a confidence. *)
Theorem local_verdicts toLowerCase subject senderEmail :
  let verdict := getLocalAnalysis toLowerCase subject senderEmail in
  let keep := localVerdict "unknown" "keep"
                "Unclear classification - keeping for safety" in
  (canClassifyWithoutAI toLowerCase subject senderEmail = true →
     (getField "cleanupRecommendation" verdict = Some (JStr "delete") ∧
      (getField "category" verdict = Some (JStr "newsletter") ∨
       getField "category" verdict = Some (JStr "promotional"))) ∨
     (includes (toLowerCase subject) "expires today" = true ∧ verdict = keep)) ∧
  (canClassifyWithoutAI toLowerCase subject senderEmail = false →
     verdict = keep) ∧
  (includes (toLowerCase subject) "expires today" = true →
     canClassifyWithoutAI toLowerCase subject senderEmail = true) ∧
  getField "confidence" verdict = None.
Proof.
  unfold canClassifyWithoutAI, getLocalAnalysis. cbn zeta.
  set (s := toLowerCase subject). set (e := toLowerCase senderEmail).
  destruct (includes s "newsletter"), (includes s "unsubscribe"),
    (includes e "newsletter"), (includes e "marketing"),
    (includes s "sale"), (includes s "% off"),
    (includes s "limited time offer"), (includes s "expires today");
    cbn; repeat split; try done; intros _; try (left; split; [done|]; tauto);
    by right.
Qed.

Example expires_today_kept :
  canClassifyWithoutAI asciiLowerCase "Your coupon expires today"
    "noreply@store.example" = true ∧
  getLocalAnalysis asciiLowerCase "Your coupon expires today"
    "noreply@store.example"
  = localVerdict "unknown" "keep" "Unclear classification - keeping for safety".
Proof. split; reflexivity. Qed.

(** ** Time ranges *)

Lemma pretty_N_char_numeric x : numeric (pretty_N_char x) = true.
Proof. unfold pretty_N_char. by repeat case_match. Qed.

Lemma pretty_N_go_numeric x : ∀ s,
  allNumeric s = true → allNumeric (pretty_N_go x s) = true.
Proof.
  induction (N.lt_wf_0 x) as [x _ IH]; intros s Hs.
  destruct (decide (x = 0)%N) as [->|Hx]; [by rewrite pretty_N_go_0|].
  rewrite pretty_N_go_step by lia. apply IH.
  - apply N.div_lt; lia.
  - cbn [allNumeric]. by rewrite pretty_N_char_numeric.
Qed.

Lemma pretty_Z_numeric (z : Z) : allNumeric (pretty z) = true.
Proof.
  destruct z as [|p|p]; [done|..].
  - unfold pretty, pretty_Z, pretty, pretty_positive, pretty, pretty_N.
    rewrite decide_False by done. by apply pretty_N_go_numeric.
  - unfold pretty, pretty_Z. rewrite append_cons. cbn [allNumeric].
    change (numeric "-") with true. cbn [andb].
    unfold pretty, pretty_positive, pretty, pretty_N.
    rewrite decide_False by done. by apply pretty_N_go_numeric.
Qed.

Lemma startsWith_numeric p : ∀ b,
  endsOutside p = true → allNumeric b = true → startsWith b p = false.
Proof.
  induction p as [|c p IH]; intros b Hp Hb; [done|].
  destruct b as [|d b]; [done|]. cbn [startsWith allNumeric] in *.
  apply andb_true_iff in Hb as [Hd Hb].
  destruct p as [|c' p'].
  - apply negb_true_iff in Hp. rewrite bool_decide_false; [done|]. congruence.
  - rewrite (IH b) by done. apply andb_false_r.
Qed.

Lemma startsWith_app_numeric b : ∀ a p,
  endsOutside p = true → allNumeric b = true →
  startsWith (a +:+ b) p = startsWith a p.
Proof.
  induction a as [|d a IH]; intros p Hp Hb.
  - change ("" +:+ b) with b. rewrite startsWith_numeric by done.
    by destruct p.
  - destruct p as [|c p]; [done|]. rewrite append_cons. cbn [startsWith].
    destruct p as [|c' p']; [done|]. by rewrite IH.
Qed.

Lemma includes_app_numeric b p : ∀ a,
  endsOutside p = true → allNumeric b = true →
  includes (a +:+ b) p = includes a p.
Proof.
  intros a Hp Hb. induction a as [|d a IH].
  - change ("" +:+ b) with b. cbn [includes].
    replace (startsWith "" p) with false by (by destruct p). cbn [orb].
    clear -Hp Hb. induction b as [|d b IH]; cbn [includes].
    + by destruct p.
    + cbn [allNumeric] in Hb. apply andb_true_iff in Hb as [Hd Hb'].
      rewrite startsWith_numeric by (done || (cbn [allNumeric]; by rewrite Hd)).
      by apply IH.
  - rewrite append_cons. cbn [includes].
    rewrite <- append_cons, startsWith_app_numeric by done.
    by rewrite IH.
Qed.

Lemma append_assoc_s (a b c : string) : (a +:+ b) +:+ c = a +:+ (b +:+ c).
Proof. induction a as [|d a IH]; [done|]. by rewrite !append_cons, IH. Qed.

Lemma concat_snoc sep l x b :
  String.concat sep (l ++ [x +:+ b]) = String.concat sep (l ++ [x]) +:+ b.
Proof.
  induction l as [|y l IH]; [done|].
  destruct l as [|z l].
  - cbn. by rewrite !append_assoc_s.
  - cbn [app String.concat] in *. rewrite IH. by rewrite !append_assoc_s.
Qed.

(** X19.  [extractTimeRangeFromQuery] reads back the time range that
    [buildSearchQuery] wrote, for each of the ranges [all], [7d], [30d],
    [3m], [6m], [1y] and whatever the other options are. *)
Theorem time_range_round_trip options :
  timeRange options ∈ knownTimeRanges →
  extractTimeRangeFromQuery (buildSearchQuery options) = timeRange options.
Proof.
  destruct options as [range spam trash size]. cbn [timeRange]. intros Hin.
  unfold buildSearchQuery. cbn [timeRange excludeSpam excludeTrash maxEmailSize].
  destruct (decide (0 < size)) as [Hsize|Hsize].
  - rewrite (bool_decide_true (0 < size)) by done.
    pose proof (pretty_Z_numeric (size * 1024 * 1024)) as Hb.
    set (b := pretty (size * 1024 * 1024)) in *.
    rewrite !app_assoc, concat_snoc.
    unfold extractTimeRangeFromQuery.
    rewrite !includes_app_numeric by done.
    unfold knownTimeRanges in Hin.
    repeat (apply elem_of_cons in Hin as [->|Hin]);
      [..|by apply elem_of_nil in Hin];
      destruct spam, trash; reflexivity.
  - rewrite (bool_decide_false (0 < size)) by done.
    unfold knownTimeRanges in Hin.
    repeat (apply elem_of_cons in Hin as [->|Hin]);
      [..|by apply elem_of_nil in Hin];
      destruct spam, trash; reflexivity.
Qed.

Lemma time_range_round_trip_witness :
  extractTimeRangeFromQuery (buildSearchQuery sampleOptions) = "7d".
Proof.
  apply (time_range_round_trip sampleOptions).
  unfold knownTimeRanges. cbn. apply elem_of_cons. right. apply elem_of_cons. by left.
Defined.

End PrefilterFacts.

Module HybridFacts.
Import Js Analyzer Report SenderFields Prefilter Hybrid AnalyzerNotions
  HybridNotions AnalyzerProofs SyncProofs.

Section HybridFacts.
Variable JSON_parse : string → option json.
Variable toLowerCase : string → string.
Variable getTime : string → option Z.
Variable convert : DbEmail → EmailData.

Lemma Math_round_div_1 a : Math_round_div a 1 = a.
Proof. unfold Math_round_div. symmetry. apply Z.div_unique with 1; lia. Qed.

(** X20.  [analyzeEmailWithClaude] makes one header call for the one
    message and always returns a result: when the call succeeds, the
    first parsed result with the whole usage of the call (input, output
    and their sum, nothing lost to rounding); when it fails, the default
    analysis without usage. *)
Theorem single_analysis_exact email mode w :
  let run := analyzeEmailWithClaude JSON_parse email mode w in
  calls run.2 = calls w ++ [headersCall [email] mode] ∧
  answer run.2 = answer w ∧
  match answer w (length (calls w)) (headersCall [email] mode) with
  | Responded text input_tokens output_tokens =>
      ∃ result,
        parseBatchAnalysisResult JSON_parse text 1 = [result] ∧
        run.1 = Some {| body := JObj (ownProperties result);
                        Analyzer.tokenUsage :=
                          Some {| inputTokens := Some input_tokens;
                                  outputTokens := Some output_tokens;
                                  totalTokens := Some (input_tokens + output_tokens);
                                  followUpRequest := false |} |}
  | Failed =>
      run.1 = Some {| body := getDefaultAnalysis; Analyzer.tokenUsage := None |}
  end.
Proof.
  unfold analyzeEmailWithClaude, analyzeBatchEmailsWithClaude, analyzeWith, send,
    headersCall. cbn [length fst snd].
  split; [done|]. split; [done|].
  destruct (answer w _ _) as [text i o|]; [|done].
  pose proof (parseBatchAnalysisResult_length JSON_parse text 1) as Hlen.
  destruct (parseBatchAnalysisResult JSON_parse text 1) as [|result [|]];
    try done.
  exists result. split; [done|]. cbn. by rewrite !Math_round_div_1.
Qed.

(** ** One batch *)

Lemma drop_cons_inv {A} (l : list A) n x rest :
  drop n l = x :: rest → l !! n = Some x ∧ drop (S n) l = rest.
Proof.
  intros Hdrop.
  assert (Hx : l !! n = Some x)
    by (by rewrite <- (Nat.add_0_r n), <- lookup_drop, Hdrop).
  split; [done|]. rewrite (drop_S _ _ _ Hx) in Hdrop. by injection Hdrop.
Qed.











(** ** The whole loop *)






(** ** Answers that carry a recommendation *)









(** ** A failed first pass *)

Lemma lowFrom_all emails results : ∀ off rest,
  drop off emails = rest → length results = length rest →
  Forall (λ r, lowConfidence r = true) results →
  lowFrom emails off results = imap (λ i email, ((off + i)%nat, email)) rest.
Proof.
  induction results as [|r results IH]; intros off rest Hdrop Hlen Hall.
  - by destruct rest.
  - destruct rest as [|e rest]; [done|].
    destruct (drop_cons_inv _ _ _ _ Hdrop) as [He Hrest].
    apply Forall_cons in Hall as [Hr Hall].
    rewrite lowFrom_cons, Hr, He, (IH (S off) rest) by (done || by injection Hlen).
    cbn. rewrite Nat.add_0_r. f_equal. apply imap_ext. intros i x _. cbn.
    f_equal. lia.
Qed.

Lemma imap_pair_lookup {A} (l : list A) i :
  imap pair l !! i = pair i <$> l !! i.
Proof. by rewrite list_lookup_imap. Qed.

Lemma splice_all emails enhanced final :
  length enhanced = length emails → length final = length emails →
  splice (imap pair emails) enhanced final = markFollowUp <$> enhanced.
Proof.
  intros He Hf. apply list_eq. intros i.
  rewrite list_lookup_fmap.
  destruct (enhanced !! i) as [e|] eqn:Hi.
  - pose proof (lookup_lt_Some _ _ _ Hi) as Hlt.
    destruct (lookup_lt_is_Some_2 emails i) as [email Hemail]; [lia|].
    cbn. eapply splice_at; [| |exact Hi|lia].
    + assert (Hl : lowFrom emails 0
                (replicate (length emails)
                   {| body := getDefaultAnalysis; Analyzer.tokenUsage := None |})
              = imap pair emails).
      { apply (lowFrom_all emails _ 0 emails);
          [done | by rewrite length_replicate |].
        apply Forall_forall. by intros r [-> _]%elem_of_replicate. }
      rewrite <- Hl. apply lowFrom_NoDup.
    + rewrite imap_pair_lookup, Hemail. done.
  - cbn. apply lookup_ge_None. rewrite splice_length.
    apply lookup_ge_None in Hi. lia.
Qed.

(** X21.  In the progressive analysis, a header call that fails (all
    results are the default, whose confidence is [low]) is followed by
    the snippet call on the whole batch, and the results returned are
    those of the snippet call, each marked [followUpRequest]. *)
Theorem failed_first_pass_retries emails mode w :
  emails ≠ [] →
  answer w (length (calls w)) (headersCall emails mode) = Failed →
  let w1 := {| answer := answer w;
               calls := calls w ++ [headersCall emails mode] |} in
  let second := analyzeEmailsWithSnippets JSON_parse emails mode w1 in
  analyzeEmailsProgressively JSON_parse emails mode w
  = (markFollowUp <$> second.1, second.2) ∧
  calls second.2
  = calls w ++ [headersCall emails mode; snippetsCall emails mode] ∧
  length second.1 = length emails.
Proof.
  intros Hne Hans w1 second.
  assert (Hfirst : analyzeBatchEmailsWithClaude JSON_parse emails mode w
    = (map (λ _, {| body := getDefaultAnalysis; Analyzer.tokenUsage := None |})
         emails, w1)).
  { unfold analyzeBatchEmailsWithClaude, analyzeWith, send.
    unfold headersCall in Hans. by rewrite Hans. }
  assert (Hlow : lowConfidenceEmails emails
     (map (λ _, {| body := getDefaultAnalysis; Analyzer.tokenUsage := None |})
        emails)
     = imap pair emails).
  { rewrite lowConfidenceEmails_lowFrom.
    apply (lowFrom_all emails _ 0 emails); [done|by rewrite length_map|].
    apply Forall_fmap, Forall_forall. by intros ? _. }
  assert (Hsnd : (imap pair emails).*2 = emails).
  { apply list_eq. intros i. rewrite list_lookup_fmap, imap_pair_lookup.
    by destruct (emails !! i). }
  assert (Hlen2 : length second.1 = length emails)
    by apply analyzeWith_length.
  split; [|split; [|done]].
  - rewrite analyzeEmailsProgressively_unfold. cbn zeta.
    rewrite Hfirst. cbn [fst snd]. rewrite Hlow, Hsnd.
    rewrite bool_decide_false.
    2:{ rewrite length_imap. by destruct emails. }
    fold second. f_equal. apply splice_all; [done|by rewrite length_map].
  - unfold second, analyzeEmailsWithSnippets. rewrite analyzeWith_calls.
    unfold w1. cbn [calls]. by rewrite <- app_assoc.
Qed.

End HybridFacts.

Lemma failed_first_pass_retries_witness :
  analyzeEmailsProgressively toyParse threeMails "auto" deadModel
  = (markFollowUp <$>
       (analyzeEmailsWithSnippets toyParse threeMails "auto"
          {| answer := answer deadModel;
             calls := calls deadModel ++ [headersCall threeMails "auto"] |}).1,
     (analyzeEmailsWithSnippets toyParse threeMails "auto"
          {| answer := answer deadModel;
             calls := calls deadModel ++ [headersCall threeMails "auto"] |}).2).
Proof.
  apply (failed_first_pass_retries toyParse threeMails "auto" deadModel).
  - discriminate.
  - reflexivity.
Defined.

(** The second result has no recommendation: the entry of the first
    message stays, and the fallback reports both messages again. *)
Example first_message_reported_twice :
  let next :=
    hybridBatch looseParse toMail "fast" ([], zeroUsage, looseModel)
      [storedMail "a" "Lunch?" "ann@example.com";
       storedMail "b" "Minutes" "bob@example.com"] in
  emailId <$> next.1.1 = ["a"; "a"; "b"] ∧
  length (calls next.2) = 3%nat ∧
  requestCount next.1.2 = 3 ∧
  sumTotalTokens next.1.2 = Some 360.
Proof. repeat split; by vm_compute. Qed.

Example dead_model_keeps_all :
  let emails := [storedMail "a" "Lunch?" "ann@example.com";
                 storedMail "b" "Your coupon expires today" "shop@example.com";
                 storedMail "c" "Minutes" "bob@example.com"] in
  let run := hybridAnalyses toyParse asciiLowerCase toMail "fast" emails deadModel in
  emailId <$> run.1.1 = ["b"; "a"; "c"] ∧
  (λ e, recommendationText (analysis e)) <$> run.1.1
  = [Some "keep"; Some "keep"; Some "keep"] ∧
  length (calls run.2) = 1%nat ∧
  requestCount run.1.2 = 0.
Proof. repeat split; by vm_compute. Qed.

End HybridFacts.

Module ReportFacts.
Import Js Analyzer Report ReportNotions ReportProofs.

(** ** Sorting *)

Lemma insertSorted_sorted {A} (cmp : A → A → Z) (R : A → A → Prop) x l :
  (∀ y, y ∈ l → (cmp x y ≤ 0 → R x y) ∧ (¬ cmp x y ≤ 0 → R y x)) →
  (∀ y z, y ∈ l → z ∈ l → R x y → R y z → R x z) →
  StronglySorted R l → StronglySorted R (insertSorted cmp x l).
Proof.
  intros Hcmp Htrans Hl. induction Hl as [|y l Hl IH Hy]; cbn [insertSorted].
  - repeat constructor.
  - case_bool_decide as Hxy.
    + constructor; [by constructor|]. constructor.
      * apply Hcmp; [left | done].
      * apply Forall_forall. intros z Hz.
        apply (Htrans y z); [left | by right | |].
        -- apply Hcmp; [left | done].
        -- by apply (proj1 (Forall_forall _ _) Hy).
    + constructor.
      * apply IH.
        -- intros z Hz. apply Hcmp. by right.
        -- intros z1 z2 H1 H2. apply Htrans; by right.
      * apply Forall_forall. intros z Hz.
        rewrite insertSorted_perm in Hz. apply elem_of_cons in Hz as [->|Hz].
        -- apply Hcmp; [left | done].
        -- by apply (proj1 (Forall_forall _ _) Hy).
Qed.

Lemma sort_sorted {A} (cmp : A → A → Z) (R : A → A → Prop) (l : list A) :
  (∀ x y, x ∈ l → y ∈ l → (cmp x y ≤ 0 → R x y) ∧ (¬ cmp x y ≤ 0 → R y x)) →
  (∀ x y z, x ∈ l → y ∈ l → z ∈ l → R x y → R y z → R x z) →
  StronglySorted R (sort cmp l).
Proof.
  induction l as [|x l IH]; intros Hcmp Htrans; [constructor|].
  change (sort cmp (x :: l)) with (insertSorted cmp x (sort cmp l)).
  apply insertSorted_sorted.
  - intros y Hy. rewrite sort_perm in Hy. apply Hcmp; [left | by right].
  - intros y z Hy Hz. rewrite sort_perm in Hy, Hz.
    apply Htrans; [left | by right | by right].
  - apply IH.
    + intros y z Hy Hz. apply Hcmp; by right.
    + intros y z1 z2 ? ? ?. apply Htrans; by right.
Qed.

Lemma newestFirst_sorted getTime (l : list Candidate) :
  (∀ c, c ∈ l → is_Some (getTime (cand_date c))) →
  StronglySorted (notOlder getTime) (sort (newestFirst getTime) l).
Proof.
  intros Hvalid. apply sort_sorted.
  - intros a b [ta Ha]%Hvalid [tb Hb]%Hvalid. unfold newestFirst, notOlder.
    rewrite Ha, Hb. split; intros H.
    + exists ta, tb. repeat split; [done..|lia].
    + exists tb, ta. repeat split; [done..|lia].
  - intros a b c _ _ _ (ta & tb & Ha & Hb & Hab) (tb' & tc & Hb' & Hc & Hbc).
    exists ta, tc. repeat split; [done..|]. rewrite Hb in Hb'. injection Hb' as <-.
    lia.
Qed.

Section More.
Variable extractSenderEmail : string → string.
Variable extractSenderName : string → string.
Variable getTime : string → option Z.

Abbreviation visit := (Report.visit extractSenderEmail extractSenderName).
Abbreviation generateReport :=
  (Report.generateReport extractSenderEmail extractSenderName getTime).
Abbreviation tally := (ReportNotions.tally extractSenderEmail).
Abbreviation Tallied := (ReportNotions.Tallied extractSenderEmail).

(** X24.  When every message has a valid date, both candidate lists of
    the report are ordered newest first, and they hold exactly the
    candidates of the analyses recommended for deletion (delete or
    archive) and for keeping. *)
Theorem candidates_newest_first analyses config tokenUsage :
  (∀ entry, entry ∈ analyses →
     is_Some (getTime (date (originalEmail entry)))) →
  let report := generateReport analyses config tokenUsage in
  StronglySorted (notOlder getTime) (deletionCandidates report) ∧
  StronglySorted (notOlder getTime) (keepCandidates report) ∧
  deletionCandidates report
  ≡ₚ candidateOf <$> filter (λ e, recommendsDeletion e = true) analyses ∧
  keepCandidates report
  ≡ₚ candidateOf <$> filter (λ e, recommendsDeletion e = false ∧
                                  recommendsKeep e = true) analyses.
Proof.
  intros Hvalid report.
  destruct (visit_all extractSenderEmail extractSenderName analyses
    {| acc_deletionCandidates := []; acc_keepCandidates := [];
       acc_newsletterSenders := []; acc_totalSize := 0;
       acc_potentialSavings := 0 |}) as (Hd & Hk & _).
  cbn [acc_deletionCandidates acc_keepCandidates app] in Hd, Hk.
  unfold report, Report.generateReport. cbn [deletionCandidates keepCandidates].
  rewrite Hd, Hk.
  assert (Hsub : ∀ (P : AnalysisEntry → Prop) `{!∀ e, Decision (P e)} c,
            c ∈ candidateOf <$> filter P analyses →
            is_Some (getTime (cand_date c))).
  { intros P ? c (entry & -> & [_ Hin]%list_elem_of_filter)%list_elem_of_fmap.
    by apply Hvalid. }
  split; [apply newestFirst_sorted; by apply Hsub|].
  split; [apply newestFirst_sorted; by apply Hsub|].
  split; apply sort_perm.
Qed.

(** ** Newsletter senders *)

Lemma trackSender_keys key name size category senders :
  senderEmail <$> trackSender key name size category senders =
    if decide (key ∈ senderEmail <$> senders)
    then senderEmail <$> senders
    else (senderEmail <$> senders) ++ [key].
Proof.
  induction senders as [|s senders IH]; cbn [trackSender].
  - by rewrite decide_False by apply not_elem_of_nil.
  - destruct (decide (senderEmail s = key)) as [<-|Hne].
    + by rewrite decide_True by left.
    + cbn. rewrite IH.
      destruct (decide (key ∈ senderEmail <$> senders)) as [Hin|Hout].
      * by rewrite decide_True by (by right).
      * rewrite decide_False; [done|].
        intros [?|?]%elem_of_cons; [by subst | done].
Qed.

Lemma sizes_snoc l entry :
  sizes (l ++ [entry]) = sizes l + size (originalEmail entry).
Proof.
  unfold sizes. induction l as [|e l IH]; cbn; [lia|]. rewrite IH. lia.
Qed.

Lemma trackSender_new key name size category senders :
  key ∉ senderEmail <$> senders →
  trackSender key name size category senders =
    senders ++ [{| senderEmail := key; senderName := name; count := 1;
                   totalSize := size; category := category |}].
Proof.
  induction senders as [|s senders IH]; intros Hout; [done|].
  cbn [trackSender]. cbn in Hout. apply not_elem_of_cons in Hout as [Hne Hout].
  rewrite decide_False by done. by rewrite IH.
Qed.

Lemma trackSender_known key name size category senders :
  NoDup (senderEmail <$> senders) → key ∈ senderEmail <$> senders →
  trackSender key name size category senders =
    (λ s, if decide (senderEmail s = key) then bump size s else s) <$> senders.
Proof.
  induction senders as [|s senders IH]; intros Hnd Hin.
  - by apply elem_of_nil in Hin.
  - cbn in Hnd, Hin. apply NoDup_cons in Hnd as [Hfresh Hnd].
    cbn [trackSender fmap list_fmap].
    destruct (decide (senderEmail s = key)) as [Hkey|Hne].
    + f_equal. symmetry. rewrite <- (list_fmap_id senders) at 2.
      apply list_fmap_ext. intros i s' Hs'. rewrite decide_False; [done|].
      intros Heq. apply Hfresh. rewrite Hkey, <- Heq.
      apply list_elem_of_fmap. exists s'. split; [done|].
      by eapply list_elem_of_lookup_2.
    + f_equal. apply IH; [done|].
      apply elem_of_cons in Hin as [?|?]; [by subst | done].
Qed.

Lemma bump_keys key size (senders : list Sender) :
  senderEmail <$>
    ((λ s, if decide (senderEmail s = key) then bump size s else s) <$> senders)
  = senderEmail <$> senders.
Proof.
  rewrite <- list_fmap_compose. apply list_fmap_ext.
  intros i s _. cbn. by case_decide.
Qed.

Lemma tally_other l entry s :
  tracked entry = false ∨
  extractSenderEmail (from (originalEmail entry)) ≠ senderEmail s →
  tally l s → tally (l ++ [entry]) s.
Proof.
  intros Hother (Hc & Hsz & Hnn). unfold tally.
  rewrite filter_app, filter_cons, filter_nil.
  destruct (tracked entry) eqn:Ht.
  - destruct Hother as [?|Hne]; [done|].
    rewrite decide_True by done.
    rewrite filter_app, filter_cons, filter_nil, decide_False by done.
    by rewrite app_nil_r.
  - rewrite decide_False by done. by rewrite app_nil_r.
Qed.

Lemma tally_bump l entry s :
  tracked entry = true →
  extractSenderEmail (from (originalEmail entry)) = senderEmail s →
  tally l s → tally (l ++ [entry]) (bump (size (originalEmail entry)) s).
Proof.
  intros Ht Hkey (Hc & Hsz & Hnn). unfold tally. cbn [bump senderEmail count totalSize].
  rewrite filter_app, filter_cons, filter_nil, decide_True by done.
  rewrite filter_app, filter_cons, filter_nil, decide_True by done.
  rewrite length_app, sizes_snoc, Hc, Hsz. cbn [length].
  repeat split; [lia|]. by intros [? _]%app_eq_nil.
Qed.

Lemma visit_Tallied l entry acc :
  Tallied l (acc_newsletterSenders acc) →
  Tallied (l ++ [entry]) (acc_newsletterSenders (visit acc entry)).
Proof.
  intros [Hnd Heach Hcover]. unfold Report.visit. cbn [acc_newsletterSenders].
  fold (tracked entry).
  set (key := extractSenderEmail (from (originalEmail entry))).
  destruct (tracked entry) eqn:Ht.
  - destruct (decide (key ∈ senderEmail <$> acc_newsletterSenders acc))
      as [Hin|Hout].
    + rewrite trackSender_known by done. constructor.
      * by rewrite bump_keys.
      * apply Forall_fmap. eapply Forall_impl; [exact Heach|].
        intros s Hs. cbn. case_decide as Hk.
        -- by apply tally_bump.
        -- apply tally_other; [|done]. right. fold key. congruence.
      * intros e [He| ->%list_elem_of_singleton]%elem_of_app Htr.
        -- rewrite bump_keys. by apply Hcover.
        -- by rewrite bump_keys.
    + rewrite trackSender_new by done. constructor.
      * rewrite fmap_app. apply NoDup_app. split; [done|]. split.
        -- intros k Hk ->%list_elem_of_singleton. done.
        -- apply NoDup_singleton.
      * apply Forall_app. split.
        -- apply Forall_forall. intros s Hs.
           apply tally_other; [|by apply (proj1 (Forall_forall _ _) Heach)].
           right. fold key. intros Heq. apply Hout. rewrite Heq.
           apply list_elem_of_fmap. by exists s.
        -- constructor; [|constructor]. unfold tally.
           cbn [senderEmail count totalSize].
           rewrite filter_app, filter_cons, filter_nil, decide_True by done.
           rewrite filter_app, filter_cons, filter_nil. fold key.
           rewrite decide_True by done.
           rewrite (filter_none _ (filter _ l)).
           ++ cbn. unfold sizes. cbn. repeat split; [lia | done].
           ++ intros e [Htr Hin]%list_elem_of_filter Hkey.
              apply Hout. rewrite <- Hkey. by apply Hcover.
      * intros e [He| ->%list_elem_of_singleton]%elem_of_app Htr;
          rewrite fmap_app, elem_of_app.
        -- left. by apply Hcover.
        -- right. by apply list_elem_of_singleton.
  - constructor; [done| |].
    + eapply Forall_impl; [exact Heach|]. intros s Hs.
      apply tally_other; [by left | done].
    + intros e [He| ->%list_elem_of_singleton]%elem_of_app Htr;
        [by apply Hcover | congruence].
Qed.

Lemma foldl_Tallied analyses :
  Tallied analyses
    (acc_newsletterSenders
       (foldl visit
          {| acc_deletionCandidates := []; acc_keepCandidates := [];
             acc_newsletterSenders := []; acc_totalSize := 0;
             acc_potentialSavings := 0 |} analyses)).
Proof.
  induction analyses as [|entry analyses IH] using rev_ind.
  - constructor; cbn; [constructor | constructor |].
    by intros e ?%elem_of_nil.
  - rewrite foldl_app. cbn [foldl]. by apply visit_Tallied.
Qed.

(** X25.  The newsletter senders of the report: each address (as
    [extractSenderEmail] reads it) appears once; its count and total size
    are those of the analyses of category [newsletter] or [promotional]
    from that address, of which there is at least one; every such
    analysis has its sender listed; the summary holds the number of
    senders; and the list is ordered by count, largest first. *)
Theorem sender_tallies analyses config tokenUsage :
  let report := generateReport analyses config tokenUsage in
  let senders := newsletterSenders report in
  NoDup (senderEmail <$> senders) ∧
  (∀ s, s ∈ senders →
     let mine :=
       filter (λ e, extractSenderEmail (from (originalEmail e)) = senderEmail s)
         (filter (λ e, tracked e = true) analyses) in
     count s = Z.of_nat (length mine) ∧ totalSize s = sizes mine ∧ 0 < count s) ∧
  (∀ e, e ∈ analyses → tracked e = true →
     extractSenderEmail (from (originalEmail e)) ∈ senderEmail <$> senders) ∧
  sum_newsletterSenders (summary report) = length senders ∧
  StronglySorted (λ a b, count b ≤ count a) senders.
Proof.
  intros report senders.
  destruct (foldl_Tallied analyses) as [Hnd Heach Hcover].
  set (collected := acc_newsletterSenders _) in *.
  assert (Hperm : senders ≡ₚ collected) by apply sort_perm.
  split; [by rewrite Hperm|]. split; [|split; [|split]].
  - intros s Hs. rewrite Hperm in Hs.
    destruct (proj1 (Forall_forall _ _) Heach s Hs) as (Hc & Hsz & Hnn).
    cbn zeta. split; [done|]. split; [done|]. rewrite Hc.
    destruct (filter _ _); [done | cbn; lia].
  - intros e He Ht. rewrite Hperm. by apply Hcover.
  - unfold senders, report, Report.generateReport.
    cbn [summary sum_newsletterSenders newsletterSenders].
    by rewrite sort_length.
  - apply sort_sorted.
    + intros a b _ _. lia.
    + intros a b c _ _ _. lia.
Qed.

(** [totalSize] of the summary is the sum of the sizes of all
    analysed messages, and [potentialSavings] lies between 0 and
    [totalSize] when no size is negative. *)
Theorem sizes_add_up analyses config tokenUsage :
  let report := generateReport analyses config tokenUsage in
  sum_totalSize (summary report) = sizes analyses ∧
  ((∀ entry, entry ∈ analyses → 0 ≤ size (originalEmail entry)) →
   0 ≤ sum_potentialSavings (summary report) ≤ sum_totalSize (summary report)).
Proof.
  intros report.
  destruct (visit_all extractSenderEmail extractSenderName analyses
    {| acc_deletionCandidates := []; acc_keepCandidates := [];
       acc_newsletterSenders := []; acc_totalSize := 0;
       acc_potentialSavings := 0 |}) as (_ & _ & Hs & Ht).
  cbn [acc_potentialSavings acc_totalSize] in Hs, Ht.
  unfold report, Report.generateReport.
  cbn [summary sum_totalSize sum_potentialSavings]. rewrite Hs, Ht.
  split; [lia|]. intros Hpos. clear Hs Ht report.
  assert (0 ≤ sizes (filter (λ e, recommendsDeletion e = true) analyses)
            ≤ sizes analyses); [|lia].
  induction analyses as [|entry analyses IH]; [cbn; lia|].
  rewrite filter_cons.
  assert (0 ≤ size (originalEmail entry)) by (apply Hpos; left).
  assert (IH' : 0 ≤ sizes (filter (λ e, recommendsDeletion e = true) analyses)
                  ≤ sizes analyses)
    by (unfold sizes; apply IH; intros e He; apply Hpos; by right).
  destruct (decide (recommendsDeletion entry = true)); cbn [sizes foldr] in *;
    unfold sizes in *; cbn [foldr]; lia.
Qed.

End More.

Lemma candidates_newest_first_witness :
  StronglySorted (notOlder toyTime)
    (deletionCandidates
       (Report.generateReport (λ from, from) (λ from, from) toyTime
          [datedEntry "a" "2026-01-01" "delete" "newsletter" "news@a.example" 10;
           datedEntry "b" "2026-03-01" "delete" "promotional" "shop@b.example" 20]
          cleanupConfig None)).
Proof.
  destruct (candidates_newest_first (λ from, from) (λ from, from) toyTime
              [datedEntry "a" "2026-01-01" "delete" "newsletter" "news@a.example" 10;
               datedEntry "b" "2026-03-01" "delete" "promotional" "shop@b.example" 20]
              cleanupConfig None) as [H _].
  - intros entry Hin.
    repeat (apply elem_of_cons in Hin as [->|Hin]; [by eexists|]).
    by apply elem_of_nil in Hin.
  - exact H.
Defined.

Example report_of_dated :
  let report :=
    Report.generateReport (λ from, from) (λ from, from) toyTime
      [datedEntry "a" "2026-01-01" "delete" "newsletter" "news@a.example" 10;
       datedEntry "b" "2026-03-01" "delete" "promotional" "shop@b.example" 20;
       datedEntry "c" "2026-02-01" "delete" "newsletter" "news@a.example" 30;
       datedEntry "d" "2026-02-01" "keep" "personal" "ann@c.example" 40]
      cleanupConfig None in
  cand_id <$> deletionCandidates report = ["b"; "c"; "a"] ∧
  (λ s, (senderEmail s, count s, totalSize s)) <$> newsletterSenders report
  = [("news@a.example", 2, 40); ("shop@b.example", 1, 20)] ∧
  sum_totalSize (summary report) = 100.
Proof. repeat split; reflexivity. Qed.

End ReportFacts.

Module ReportTablesFacts.
Import ReportTables ReportTablesNotions.

(** ** The map of updates *)

Lemma mapGet_mapSet {V} key (value : V) m r :
  mapGet r (mapSet key value m)
  = if decide (key = r) then Some value else mapGet r m.
Proof.
  induction m as [|[k v] m IH]; cbn [mapSet mapGet].
  - done.
  - destruct (decide (k = key)) as [->|Hk]; cbn [mapGet].
    + by destruct (decide (key = r)).
    + rewrite IH. destruct (decide (k = r)) as [->|]; [|done].
      by rewrite decide_False.
Qed.

Lemma mapSet_keys {V} key (value : V) m :
  (mapSet key value m).*1
  = if decide (key ∈ m.*1) then m.*1 else m.*1 ++ [key].
Proof.
  induction m as [|[k v] m IH]; cbn [mapSet].
  - by rewrite decide_False by apply not_elem_of_nil.
  - destruct (decide (k = key)) as [->|Hk]; cbn.
    + by rewrite decide_True by left.
    + rewrite IH. destruct (decide (key ∈ m.*1)) as [Hin|Hout].
      * by rewrite decide_True by (by right).
      * rewrite decide_False; [done|].
        intros [?|?]%elem_of_cons; [by subst | done].
Qed.

Lemma mapGet_keys {V} (m : list (string * V)) r :
  is_Some (mapGet r m) ↔ r ∈ m.*1.
Proof.
  induction m as [|[k v] m IH]; cbn.
  - split; [by intros [? ?] | by intros ?%elem_of_nil].
  - destruct (decide (k = r)) as [->|Hk].
    + split; [intros _; left | by eexists].
    + rewrite IH. split; [by right|].
      intros [?|?]%elem_of_cons; [by subst | done].
Qed.

Lemma sizeOf_app l1 l2 : sizeOf (l1 ++ l2) = sizeOf l1 + sizeOf l2.
Proof. induction l1 as [|c l1 IH]; cbn; [done|]. unfold sizeOf in *. lia. Qed.

Lemma groupByReport_spec deletedCandidates :
  NoDup (groupByReport deletedCandidates).*1 ∧
  ∀ r, mapGet r (groupByReport deletedCandidates) =
    match filter (λ c, ec_reportId c = r) deletedCandidates with
    | [] => None
    | mine => Some (Z.of_nat (length mine), sizeOf mine)
    end.
Proof.
  unfold groupByReport.
  induction deletedCandidates as [|c l [IHk IHg]] using rev_ind.
  - split; [constructor | done].
  - rewrite foldl_app. cbn [foldl].
    set (m := foldl _ [] l) in *. split.
    + rewrite mapSet_keys. destruct (decide _); [done|].
      apply NoDup_app. split; [done|]. split; [|apply NoDup_singleton].
      intros x Hx ->%list_elem_of_singleton. done.
    + intros r. rewrite mapGet_mapSet, filter_app, filter_cons, filter_nil.
      destruct (decide (ec_reportId c = r)) as [<-|Hne].
      * rewrite IHg.
        destruct (filter _ l) as [|c0 mine]; cbn.
        -- f_equal. f_equal; lia.
        -- rewrite length_app, sizeOf_app. cbn. f_equal. f_equal; [lia|].
           unfold sizeOf. cbn. lia.
      * rewrite IHg, app_nil_r. done.
Qed.

(** ** The loop over the reports *)

Lemma filter_none_length {A} (P : A → Prop) `{!∀ x, Decision (P x)} l :
  length (filter P l) = 0%nat → filter (λ x, ¬ P x) l = l.
Proof.
  induction l as [|x l IH]; [done|]. rewrite !filter_cons.
  destruct (decide (P x)); [done|]. intros Hlen.
  rewrite decide_True by done. f_equal. by apply IH.
Qed.

Lemma filter_ext_on {A} (P Q : A → Prop) `{!∀ x, Decision (P x)}
    `{!∀ x, Decision (Q x)} (l : list A) :
  (∀ x, x ∈ l → P x ↔ Q x) → filter P l = filter Q l.
Proof.
  induction l as [|y l IH]; intros HPQ; [done|].
  rewrite !filter_cons, IH by (intros; apply HPQ; by right).
  apply decide_ext, HPQ. left.
Qed.

Lemma filter_all_on {A} (P : A → Prop) `{!∀ x, Decision (P x)} (l : list A) :
  (∀ x, x ∈ l → P x) → filter P l = l.
Proof.
  induction l as [|y l IH]; intros HP; [done|].
  rewrite filter_cons, decide_True by (apply HP; left).
  f_equal. apply IH. intros x Hx. apply HP. by right.
Qed.

Lemma updateReport_step tables u d k count sizeReduction :
  let st := updateReport (tables, u, d) (k, (count, sizeReduction)) in
  emailCandidates st.1.1 = emailCandidates tables ∧
  (∀ r, reports st.1.1 !! r =
     if decide (k = r) then settled tables k (Some (count, sizeReduction))
     else reports tables !! r) ∧
  newsletterSenders st.1.1
  = filter (λ s, ¬ (ns_reportId s = k ∧ is_Some (reports tables !! k) ∧
                     candidateCount k tables = 0%nat))
      (newsletterSenders tables) ∧
  (st.1.2 + st.2 =
   u + d + if decide (is_Some (reports tables !! k)) then 1 else 0)%nat ∧
  (base.size (reports st.1.1) + st.2 = base.size (reports tables) + d)%nat.
Proof.
  cbn zeta. unfold updateReport, settled.
  destruct (reports tables !! k) as [report|] eqn:Hk.
  - rewrite decide_True by done.
    case_bool_decide as Hrem; cbn [fst snd reports emailCandidates newsletterSenders].
    + split; [by apply filter_none_length|]. split; [|split; [|split]].
      * intros r. destruct (decide (k = r)) as [<-|Hne];
          [by rewrite lookup_delete_eq | by rewrite lookup_delete_ne].
      * apply list_filter_iff. intros s. split.
        -- intros Hne (? & _). done.
        -- intros Hn Heq. apply Hn. split; [done|]. split; [by eexists | done].
      * lia.
      * rewrite map_size_delete_Some by done.
        assert (base.size (reports tables) ≠ 0%nat); [|lia].
        intros Hz%map_size_empty_inv. by rewrite Hz, lookup_empty in Hk.
    + split; [done|]. split; [|split; [|split]].
      * intros r. destruct (decide (k = r)) as [<-|Hne];
          [by rewrite lookup_insert_eq | by rewrite lookup_insert_ne].
      * symmetry. apply filter_all_on. by intros s _ (_ & _ & ?).
      * lia.
      * by rewrite map_size_insert_Some.
  - rewrite decide_False by (by intros [? ?]). cbn [fst snd].
    split; [done|]. split; [|split; [|split]].
    + intros r. destruct (decide (k = r)) as [<-|]; done.
    + symmetry. apply filter_all_on. by intros s _ (_ & [? ?] & _).
    + lia.
    + done.
Qed.

Lemma updateReport_loop updates : ∀ tables u d,
  NoDup updates.*1 →
  let st := foldl updateReport (tables, u, d) updates in
  emailCandidates st.1.1 = emailCandidates tables ∧
  (∀ r, reports st.1.1 !! r = settled tables r (mapGet r updates)) ∧
  newsletterSenders st.1.1
  = filter (λ s, ¬ emptied tables updates (ns_reportId s))
      (newsletterSenders tables) ∧
  (st.1.2 + st.2 =
   u + d + length (filter (λ r, is_Some (reports tables !! r)) updates.*1))%nat ∧
  (base.size (reports st.1.1) + st.2 = base.size (reports tables) + d)%nat.
Proof.
  induction updates as [|[k [count sizeReduction]] updates IH];
    intros tables u d Hnd; cbn zeta.
  - cbn. split; [done|]. split; [done|]. split; [|lia].
    symmetry. apply filter_all_on. intros s _ (Hin & _). by apply elem_of_nil in Hin.
  - cbn [fmap list_fmap fst] in Hnd. apply NoDup_cons in Hnd as [Hk Hnd].
    cbn [foldl].
    pose proof (updateReport_step tables u d k count sizeReduction) as Hstep.
    cbn zeta in Hstep.
    destruct (updateReport (tables, u, d) (k, (count, sizeReduction)))
      as [[tables1 u1] d1].
    cbn [fst snd] in Hstep. destruct Hstep as (Hcand & Hrep & Hs1 & Hn1 & Hz1).
    specialize (IH tables1 u1 d1 Hnd). cbn zeta in IH.
    destruct IH as (IHc & IHr & IHs & IHn & IHz).
    assert (Hcount : ∀ r, candidateCount r tables1 = candidateCount r tables)
      by (intros r; unfold candidateCount; by rewrite Hcand).
    assert (Hother : ∀ r, r ∈ updates.*1 →
              reports tables1 !! r = reports tables !! r).
    { intros r Hr. rewrite Hrep, decide_False; [done|]. by intros ->. }
    split; [by rewrite IHc|]. split; [|split; [|split]].
    + intros r. rewrite IHr. cbn [mapGet].
      destruct (decide (k = r)) as [<-|Hne].
      * assert (Hnone : mapGet k updates = None).
        { apply eq_None_not_Some. by rewrite mapGet_keys. }
        rewrite Hnone. cbn [settled]. by rewrite Hrep, decide_True.
      * unfold settled. by rewrite Hrep, decide_False, Hcount.
    + rewrite IHs, Hs1, list_filter_filter. apply list_filter_iff. intros s.
      unfold emptied. cbn [fmap list_fmap fst].
      split.
      * intros [H1 H2] (Hin & Hsome & Hzero).
        apply elem_of_cons in Hin as [Hin|Hin].
        -- apply H2. by rewrite Hin in Hsome, Hzero.
        -- apply H1. split; [done|]. by rewrite Hother, Hcount.
      * intros Hn. split.
        -- intros (Hin & Hsome & Hzero). apply Hn.
           rewrite Hother, Hcount in * by done.
           split; [by right|]. done.
        -- intros (Heq & Hsome & Hzero). apply Hn.
           rewrite Heq. split; [left|]; done.
    + rewrite IHn. cbn [fmap list_fmap fst]. rewrite filter_cons.
      rewrite (filter_ext_on (λ r, is_Some (reports tables1 !! r))
                 (λ r, is_Some (reports tables !! r)))
        by (intros r Hr; by rewrite Hother).
      destruct (decide (is_Some (reports tables !! k))); cbn [length]; lia.
    + lia.
Qed.

(** ** The whole call *)

Lemma delete_by_id {A} (f : A → string) (P : A → Prop)
    `{!∀ x, Decision (P x)} (l : list A) :
  NoDup (f <$> l) →
  filter (λ c, f c ∉ f <$> filter P l) l = filter (λ c, ¬ P c) l.
Proof.
  intros Hnd. apply filter_ext_on. intros c Hc. split.
  - intros Hout HP. apply Hout, list_elem_of_fmap. exists c.
    split; [done|]. by apply list_elem_of_filter.
  - intros HnP (c' & Heq & [HP Hc']%list_elem_of_filter)%list_elem_of_fmap.
    apply HnP.
    assert (c = c'); [|by subst].
    clear -Hnd Hc Hc' Heq. induction l as [|x l IH]; [by apply elem_of_nil in Hc|].
    cbn in Hnd. apply NoDup_cons in Hnd as [Hx Hnd].
    apply elem_of_cons in Hc as [->|Hc]; apply elem_of_cons in Hc' as [->|Hc'].
    + done.
    + exfalso. apply Hx. rewrite Heq. apply list_elem_of_fmap. by exists c'.
    + exfalso. apply Hx. rewrite <- Heq. apply list_elem_of_fmap. by exists c.
    + by apply IH.
Qed.

Lemma lost_owned userEmail deletedGmailIds tables r :
  lost userEmail deletedGmailIds tables r ≠ [] →
  rep_userEmail <$> reports tables !! r = Some userEmail.
Proof.
  unfold lost. intros Hne.
  destruct (filter _ (filter _ _)) as [|c rest] eqn:Hl; [done|].
  assert (Hc : c ∈ c :: rest) by left. rewrite <- Hl in Hc.
  apply list_elem_of_filter in Hc as [<- Hc].
  by apply list_elem_of_filter in Hc as [[_ Ho] _].
Qed.

Lemma lost_reports userEmail deletedGmailIds tables r :
  r ∈ ec_reportId <$>
        filter (toDelete userEmail deletedGmailIds tables) (emailCandidates tables)
  ↔ lost userEmail deletedGmailIds tables r ≠ [].
Proof.
  unfold lost. split.
  - intros (c & -> & Hc)%list_elem_of_fmap Hnil.
    assert (Hin : c ∈ filter (λ c', ec_reportId c' = ec_reportId c)
                      (filter (toDelete userEmail deletedGmailIds tables)
                         (emailCandidates tables)))
      by (by apply list_elem_of_filter).
    rewrite Hnil in Hin. by apply elem_of_nil in Hin.
  - intros Hne. destruct (filter _ (filter _ _)) as [|c rest] eqn:Hl; [done|].
    assert (Hc : c ∈ c :: rest) by left. rewrite <- Hl in Hc.
    apply list_elem_of_filter in Hc as [<- Hc].
    apply list_elem_of_fmap. by exists c.
Qed.

Lemma cleanup_spec userEmail deletedGmailIds tables :
  NoDup (ec_id <$> emailCandidates tables) →
  let run := cleanupReportsAfterDeletion userEmail deletedGmailIds tables in
  let gone := toDelete userEmail deletedGmailIds tables in
  emailCandidates run.2 = filter (λ c, ¬ gone c) (emailCandidates tables) ∧
  deletedCandidates run.1 = length (filter gone (emailCandidates tables)) ∧
  (∀ r, reports run.2 !! r = reportAfter userEmail deletedGmailIds tables r) ∧
  newsletterSenders run.2
  = filter (λ s, ¬ (lost userEmail deletedGmailIds tables (ns_reportId s) ≠ [] ∧
                     kept userEmail deletedGmailIds tables (ns_reportId s) = []))
      (newsletterSenders tables) ∧
  (updatedReports run.1 + deletedReports run.1)%nat
  = base.size (list_to_set
                 (ec_reportId <$> filter gone (emailCandidates tables))
               : gset string) ∧
  (base.size (reports run.2) + deletedReports run.1)%nat
  = base.size (reports tables).
Proof.
  intros Hnd run gone. unfold run, cleanupReportsAfterDeletion. fold gone.
  set (D := filter gone (emailCandidates tables)).
  assert (Hlost : ∀ r, lost userEmail deletedGmailIds tables r
                       = filter (λ c, ec_reportId c = r) D) by done.
  case_bool_decide as Hempty.
  { apply length_zero_iff_nil in Hempty. cbn [fst snd deletedCandidates
      updatedReports deletedReports].
    assert (Hnone : ∀ r, lost userEmail deletedGmailIds tables r = [])
      by (intros r; by rewrite Hlost, Hempty).
    split. { symmetry. apply filter_none_length. fold D. by rewrite Hempty. }
    split; [by rewrite Hempty|]. split; [|split; [|split]].
    - intros r. unfold reportAfter. rewrite Hnone. by destruct (reports tables !! r).
    - symmetry. apply filter_all_on. intros s _ [Hl _]. by rewrite Hnone in Hl.
    - rewrite Hempty. done.
    - lia. }
  set (tables1 := {| reports := reports tables;
                     emailCandidates := filter _ (emailCandidates tables);
                     newsletterSenders := newsletterSenders tables |}).
  assert (Hc1 : emailCandidates tables1
                = filter (λ c, ¬ gone c) (emailCandidates tables)).
  { unfold tables1. cbn [emailCandidates]. unfold D. by apply delete_by_id. }
  destruct (groupByReport_spec D) as [Hkeys Hget].
  pose proof (updateReport_loop (groupByReport D) tables1 0 0 Hkeys) as Hloop.
  cbn zeta in Hloop.
  destruct (foldl updateReport (tables1, 0%nat, 0%nat) (groupByReport D))
    as [[tables2 u] d].
  cbn [fst snd deletedCandidates updatedReports deletedReports] in *.
  destruct Hloop as (Hc & Hr & Hs & Hn & Hz).
  assert (Hcount : ∀ r, candidateCount r tables1
                        = length (kept userEmail deletedGmailIds tables r)).
  { intros r. unfold candidateCount, kept. by rewrite Hc1. }
  assert (Hin : ∀ r, r ∈ (groupByReport D).*1 ↔
                     lost userEmail deletedGmailIds tables r ≠ []).
  { intros r. rewrite <- mapGet_keys, Hget, <- Hlost.
    destruct (lost userEmail deletedGmailIds tables r); split;
      first [done | by intros [? ?] | by eexists]. }
  split; [by rewrite Hc|]. split; [done|]. split; [|split; [|split]].
  - intros r. rewrite Hr. unfold settled, reportAfter.
    rewrite Hget, <- Hlost, Hcount. cbn [reports tables1].
    destruct (lost userEmail deletedGmailIds tables r) as [|c mine];
      [by destruct (reports tables !! r)|].
    destruct (reports tables !! r) as [report|]; [|done].
    destruct (kept userEmail deletedGmailIds tables r); done.
  - rewrite Hs. cbn [newsletterSenders tables1].
    apply list_filter_iff. intros s. unfold emptied.
    rewrite Hin, Hcount. cbn [reports tables1]. split.
    + intros Hn' [Hl Hk]. apply Hn'. split; [done|]. split.
      * apply lost_owned in Hl.
        destruct (reports tables !! ns_reportId s); [by eexists | done].
      * by rewrite Hk.
    + intros Hn' (Hl & _ & Hk). apply Hn'. split; [done|].
      by apply length_zero_iff_nil.
  - rewrite Hn. cbn [reports tables1].
    rewrite filter_all_on.
    + rewrite <- (size_list_to_set (C:=gset string)) by done.
      cbn [Nat.add]. f_equal. apply set_eq. intros r.
      rewrite !elem_of_list_to_set, Hin. symmetry. apply lost_reports.
    + intros r Hkey%Hin%lost_owned.
      destruct (reports tables !! r); [by eexists | done].
  - cbn [reports tables1] in Hz. lia.
Qed.

(** X26.  What [cleanupReportsAfterDeletion] does, the ids of the
    candidate rows being distinct.  It removes the candidates of the
    user's reports whose message is among the deleted ones, and no other
    candidate.  A report that loses no candidate is untouched; one that
    keeps some has [deletionCandidates] lowered by the number of rows it
    lost and [potentialSavings] by their size, and no other column
    changed; one that keeps none is deleted with its senders.  The counts
    returned are the rows removed, and the reports that lost a row
    (updated or deleted); the number of reports falls by
    [deletedReports]. *)
Theorem report_cleanup_effect userEmail deletedGmailIds tables :
  NoDup (ec_id <$> emailCandidates tables) →
  let run := cleanupReportsAfterDeletion userEmail deletedGmailIds tables in
  let gone := toDelete userEmail deletedGmailIds tables in
  emailCandidates run.2 = filter (λ c, ¬ gone c) (emailCandidates tables) ∧
  deletedCandidates run.1 = length (filter gone (emailCandidates tables)) ∧
  (∀ r, reports run.2 !! r =
     match reports tables !! r with
     | None => None
     | Some report =>
         match lost userEmail deletedGmailIds tables r,
               kept userEmail deletedGmailIds tables r with
         | [], _ => Some report
         | _ :: _, [] => None
         | mine, _ :: _ =>
             Some (reduced report (Z.of_nat (length mine)) (sizeOf mine))
         end
     end) ∧
  newsletterSenders run.2
  = filter (λ s, ¬ (lost userEmail deletedGmailIds tables (ns_reportId s) ≠ [] ∧
                     kept userEmail deletedGmailIds tables (ns_reportId s) = []))
      (newsletterSenders tables) ∧
  (updatedReports run.1 + deletedReports run.1)%nat
  = base.size (list_to_set
                 (ec_reportId <$> filter gone (emailCandidates tables))
               : gset string) ∧
  (base.size (reports run.2) + deletedReports run.1)%nat
  = base.size (reports tables).
Proof. apply cleanup_spec. Qed.

Lemma report_cleanup_effect_witness :
  emailCandidates
    (cleanupReportsAfterDeletion "me@example.com" ["m1"] sampleTables).2
  = filter (λ c, ¬ toDelete "me@example.com" ["m1"] sampleTables c)
      (emailCandidates sampleTables).
Proof.
  apply (report_cleanup_effect "me@example.com" ["m1"] sampleTables).
  apply (bool_decide_unpack _). vm_compute. exact I.
Defined.

Lemma forDeletion_split (Q : EmailCandidateRow → Prop)
    `{!∀ c, Decision (Q c)} r (l : list EmailCandidateRow) :
  let F l := filter (λ c, ec_recommendationType c = "delete")
               (filter (λ c, ec_reportId c = r) l) in
  length (F l)
  = (length (F (filter Q l)) + length (F (filter (λ c, ¬ Q c) l)))%nat ∧
  sizeOf (F l) = sizeOf (F (filter Q l)) + sizeOf (F (filter (λ c, ¬ Q c) l)).
Proof.
  cbn zeta. induction l as [|c l [IH1 IH2]]; [done|].
  rewrite !(filter_cons _ c l).
  destruct (decide (Q c)) as [HQ|HQ].
  - rewrite (decide_False (P:=¬ Q c)) by tauto.
    rewrite !(filter_cons _ c).
    destruct (decide (ec_reportId c = r)); [|done].
    rewrite !(filter_cons _ c).
    destruct (decide (ec_recommendationType c = "delete")); [|done].
    cbn [length]. unfold sizeOf in *. cbn [foldr]. lia.
  - rewrite (decide_True (P:=¬ Q c)) by done.
    rewrite !(filter_cons _ c).
    destruct (decide (ec_reportId c = r)); [|done].
    rewrite !(filter_cons _ c).
    destruct (decide (ec_recommendationType c = "delete")); [|done].
    cbn [length]. unfold sizeOf in *. cbn [foldr]. lia.
Qed.

(** X27.  The call keeps the summary of a report in step with its rows
    so long as it removes only rows recommended for deletion: if
    [deletionCandidates] and [potentialSavings] of a report are the
    number and the size of its rows of type [delete], and every row the
    report loses is of that type, then the same holds of the report
    afterwards (if it is still there), and its [keepCandidates] and
    [totalEmails] are what they were. *)
Theorem report_cleanup_keeps_counts userEmail deletedGmailIds tables r
    report report' :
  NoDup (ec_id <$> emailCandidates tables) →
  reports tables !! r = Some report →
  Counted tables r report →
  (∀ c, c ∈ lost userEmail deletedGmailIds tables r →
        ec_recommendationType c = "delete") →
  reports (cleanupReportsAfterDeletion userEmail deletedGmailIds tables).2 !! r
  = Some report' →
  Counted (cleanupReportsAfterDeletion userEmail deletedGmailIds tables).2 r
    report' ∧
  rep_keepCandidates report' = rep_keepCandidates report ∧
  rep_totalEmails report' = rep_totalEmails report.
Proof.
  intros Hnd Hrep [Hcount Hsize] Htype Hrep'.
  destruct (cleanup_spec userEmail deletedGmailIds tables Hnd)
    as (Hc & _ & Hr & _).
  rewrite Hr in Hrep'. unfold reportAfter in Hrep'. rewrite Hrep in Hrep'.
  destruct (forDeletion_split (toDelete userEmail deletedGmailIds tables) r
              (emailCandidates tables)) as [Hlen Hsz].
  assert (Hgone : filter (λ c, ec_recommendationType c = "delete")
             (filter (λ c, ec_reportId c = r)
                (filter (toDelete userEmail deletedGmailIds tables)
                   (emailCandidates tables)))
           = lost userEmail deletedGmailIds tables r)
    by (by apply filter_all_on).
  rewrite Hgone in Hlen, Hsz.
  unfold Counted, forDeletion in *. rewrite Hc.
  destruct (lost userEmail deletedGmailIds tables r) as [|c mine] eqn:Hl.
  - injection Hrep' as <-. cbn in Hlen, Hsz.
    split; [split | done]; [by rewrite Hcount, Hlen | by rewrite Hsize, Hsz].
  - destruct (kept userEmail deletedGmailIds tables r); [done|].
    injection Hrep' as <-. cbn [reduced rep_deletionCandidates
      rep_potentialSavings rep_keepCandidates rep_totalEmails].
    split; [split | done].
    + cbn [length] in Hlen |- *. rewrite Hcount, Hlen, Nat2Z.inj_add.
      generalize (Z.of_nat (S (length mine))). intros.
      match goal with |- ?a + ?x - ?a = ?y => replace (a + x - a) with x by lia end.
      reflexivity.
    + change (sizeOf (c :: mine)) with (ec_size c + sizeOf mine) in Hsz.
      rewrite Hsize, Hsz.
      generalize (ec_size c + sizeOf mine). intros.
      match goal with |- ?a + ?x - ?a = ?y => replace (a + x - a) with x by lia end.
      reflexivity.
Qed.

Lemma report_cleanup_keeps_counts_witness :
  ∃ report',
    reports (cleanupReportsAfterDeletion "me@example.com" ["m1"] sampleTables).2
      !! "r1" = Some report' ∧
    Counted (cleanupReportsAfterDeletion "me@example.com" ["m1"] sampleTables).2
      "r1" report'.
Proof.
  eexists. split; [reflexivity|].
  eapply (report_cleanup_keeps_counts "me@example.com" ["m1"] sampleTables "r1").
  - apply (bool_decide_unpack _). vm_compute. exact I.
  - reflexivity.
  - split; reflexivity.
  - intros c Hc. vm_compute in Hc.
    apply list_elem_of_singleton in Hc as ->. reflexivity.
  - reflexivity.
Defined.

(** Deleting the messages [m1]: the first report loses a row and is
    updated, the second loses its only row and goes with its sender, the
    report of the other user is left alone. *)
Example cleanup_of_sample :
  let run := cleanupReportsAfterDeletion "me@example.com" ["m1"] sampleTables in
  run.1 = {| deletedCandidates := 2; updatedReports := 1; deletedReports := 1 |} ∧
  ec_id <$> emailCandidates run.2 = ["c2"; "c3"; "c5"] ∧
  ns_id <$> newsletterSenders run.2 = ["s1"] ∧
  (rep_deletionCandidates <$> reports run.2 !! "r1") = Some 1 ∧
  (rep_potentialSavings <$> reports run.2 !! "r1") = Some 200 ∧
  reports run.2 !! "r2" = None ∧
  reports run.2 !! "r3" = reports sampleTables !! "r3".
Proof. repeat split; by vm_compute. Qed.

(** Deleting [m3], which the first report recommends to keep, lowers
    [deletionCandidates] and [potentialSavings] of that report all the
    same, and leaves [keepCandidates] as it was: two rows for deletion
    of 300 bytes remain, the summary says one row and no byte. *)
Example kept_message_lowers_deletion_count :
  let run := cleanupReportsAfterDeletion "me@example.com" ["m3"] sampleTables in
  length (forDeletion run.2 "r1") = 2%nat ∧
  sizeOf (forDeletion run.2 "r1") = 300 ∧
  (rep_deletionCandidates <$> reports run.2 !! "r1") = Some 1 ∧
  (rep_potentialSavings <$> reports run.2 !! "r1") = Some 0 ∧
  (rep_keepCandidates <$> reports run.2 !! "r1") = Some 1.
Proof. repeat split; by vm_compute. Qed.

End ReportTablesFacts.

Module DeleteRouteFacts.
Import Js Database ReportTables ReportTablesNotions DeleteRoute
  DeleteRouteNotions DatabaseProofs SyncProofs ReportTablesFacts.

Lemma Adds_nil st : Adds [] st st.
Proof. exists [], []. by rewrite !app_nil_r. Qed.

Lemma Adds_trans a b st st' st'' :
  Adds a st st' → Adds b st' st'' → Adds (a ++ b) st st''.
Proof.
  intros (n1 & f1 & He1 & Hs1 & Hf1 & Hp1) (n2 & f2 & He2 & Hs2 & Hf2 & Hp2).
  exists (n1 ++ n2), (f1 ++ f2).
  rewrite He2, He1, Hs2, Hs1, Hf2, Hf1, <- !app_assoc.
  split; [done|]. unfold accepted in *. rewrite flat_map_app.
  split; [done|]. split; [done|].
  rewrite fmap_app, <- Hp1, <- Hp2, <- !app_assoc.
  apply Permutation_app_head. rewrite !app_assoc.
  apply Permutation_app_tail, Permutation_app_comm.
Qed.

Lemma accepted_app new1 new2 :
  accepted (new1 ++ new2) = accepted new1 ++ accepted new2.
Proof. apply flat_map_app. Qed.

Lemma Adds_succeed ids results w w' new :
  events w' = events w ++ new → accepted new = ids →
  Adds ids (results, w) (succeed ids results, w').
Proof.
  intros He Ha. exists new, []. cbn [fst snd succeed successful failed fmap list_fmap].
  rewrite Ha, !app_nil_r. done.
Qed.

Lemma Adds_failAll message ids results w w' new :
  events w' = events w ++ new → accepted new = [] →
  Adds ids (results, w) (failAll message ids results, w').
Proof.
  intros He Ha.
  exists new, (map (λ emailId, {| emailId := emailId; error := message |}) ids).
  cbn [fst snd failAll successful failed]. rewrite Ha, app_nil_r.
  split; [done|]. split; [done|]. split; [done|]. cbn [app].
  induction ids as [|id ids IH]; [done|]. cbn. by f_equiv.
Qed.

Lemma Adds_events results w w' new :
  events w' = events w ++ new → accepted new = [] →
  Adds [] (results, w) (results, w').
Proof.
  intros He Ha. exists new, []. cbn [fst snd]. by rewrite Ha, !app_nil_r.
Qed.

Lemma trashOne_Adds accessToken st emailId :
  Adds [emailId] st (trashOne accessToken st emailId).
Proof.
  destruct st as [results w]. unfold trashOne, gmailCall.
  destruct (gmailApi w _ _ _) as [individualError|]; cbn zeta.
  - by eapply (Adds_failAll _ _ _ _ _ [_]).
  - by eapply (Adds_succeed _ _ _ _ [_]).
Qed.

Lemma trashEach_Adds accessToken ids : ∀ st,
  Adds ids st (foldl (trashOne accessToken) st ids).
Proof.
  induction ids as [|emailId ids IH]; intros st; [apply Adds_nil|].
  cbn [foldl].
  exact (Adds_trans [emailId] ids _ _ _ (trashOne_Adds accessToken st emailId)
           (IH _)).
Qed.

Lemma setupGmailClient_events session w :
  ∃ new, events (setupGmailClient session w).2 = events w ++ new ∧
         accepted new = [].
Proof.
  unfold setupGmailClient, refreshAccessToken.
  destruct (_ && _).
  - destruct (tokenEndpoint _ _ _); [eexists [_; _; _] | eexists [_; _]]; cbn;
      by rewrite <- !app_assoc.
  - by eexists [_].
Qed.

Lemma setupGmailClient_throws session w error :
  (setupGmailClient session w).1 = inl error →
  error = ErrorWith "Failed to refresh access token" None ∧
  events (setupGmailClient session w).2
  = events w ++ [ReadClock; Refresh (default "" (refreshToken session))].
Proof.
  unfold setupGmailClient, refreshAccessToken.
  destruct (_ && _); [|done].
  destruct (tokenEndpoint _ _ _); [done|]. cbn. intros [= <-].
  by rewrite <- app_assoc.
Qed.

Lemma retryFailed_Adds retryError currentBatch results w w' new :
  events w' = events w ++ new → accepted new = [] →
  Adds currentBatch (results, w) (retryFailed retryError currentBatch results, w').
Proof.
  intros He Ha. unfold retryFailed.
  destruct (isAuthError retryError); by eapply Adds_failAll.
Qed.

Lemma deleteBatch_Adds session accessToken st currentBatch :
  Adds currentBatch st (deleteBatch session accessToken st currentBatch).
Proof.
  destruct st as [results w]. unfold deleteBatch, gmailCall.
  destruct (gmailApi w _ _ _) as [error|]; cbn zeta.
  2:{ eapply (Adds_succeed _ _ _ _ [_]); [done|]. cbn. apply app_nil_r. }
  set (first := Gmail accessToken (BatchDelete currentBatch) (Some error)).
  destruct (isAuthError error).
  2:{ apply (Adds_trans [] currentBatch (results, w) (results, record first w)).
      - by eapply (Adds_events _ _ _ [_]).
      - apply trashEach_Adds. }
  destruct (truthy (refreshToken session)); cbn [negb].
  2:{ by eapply (Adds_failAll _ _ _ _ _ [_]). }
  destruct (setupGmailClient_events session (record first w)) as (new & He & Ha).
  destruct (setupGmailClient session (record first w))
    as [[retryError|refreshedToken] w2]; cbn [snd] in He.
  - apply (retryFailed_Adds _ _ _ _ _ (first :: new)).
    + rewrite He. cbn. by rewrite <- app_assoc.
    + done.
  - destruct (gmailApi w2 _ _ _) as [retryError|]; cbn zeta.
    + apply (retryFailed_Adds _ _ _ _ _
               (first :: new ++ [Gmail refreshedToken (BatchDelete currentBatch)
                                   (Some retryError)])).
      * cbn. rewrite He. cbn. by rewrite <- !app_assoc.
      * change (accepted (first :: ?l)) with (accepted l).
        by rewrite accepted_app, Ha.
    + apply (Adds_succeed _ _ _ _
               (first :: new ++ [Gmail refreshedToken (BatchDelete currentBatch)
                                   None])).
      * cbn. rewrite He. cbn. by rewrite <- !app_assoc.
      * change (accepted (first :: ?l)) with (accepted l).
        rewrite accepted_app, Ha. cbn. apply app_nil_r.
Qed.

Lemma deleteBatches_Adds session accessToken batches : ∀ st,
  Adds (concat batches) st (foldl (deleteBatch session accessToken) st batches).
Proof.
  induction batches as [|batch batches IH]; intros st; [apply Adds_nil|].
  cbn [foldl concat].
  exact (Adds_trans batch (concat batches) _ _ _
           (deleteBatch_Adds session accessToken st batch) (IH _)).
Qed.

(** X29.  The answer of the route.  Without an access token it answers
    401 and with an empty list 400, asking nothing of the outside; when
    the first set-up of the client fails it answers 500, having read the
    clock and asked for a new token and nothing else; in these cases the
    stores are untouched.  Otherwise every requested id is reported once,
    as successful or as failed: the successful ids are those of the calls
    that the mail API accepted, in order, and the two counts add up to
    the number of ids. *)
Theorem every_id_reported_once session emailIds w stores :
  let run := POST session emailIds w stores in
  ∃ new, events run.1.2 = events w ++ new ∧
    match run.1.1 with
    | Unauthorized =>
        truthy (session ≫= accessToken) = false ∧ new = [] ∧ run.2 = stores
    | NoEmailIds => emailIds = [] ∧ new = [] ∧ run.2 = stores
    | ServerError details =>
        details = "Failed to refresh access token" ∧
        new = [ReadClock; Refresh (default "" (session ≫= refreshToken))] ∧
        run.2 = stores
    | Deleted successfulCount failedCount details _ =>
        successful details = accepted new ∧
        successful details ++ (emailId <$> failed details) ≡ₚ emailIds ∧
        successfulCount = length (successful details) ∧
        failedCount = length (failed details) ∧
        (successfulCount + failedCount)%nat = length emailIds
    end.
Proof.
  cbn zeta. unfold POST.
  destruct session as [session|]; [|by exists []; rewrite app_nil_r].
  destruct (truthy (accessToken session)) eqn:Htoken; cbn [negb];
    [|by exists []; rewrite app_nil_r].
  case_bool_decide as Hempty.
  { exists []. rewrite app_nil_r. by apply length_zero_iff_nil in Hempty. }
  destruct (setupGmailClient_events session w) as (new0 & He0 & Ha0).
  pose proof (setupGmailClient_throws session w) as Hthrows.
  destruct (setupGmailClient session w) as [[error|gmail] w0];
    cbn [fst snd] in He0, Hthrows.
  { destruct (Hthrows error eq_refl) as [-> Hev].
    exists [ReadClock; Refresh (default "" (refreshToken session))]. done. }
  pose proof (deleteBatches_Adds session gmail (slices 50 emailIds)
                ({| successful := []; failed := [] |}, w0)) as Hadds.
  rewrite concat_slices in Hadds by lia.
  destruct (foldl _ _ (slices 50 emailIds)) as [results w1].
  destruct Hadds as (new & fs & He & Hs & Hf & Hp).
  cbn [fst snd app successful failed] in *.
  exists (new0 ++ new). split; [by rewrite He, He0, app_assoc|].
  rewrite accepted_app, Ha0. cbn [app].
  split; [done|]. rewrite Hs, Hf. split; [done|].
  split; [done|]. split; [done|].
  by rewrite <- Hp, length_app, length_fmap.
Qed.

(** X30.  What the route leaves in the stores when it has deleted: a
    stored message is gone exactly when it is the user's and its id is
    reported successful, and a candidate row is gone exactly when it
    belongs to a report of the user and its message is reported
    successful (the ids of the candidate rows being distinct).  So the
    rows of the messages that failed, and those of other users, stay. *)
Theorem deleted_messages_leave_the_stores session emailIds w stores
    successfulCount failedCount details authenticationRequired :
  NoDup (ec_id <$> emailCandidates (store_reports stores)) →
  (POST session emailIds w stores).1.1
  = Deleted successfulCount failedCount details authenticationRequired →
  let userEmail := default "" (session ≫= user_email) in
  let after := (POST session emailIds w stores).2 in
  (∀ id, store_emails after !! id =
     match store_emails stores !! id with
     | Some row =>
         if decide (row_userEmail row = userEmail ∧ id ∈ successful details)
         then None else Some row
     | None => None
     end) ∧
  emailCandidates (store_reports after)
  = filter (λ c, ¬ toDelete userEmail (successful details)
                     (store_reports stores) c)
      (emailCandidates (store_reports stores)) ∧
  (∀ r report, reports (store_reports stores) !! r = Some report →
     rep_userEmail report ≠ userEmail →
     reports (store_reports after) !! r = Some report).
Proof.
  intros Hnd. unfold POST.
  destruct session as [session|]; [|done].
  destruct (truthy (accessToken session)); cbn [negb]; [|done].
  case_bool_decide; [done|].
  destruct (setupGmailClient session w) as [[error|gmail] w0]; [done|].
  destruct (foldl _ _ (slices 50 emailIds)) as [results w1].
  cbn [fst snd]. intros [= _ _ <- _]. cbn zeta. cbn [mbind option_bind].
  set (userEmail := default "" (user_email session)).
  unfold cleanUp. fold userEmail.
  destruct (cleanup_spec userEmail (successful results) (store_reports stores) Hnd)
    as (Hc & _ & Hr & _).
  case_bool_decide as Hsome; cbn [store_emails store_reports].
  - split; [|split].
    + intros id. unfold deleteEmailsByGmailIds. rewrite deleteMany_lookup.
      destruct (store_emails stores !! id) as [row|]; [|done].
      destruct (decide (row_userEmail row = userEmail ∧ id ∈ successful results))
        as [[Hu Hin]|Hn].
      * by rewrite !bool_decide_true.
      * destruct (bool_decide (row_userEmail row = userEmail)) eqn:Hu; [|done].
        apply bool_decide_eq_true in Hu. rewrite bool_decide_false; [done|]. tauto.
    + exact Hc.
    + intros r report Hrep Hother. rewrite Hr. unfold reportAfter. rewrite Hrep.
      destruct (lost userEmail (successful results) (store_reports stores) r)
        as [|c mine] eqn:Hl; [done|].
      exfalso. apply Hother.
      assert (Hne : lost userEmail (successful results) (store_reports stores) r
                    ≠ []) by (by rewrite Hl).
      apply lost_owned in Hne. rewrite Hrep in Hne. by injection Hne.
  - assert (Hnil : successful results = []).
    { destruct (successful results); [done|]. cbn in Hsome. lia. }
    rewrite Hnil. split; [|split].
    + intros id. destruct (store_emails stores !! id) as [row|]; [|done].
      rewrite decide_False; [done|]. intros [_ Hin]. by apply elem_of_nil in Hin.
    + symmetry. apply filter_all_on. intros c _ [Hin _]. by apply elem_of_nil in Hin.
    + done.
Qed.

Lemma deleted_messages_leave_the_stores_witness :
  store_emails (POST (Some sampleSession) ["m1"; "m2"] flaky sampleStores).2
    !! "m1" = None ∧
  store_emails (POST (Some sampleSession) ["m1"; "m2"] flaky sampleStores).2
    !! "m2" = Some (sampleRow "m2" "me@example.com").
Proof.
  destruct (deleted_messages_leave_the_stores (Some sampleSession) ["m1"; "m2"]
              flaky sampleStores 1 1
              {| successful := ["m1"];
                 failed := [{| emailId := "m2"; error := "Not Found" |}] |} None)
    as (Hmail & _).
  - apply (bool_decide_unpack _). vm_compute. exact I.
  - reflexivity.
  - split; [exact (Hmail "m1") | exact (Hmail "m2")].
Defined.

(** The batch call fails with a server error: the messages are trashed
    one by one, [m1] with success.  Its row and the candidate rows of the
    user's reports for it go, the row of the other user's report stays. *)
Example one_of_two_trashed :
  let run := POST (Some sampleSession) ["m1"; "m2"] flaky sampleStores in
  run.1.1 = Deleted 1 1
              {| successful := ["m1"];
                 failed := [{| emailId := "m2"; error := "Not Found" |}] |}
              None ∧
  events run.1.2
  = [ReadClock;
     Gmail (Some "token-1") (BatchDelete ["m1"; "m2"])
       (Some (ErrorWith "Backend Error" (Some 500)));
     Gmail (Some "token-1") (Trash "m1") None;
     Gmail (Some "token-1") (Trash "m2")
       (Some (ErrorWith "Not Found" (Some 404)))] ∧
  ec_id <$> emailCandidates (store_reports run.2) = ["c2"; "c3"; "c5"] ∧
  reports (store_reports run.2) !! "r2" = None.
Proof. repeat split; by vm_compute. Qed.

(** The token has expired: the client is set up with a refreshed token,
    the batch call is refused all the same, the token is refreshed again
    and the retry fails with a server error.  No message is trashed then:
    each is reported with the message of the [ReferenceError]. *)
Example failed_retry_trashes_nothing :
  let run := POST (Some sampleSession) ["m1"; "m2"] expired sampleStores in
  run.1.1 = Deleted 0 2
              {| successful := [];
                 failed := [{| emailId := "m1";
                               error := "refreshedGmail is not defined" |};
                            {| emailId := "m2";
                               error := "refreshedGmail is not defined" |}] |}
              None ∧
  events run.1.2
  = [ReadClock; Refresh "refresh-1"; ReadClock;
     Gmail (Some "token-1") (BatchDelete ["m1"; "m2"])
       (Some (ErrorWith "Request had invalid authentication credentials"
                (Some 401)));
     ReadClock; Refresh "refresh-1"; ReadClock;
     Gmail (Some "token-2") (BatchDelete ["m1"; "m2"])
       (Some (ErrorWith "Backend Error" (Some 500)))] ∧
  run.2 = sampleStores.
Proof. repeat split; by vm_compute. Qed.

End DeleteRouteFacts.

Module MoveRouteFacts.
Import ReportTables ReportTablesNotions MoveRoute ReportTablesFacts.

Lemma updateMany_again reportId emailId to rows :
  updateMany reportId emailId to (updateMany reportId emailId to rows).2
  = updateMany reportId emailId to rows.
Proof.
  unfold updateMany. cbn [snd]. f_equal.
  - induction rows as [|c rows IH]; [done|]. cbn [map]. rewrite !filter_cons.
    destruct (decide (ec_reportId c = reportId ∧ ec_emailId c = emailId));
      [rewrite decide_True by done | rewrite decide_False by done];
      cbn [length]; by rewrite IH.
  - rewrite map_map. apply map_ext. intros c.
    destruct (decide (ec_reportId c = reportId ∧ ec_emailId c = emailId));
      [|by rewrite decide_False].
    by rewrite decide_True.
Qed.

Lemma counts_add_up reportId emailId to rows :
  (to = "keep" ∨ to = "delete") →
  (∀ c, c ∈ rows → ec_reportId c = reportId →
        ec_recommendationType c = "keep" ∨ ec_recommendationType c = "delete") →
  let rows' := (updateMany reportId emailId to rows).2 in
  (countOf reportId "delete" rows' + countOf reportId "keep" rows')%nat
  = length (filter (λ c, ec_reportId c = reportId) rows).
Proof.
  intros Hto Htyped. cbn zeta. unfold updateMany, countOf. cbn [snd].
  induction rows as [|c rows IH]; [done|].
  cbn [map]. rewrite !filter_cons.
  assert (IH' := IH (λ c' Hc', Htyped c' (list_elem_of_further _ _ _ Hc'))).
  specialize (Htyped c (list_elem_of_here _ _)).
  destruct (decide (ec_reportId c = reportId ∧ ec_emailId c = emailId))
    as [[Hr He]|Hn].
  - cbn [retype ec_reportId ec_recommendationType].
    rewrite (decide_True (P:=ec_reportId c = reportId)) by done.
    destruct Hto as [-> | ->].
    + rewrite decide_False by (intros [_ ?]; done).
      rewrite decide_True by done. cbn [length]. lia.
    + rewrite decide_True by done.
      rewrite decide_False by (intros [_ ?]; done). cbn [length]. lia.
  - destruct (decide (ec_reportId c = reportId)) as [Hr|Hr].
    + destruct (Htyped Hr) as [Hk|Hd].
      * rewrite decide_False by (intros [_ ?]; congruence).
        rewrite decide_True by done. cbn [length]. lia.
      * rewrite decide_True by done.
        rewrite decide_False by (intros [_ ?]; congruence). cbn [length]. lia.
    + rewrite !decide_False by (intros [? _]; done). done.
Qed.

(** X28.  Moving a message between the lists of a report.  When the
    route answers that the message is moved, the new type is [keep] or
    [delete], the report is the user's, the rows of the report for that
    message (there is one at least) have the new type and every other
    row is as it was.  [deletionCandidates] and [keepCandidates] of the
    report are then the numbers of its rows of type [delete] and [keep],
    whatever they were before, and when the rows of the report were all
    of these two types they add up to the number of its rows.  No other
    column of the report changes: [potentialSavings] stays as it was.
    The same request again gives the same answer and changes nothing;
    with any other answer the tables are untouched. *)
Theorem move_recounts reportId email emailId newRecommendationType tables :
  let run := POST reportId email emailId newRecommendationType tables in
  match run.1 with
  | Moved _ deletionCount keepCount =>
      ∃ userEmail message to report,
        present email = Some userEmail ∧ present emailId = Some message ∧
        present newRecommendationType = Some to ∧
        (to = "keep" ∨ to = "delete") ∧
        reports tables !! reportId = Some report ∧
        rep_userEmail report = userEmail ∧
        emailCandidates run.2
        = map (λ c, if decide (ec_reportId c = reportId ∧ ec_emailId c = message)
                    then retype to c else c) (emailCandidates tables) ∧
        (∃ c, c ∈ emailCandidates tables ∧ ec_reportId c = reportId ∧
              ec_emailId c = message) ∧
        deletionCount = countOf reportId "delete" (emailCandidates run.2) ∧
        keepCount = countOf reportId "keep" (emailCandidates run.2) ∧
        reports run.2
        = <[reportId := recounted report deletionCount keepCount]>
            (reports tables) ∧
        newsletterSenders run.2 = newsletterSenders tables ∧
        ((∀ c, c ∈ emailCandidates tables → ec_reportId c = reportId →
               ec_recommendationType c = "keep" ∨
               ec_recommendationType c = "delete") →
         (deletionCount + keepCount)%nat = candidateCount reportId tables) ∧
        POST reportId email emailId newRecommendationType run.2 = run
  | _ => run.2 = tables
  end.
Proof.
  cbn zeta. unfold POST.
  destruct (present email) as [userEmail|]; [|done].
  destruct (present emailId) as [message|]; [|done].
  destruct (present newRecommendationType) as [to|]; [|done].
  case_bool_decide as Hto; [|done].
  destruct (reports tables !! reportId) as [report|] eqn:Hrep; [|done].
  case_bool_decide as Howner; [|done].
  pose proof (updateMany_again reportId message to (emailCandidates tables))
    as Hagain.
  assert (Hto' : to = "keep" ∨ to = "delete").
  { apply elem_of_cons in Hto as [->|Hto']; [by left|].
    apply list_elem_of_singleton in Hto' as ->. by right. }
  pose proof (counts_add_up reportId message to (emailCandidates tables) Hto')
    as Hsum. cbn zeta in Hsum.
  destruct (updateMany reportId message to (emailCandidates tables))
    as [count rows] eqn:Hupd.
  case_bool_decide as Hcount; [done|].
  cbn [fst snd emailCandidates reports newsletterSenders] in *.
  exists userEmail, message, to, report.
  split; [done|]. split; [done|]. split; [done|]. split; [done|].
  split; [done|]. split; [done|].
  unfold updateMany in Hupd. injection Hupd as Hc Hr.
  split; [done|]. split.
  { rewrite <- Hc in Hcount.
    destruct (filter _ (emailCandidates tables)) as [|c rest] eqn:Hf; [done|].
    assert (Hin : c ∈ c :: rest) by left. rewrite <- Hf in Hin.
    apply list_elem_of_filter in Hin as [[? ?] ?]. by exists c. }
  split; [done|]. split; [done|]. split; [done|]. split; [done|].
  split; [exact Hsum|].
  rewrite lookup_insert_eq. cbn [recounted rep_userEmail].
  rewrite bool_decide_true by done. rewrite Hagain.
  rewrite bool_decide_false by done.
  by rewrite insert_insert_eq.
Qed.

(** The message [m1] of the first report is moved to the keep list:
    one row for deletion is left, of 200 bytes, and the summary still
    says 300 bytes of savings. *)
Example moved_to_keep :
  let run := POST "r1" (Some "me@example.com") (Some "m1") (Some "keep")
               sampleTables in
  run.1 = Moved "Email moved to keep list" 1 2 ∧
  (rep_deletionCandidates <$> reports run.2 !! "r1") = Some 1 ∧
  (rep_keepCandidates <$> reports run.2 !! "r1") = Some 2 ∧
  sizeOf (forDeletion run.2 "r1") = 200 ∧
  (rep_potentialSavings <$> reports run.2 !! "r1") = Some 300.
Proof. repeat split; by vm_compute. Qed.

(** A report of another user is not found, and neither is a message
    that the report does not hold. *)
Example move_refused :
  POST "r3" (Some "me@example.com") (Some "m1") (Some "keep") sampleTables
  = (ReportNotFound, sampleTables) ∧
  POST "r1" (Some "me@example.com") (Some "m7") (Some "keep") sampleTables
  = (EmailNotFound, sampleTables) ∧
  POST "r1" (Some "me@example.com") (Some "m1") (Some "archive") sampleTables
  = (InvalidRequest, sampleTables) ∧
  POST "r1" None (Some "m1") (Some "keep") sampleTables
  = (Unauthorized, sampleTables).
Proof. repeat split; reflexivity. Qed.

End MoveRouteFacts.
